(** * Order batching: the [Solver] class of [batch_optimization.py]

    A shallow embedding of the class [Solver] (incidence model, the
    batching strategies and the evaluator) and of the reader [tsv2json],
    and the properties of its specification.

    Modelling decisions.
    - Order ids and aisle ids are strings, as the parser produces them.
    - Python list objects that hold order ids live in a store and are
      reached through locations: [self.order_ids], the lists inside
      [self.aisles_orders] and the working copy each strategy makes.
      [copy.copy] allocates, [remove] and [sort] update in place, so
      aliasing between a strategy's pool and the solver's own list is
      visible in the model.  Lists built from a literal [[]] inside a
      method (a batch, the list of batches) are fresh and are carried as
      values.  Sets and dicts are values ([gset], [gmap]).
    - A method is a computation over the [world]: the store, the state of
      the [random] module, the module-level name [solver], what was
      printed, and a log of the calls made to [MIP_single_batch].
    - A computation ends with a value, with a Python exception, or out
      of fuel ([while] loops take fuel).  The world survives all three.
    - The optimisation engine (gurobipy) is not part of the repository:
      it is a parameter, a function from the model handed to it to the
      solution it reports, if any.
    - [math.ceil(len(ids)/K)] is exact integer ceiling division (the
      float quotient is exact enough for any list that fits in memory).
    - The diagnostic file [model.lp] written by the MIP routines is not
      modelled.
    - [tsv2json] is given the lines of the file it opens.  Strings are
      byte strings, the separators it splits on are ASCII; [str.strip]
      and [int] are parameters.  A dict with string keys is the list of
      its items in insertion order. *)

From stdpp Require Import gmap strings list fin_maps sets functions sorting.

Abbreviation Order := string (only parsing).
Abbreviation Aisle := string (only parsing).
Abbreviation loc := nat (only parsing).

(** ** Input records *)

(** An item record as [tsv2json] builds it; the solver reads ['aisle']
    only. *)
Record Item := mkItem {
  aisle : Aisle;
  section : string;
  shelf : string
}.

(** The dict [orderlist], as its items in insertion order. *)
Abbreviation Orderlist := (list (Order * list Item)) (only parsing).

Fixpoint dict_get {V} (d : list (Order * V)) (o : Order) : option V :=
  match d with
  | [] => None
  | (k, v) :: d' => if decide (k = o) then Some v else dict_get d' o
  end.

(** ** The solver object *)

Record Solver := mkSolver {
  order_ids : loc;
  order_aisles : gmap Order (gset Aisle);
  aisles : list Aisle;
  aisles_orders : gmap Aisle loc;
  K : nat;
  B : nat
}.

(** ** The optimisation engine *)

(** The model [MIP_single_batch] builds: binary [x] over the pool, binary
    [y] over the aisles, [x[seed] == 1] when a seed is given,
    [sum x == batch_size] and [y[a] >= x[o]] for the listed pairs;
    the objective is [sum y]. *)
Record sb_model := mkSb {
  sb_x : list Order;
  sb_y : list Aisle;
  sb_seed : option Order;
  sb_size : nat;
  sb_link : list (Aisle * Order)
}.

(** The model [MIP] builds: [x[o,b]], [y[b,a]], [d[b]] for [b] in
    [range(B)], the capacity [K], the triples [(b, a, o)] of the linking
    constraints [y[b,a] >= x[o,b]], and the start values set on [x] and
    [y]. *)
Record full_model := mkFull {
  fm_orders : list Order;
  fm_B : nat;
  fm_aisles : list Aisle;
  fm_K : nat;
  fm_link : list (nat * Aisle * Order);
  fm_xstart : list (Order * nat * bool);
  fm_ystart : list (nat * Aisle)
}.

(** What the engine reports after [optimize()]: for each [x] variable
    whether its value [X] is non-zero; [None] when it has no solution. *)
Record Engine := mkEngine {
  optimize_single : sb_model → option (Order → bool);
  optimize_full : full_model → option (Order → nat → bool)
}.

(** ** Worlds and computations *)

Record request := mkReq {
  req_pool : list Order;
  req_size : nat;
  req_seed : option Order
}.

Record world := mkWorld {
  heap : loc → list Order;
  next : loc;
  rng : nat → nat;
  global_solver : option Solver;
  calls : list request;
  stdout : list (list nat)
}.

Inductive exn :=
  IndexError | ValueError | KeyError | ZeroDivisionError | NameError
| GurobiError.

Inductive result (A : Type) :=
| Val (a : A)
| Exn (e : exn)
| Fuel.
Arguments Val {A} a.
Arguments Exn {A} e.
Arguments Fuel {A}.

Definition result_map {A C} (f : A → C) (r : result A) : result C :=
  match r with Val a => Val (f a) | Exn e => Exn e | Fuel => Fuel end.
Global Instance result_fmap : FMap result := @result_map.

Definition M (A : Type) : Type := world → result A * world.

Definition ret {A} (a : A) : M A := λ w, (Val a, w).
Definition raise {A} (e : exn) : M A := λ w, (Exn e, w).
Definition out_of_fuel {A} : M A := λ w, (Fuel, w).
Definition bind {A C} (m : M A) (k : A → M C) : M C :=
  λ w, match m w with
       | (Val a, w') => k a w'
       | (Exn e, w') => (Exn e, w')
       | (Fuel, w') => (Fuel, w')
       end.

Notation "'do' x <- m ; k" := (bind m (λ x, k))
  (at level 10, x name, m at level 100, k at level 200).
Notation "'run' m ; k" := (bind m (λ _, k))
  (at level 10, m at level 100, k at level 200).

Definition of_option {A} (e : exn) (o : option A) : M A :=
  match o with Some a => ret a | None => raise e end.

(** [for x in l: acc = body x acc] *)
Fixpoint for_each {A S} (l : list A) (body : A → S → M S) (acc : S) : M S :=
  match l with
  | [] => ret acc
  | x :: l' => do acc' <- body x acc ; for_each l' body acc'
  end.

(** [for i in range(n)], the index handed to the body. *)
Definition for_range {S} (n : nat) (body : nat → S → M S) (acc : S) : M S :=
  for_each (seq 0 n) body acc.

(** *** The store *)

Definition set_heap (h : loc → list Order) (n : loc) (w : world) : world :=
  mkWorld h n (rng w) (global_solver w) (calls w) (stdout w).

Definition alloc (v : list Order) : M loc :=
  λ w, (Val (next w), set_heap (<[next w := v]> (heap w)) (S (next w)) w).
Definition deref (l : loc) : M (list Order) := λ w, (Val (heap w l), w).
Definition assign (l : loc) (v : list Order) : M unit :=
  λ w, (Val (), set_heap (<[l := v]> (heap w)) (next w) w).

(** [copy.copy(l)] *)
Definition py_copy (l : loc) : M loc := do v <- deref l ; alloc v.

(** [len(l)] *)
Definition py_len (l : loc) : M nat := do v <- deref l ; ret (length v).

(** [l[0]] *)
Definition py_head (l : loc) : M Order :=
  do v <- deref l ;
  match v with [] => raise IndexError | o :: _ => ret o end.

(** [list.remove]: the first occurrence goes, [ValueError] if none. *)
Fixpoint list_remove (x : Order) (l : list Order) : option (list Order) :=
  match l with
  | [] => None
  | y :: l' => if decide (x = y) then Some l' else (y ::.) <$> list_remove x l'
  end.

Definition py_remove (l : loc) (o : Order) : M unit :=
  do v <- deref l ;
  do v' <- of_option ValueError (list_remove o v) ;
  assign l v'.

(** [l.sort(reverse=True, key=...)]: the keys are computed first, the
    sort is stable, so orders with equal keys keep their relative order. *)
Fixpoint insert_desc (p : nat * Order) (l : list (nat * Order)) :=
  match l with
  | [] => [p]
  | q :: l' => if q.1 <=? p.1 then p :: q :: l' else q :: insert_desc p l'
  end.
Definition sort_desc (l : list (nat * Order)) : list (nat * Order) :=
  foldr insert_desc [] l.

Definition py_sort_desc (l : loc) (key : Order → M nat) : M unit :=
  do v <- deref l ;
  do ks <- for_each v (λ o acc, do k <- key o ; ret (acc ++ [(k, o)])) [] ;
  assign l (sort_desc ks).*2.

(** *** The [random] module *)

(** [random.choice(l)]: the next draw selects the index. *)
Definition random_choice (l : loc) : M Order :=
  do v <- deref l ;
  λ w,
    match v !! (rng w 0 `mod` length v) with
    | None => (Exn IndexError, w)
    | Some o =>
        (Val o, mkWorld (heap w) (next w) (λ i, rng w (S i))
                        (global_solver w) (calls w) (stdout w))
    end.

(** *** Logging and printing *)

Definition log_call (r : request) : M unit :=
  λ w, (Val (), mkWorld (heap w) (next w) (rng w) (global_solver w)
                        (r :: calls w) (stdout w)).

Definition print (line : list nat) : M unit :=
  λ w, (Val (), mkWorld (heap w) (next w) (rng w) (global_solver w)
                        (calls w) (stdout w ++ [line])).

(** The module-level name [solver]; [NameError] when it is unbound. *)
Definition read_global_solver : M Solver :=
  λ w, match global_solver w with
       | Some g => (Val g, w)
       | None => (Exn NameError, w)
       end.

(** ** [Solver.__init__] *)

Definition ceil_div (n k : nat) : nat :=
  n `div` k + (if n `mod` k =? 0 then 0 else 1).

(** [self.order_aisles[o]] *)
Definition get_order_aisles (s : Solver) (o : Order) : M (gset Aisle) :=
  of_option KeyError (order_aisles s !! o).

(** [self.aisles_orders[a]], the list object's contents. *)
Definition get_aisles_orders (s : Solver) (a : Aisle) : M (list Order) :=
  do l <- of_option KeyError (aisles_orders s !! a) ; deref l.

Definition Solver_init (orderlist : Orderlist) (max_batch_size : nat)
  : M Solver :=
  let ids := orderlist.*1 in
  do ids_loc <- alloc ids ;
  do oa <- for_each ids (λ o (oa : gmap Order (gset Aisle)),
          do items <- of_option KeyError (dict_get orderlist o) ;
          ret (<[o := list_to_set (aisle <$> items)]> oa)) ∅ ;
  let all_aisles : list Aisle :=
    elements (⋃ (map_to_list oa).*2 : gset Aisle) in
  do ao <- for_each all_aisles (λ a (ao : gmap Aisle loc),
          do orders <- for_each ids (λ o orders,
                      do A <- of_option KeyError (oa !! o) ;
                      ret (if decide (a ∈ A) then orders ++ [o] else orders))
                    [] ;
          do l <- alloc orders ;
          ret (<[a := l]> ao)) ∅ ;
  if max_batch_size =? 0 then raise ZeroDivisionError
  else ret (mkSolver ids_loc oa all_aisles ao max_batch_size
                     (ceil_div (length ids) max_batch_size)).

(** ** [Solver.num_aisles] *)

Definition num_aisles (s : Solver) (o : Order) : M nat :=
  do A <- get_order_aisles s o ; ret (size A).

(** ** [Solver.random_batches] *)

(** The [while] loop that fills one batch. *)
Fixpoint random_batches_fill (fuel : nat) (s : Solver) (order_ids : loc)
    (batch : list Order) : M (list Order) :=
  match fuel with
  | 0 => out_of_fuel
  | S fuel' =>
      do n <- py_len order_ids ;
      if length batch <? K s `min` (length batch + n) then
        do random_order <- random_choice order_ids ;
        let batch := batch ++ [random_order] in
        run py_remove order_ids random_order ;
        random_batches_fill fuel' s order_ids batch
      else ret batch
  end.

Definition random_batches (fuel : nat) (s : Solver) : M (list (list Order)) :=
  do order_ids <- py_copy (order_ids s) ;
  for_range (B s) (λ _ batches,
    do batch <- random_batches_fill fuel s order_ids [] ;
    ret (batches ++ [batch])) [].

(** ** [Solver.greedy_batches] *)

(** The three variables of the scan; [best_order_num = None] is
    [math.inf]. *)
Record scan_state := mkScan {
  best_order : option Order;
  best_order_aisles : gset Aisle;
  best_order_num : option nat
}.

Definition lt_inf (n : nat) (m : option nat) : bool :=
  match m with None => true | Some m => n <? m end.

(** [for o in order_ids: ...] with its [break]. *)
Fixpoint greedy_scan (s : Solver) (batch_aisles : gset Aisle)
    (pool : list Order) (st : scan_state) : M scan_state :=
  match pool with
  | [] => ret st
  | o :: pool' =>
      do A <- get_order_aisles s o ;
      let num_new_aisles := size (A ∖ batch_aisles) in
      let st := if lt_inf num_new_aisles (best_order_num st)
                then mkScan (Some o) A (Some num_new_aisles) else st in
      if num_new_aisles =? 0 then ret st
      else greedy_scan s batch_aisles pool' st
  end.

(** The [while] loop that fills one batch.  When the scan leaves
    [best_order] at [None], [order_ids.remove(None)] raises. *)
Fixpoint greedy_batches_fill (fuel : nat) (s : Solver) (order_ids : loc)
    (batch : list Order) (batch_aisles : gset Aisle) : M (list Order) :=
  match fuel with
  | 0 => out_of_fuel
  | S fuel' =>
      do n <- py_len order_ids ;
      if length batch <? K s `min` (length batch + n) then
        do pool <- deref order_ids ;
        do st <- greedy_scan s batch_aisles pool (mkScan None ∅ None) ;
        match best_order st with
        | None => raise ValueError
        | Some o =>
            let batch := batch ++ [o] in
            let batch_aisles := batch_aisles ∪ best_order_aisles st in
            run py_remove order_ids o ;
            greedy_batches_fill fuel' s order_ids batch batch_aisles
        end
      else ret batch
  end.

Definition greedy_batches (fuel : nat) (s : Solver) : M (list (list Order)) :=
  do order_ids <- py_copy (order_ids s) ;
  run py_sort_desc order_ids (num_aisles s) ;
  for_range (B s) (λ _ batches,
    let batch := [] in
    do o0 <- py_head order_ids ;
    do batch_aisles <- get_order_aisles s o0 ;
    do o0 <- py_head order_ids ;
    let batch := batch ++ [o0] in
    do o0 <- py_head order_ids ;
    do batch <- of_option ValueError (list_remove o0 batch) ;
    do batch <- greedy_batches_fill fuel s order_ids batch batch_aisles ;
    ret (batches ++ [batch])) [].

(** ** [Solver.check_num_aisles] *)

Definition check_num_aisles (s : Solver) (batches : list (list Order))
  : M nat :=
  do num_aisles <- for_each batches (λ b num_aisles,
      do aisles <- for_each b (λ o aisles,
          do A <- get_order_aisles s o ;
          ret (aisles ++ elements A)) [] ;
      ret (num_aisles ++ [size (list_to_set aisles : gset Aisle)])) [] ;
  run print num_aisles ;
  ret (sum_list num_aisles).

(** ** The strategies that call the engine *)

Definition enumerate {A} (l : list A) : list (nat * A) :=
  zip (seq 0 (length l)) l.

Section Engine.
Context (gurobi : Engine).

(** *** [Solver.MIP_single_batch] *)

(** [model.addVars(order_ids)] raises [KeyError] when the pool repeats
    an order id; [x[seed]] raises [KeyError] when the seed is no key. *)
Definition MIP_single_batch (s : Solver) (order_ids : loc)
    (batch_size : nat) (seed : option Order) : M (list Order) :=
  do pool <- deref order_ids ;
  run log_call (mkReq pool batch_size seed) ;
  let aisles : list Aisle :=
    elements (⋃ (filter (λ p, p.1 ∈ pool)
                        (map_to_list (order_aisles s))).*2 : gset Aisle) in
  run (if decide (NoDup pool) then ret () else raise KeyError) ;
  run match seed with
      | Some o => if decide (o ∈ pool) then ret () else raise KeyError
      | None => ret ()
      end ;
  do link <- for_each aisles (λ a link,
      do os <- get_aisles_orders s a ;
      ret (link ++ (pair a <$> filter (λ o, o ∈ pool) os))) [] ;
  let sol := optimize_single gurobi
               (mkSb pool aisles seed batch_size link) in
  for_each pool (λ o batch,
      match sol with
      | None => raise GurobiError
      | Some x => ret (if x o then batch ++ [o] else batch)
      end) [].

(** *** [Solver.greedy_optimal_single_batching_with_seed] *)

Definition greedy_optimal_single_batching_with_seed (s : Solver)
  : M (list (list Order)) :=
  do order_ids <- py_copy (order_ids s) ;
  run py_sort_desc order_ids (num_aisles s) ;
  for_range (B s) (λ b batches,
    do n <- py_len order_ids ;
    do seed <- py_head order_ids ;
    do batch <- MIP_single_batch s order_ids (14 `min` n) (Some seed) ;
    let batches := batches ++ [batch] in
    run for_each batch (λ o _, py_remove order_ids o) () ;
    ret batches) [].

(** *** [Solver.greedy_optimal_single_batching] *)

Definition greedy_optimal_single_batching (s : Solver)
  : M (list (list Order)) :=
  do order_ids <- py_copy (order_ids s) ;
  for_range (B s) (λ b batches,
    do n <- py_len order_ids ;
    do batch <- MIP_single_batch s order_ids (14 `min` n) None ;
    let batches := batches ++ [batch] in
    run for_each batch (λ o _, py_remove order_ids o) () ;
    ret batches) [].

(** *** [Solver.MIP] *)

(** The start values set from a batching: [x[o,b].Start] for every order
    of [self], then [y[b,a].Start = 1] where an order of the batch
    touches the aisle; [x[o,b]] and [y[b,a]] exist for [b < self.B] only. *)
Definition start_values (s : Solver)
    (single_batch_optimal : list (list Order))
  : M (list (Order * nat * bool) * list (nat * Aisle)) :=
  do xstart <- for_each (enumerate single_batch_optimal) (λ bb xstart,
      do ids <- deref (order_ids s) ;
      for_each ids (λ o xstart,
        if bb.1 <? B s
        then ret (xstart ++ [(o, bb.1, bool_decide (o ∈ bb.2))])
        else raise KeyError) xstart) [] ;
  do ystart <- for_each (enumerate single_batch_optimal) (λ bb ystart,
      for_each (aisles s) (λ a ystart,
        do os <- get_aisles_orders s a ;
        for_each os (λ o ystart,
          if decide (o ∈ bb.2) then
            if bb.1 <? B s then ret (ystart ++ [(bb.1, a)])
            else raise KeyError
          else ret ystart) ystart) ystart) [] ;
  ret (xstart, ystart).

(** The [if initial_solution:] block: the greedy batching is computed by
    the object bound to the module-level name [solver]. *)
Definition MIP_start (s : Solver)
  : M (list (Order * nat * bool) * list (nat * Aisle)) :=
  do solver <- read_global_solver ;
  do single_batch_optimal <- greedy_optimal_single_batching solver ;
  start_values s single_batch_optimal.

(** The model handed to the engine. *)
Definition MIP_model (s : Solver) (initial_solution : bool) : M full_model :=
  do ids <- deref (order_ids s) ;
  do start <- (if initial_solution then MIP_start s else ret ([], [])) ;
  do link <- for_range (B s) (λ b link,
      for_each (aisles s) (λ a link,
        do os <- get_aisles_orders s a ;
        ret (link ++ (pair (b, a) <$> os))) link) [] ;
  ret (mkFull ids (B s) (aisles s) (K s) link start.1 start.2).

Definition MIP (s : Solver) (initial_solution : bool)
  : M (list (list Order)) :=
  do model <- MIP_model s initial_solution ;
  let sol := optimize_full gurobi model in
  for_range (B s) (λ k batches,
    do ids <- deref (order_ids s) ;
    do batch <- for_each ids (λ o batch,
        match sol with
        | None => raise GurobiError
        | Some x => ret (if x o k then batch ++ [o] else batch)
        end) [] ;
    ret (batches ++ [batch])) [].
End Engine.

(** * Vocabulary of the properties *)

(** ** The effect of a computation on the world

    [effect P Q w w']: from [w] to [w'] nothing is deallocated, a list
    that existed in [w] has changed only if [P] holds of its location,
    and every call to [MIP_single_batch] logged in between satisfies
    [Q]. *)

Definition effect (P : loc → Prop) (Q : request → Prop) (w w' : world)
  : Prop :=
  next w ≤ next w' ∧
  (∀ l, l < next w → ¬ P l → heap w' l = heap w l) ∧
  ∃ new, calls w' = new ++ calls w ∧ Forall Q new.

Definition has_effect {A} (P : loc → Prop) (Q : request → Prop) (m : M A)
  : Prop :=
  ∀ w, effect P Q w (m w).2.

(** The requests the two exact-single-batch strategies make: the size
    is [min(14, len(pool))], a seed is the pool's head. *)
Definition greedy_request (r : request) : Prop :=
  req_size r = 14 `min` length (req_pool r) ∧
  ∀ o, req_seed r = Some o → head (req_pool r) = Some o.

(** A request the engine can satisfy: the size does not exceed the pool,
    and a seed is in the pool and fits in the batch. *)
Definition feasible_request (r : request) : Prop :=
  req_size r ≤ length (req_pool r) ∧
  ∀ o, req_seed r = Some o → o ∈ req_pool r ∧ 1 ≤ req_size r.

(** The construction-time state of a solver object as it can be observed
    in a world: the contents of [order_ids], [order_aisles], the contents
    of the lists of [aisles_orders], [K] and [B]. *)
Definition fields (w : world) (s : Solver)
  : list Order * gmap Order (gset Aisle) * gmap Aisle (list Order)
    * nat * nat :=
  (heap w (order_ids s), order_aisles s, heap w <$> aisles_orders s,
   K s, B s).

(** The lists of the solver object exist in the world. *)
Definition allocated (w : world) (s : Solver) : Prop :=
  order_ids s < next w ∧ map_Forall (λ _ l, l < next w) (aisles_orders s).

(** ** A reference engine and the running examples *)

(** The engine contract used below: a reported solution satisfies the
    constraints on [x] ([sum x == batch_size], the seed is selected). *)
Definition sb_feasible (m : sb_model) (x : Order → bool) : Prop :=
  length (filter (λ o, x o) (sb_x m)) = sb_size m ∧
  ∀ o, sb_seed m = Some o → x o = true.

Definition engine_sound (e : Engine) : Prop :=
  ∀ m x, optimize_single e m = Some x → sb_feasible m x.

(** A small engine that meets the contract: it proposes the seed and the
    first orders of the pool, and reports the proposal when it satisfies
    the constraints.  For the full model it fills the batches in order. *)
Definition first_fit_single (m : sb_model) : option (Order → bool) :=
  let chosen :=
    match sb_seed m with
    | None => take (sb_size m) (sb_x m)
    | Some o => o :: take (sb_size m - 1) (filter (λ o', o' ≠ o) (sb_x m))
    end in
  let x := λ o, bool_decide (o ∈ chosen) in
  if (length (filter (λ o, x o) (sb_x m)) =? sb_size m)
     && match sb_seed m with Some o => x o | None => true end
  then Some x else None.

Definition first_fit_full (m : full_model) : option (Order → nat → bool) :=
  Some (λ o b,
    bool_decide (o ∈ take (fm_K m) (drop (b * fm_K m) (fm_orders m)))).

Definition first_fit : Engine := mkEngine first_fit_single first_fit_full.

Definition initial_world : world := mkWorld (λ _, []) 0 (λ _, 0) None [] [].

Definition item_in (a : Aisle) : Item := mkItem a "1" "1".

(** The scenario of the specification: three orders, [K = 2]. *)
Definition scenario : Orderlist :=
  [("o1", [item_in "a1"; item_in "a2"]);
   ("o2", [item_in "a2"]);
   ("o3", [item_in "a3"])].

Definition no_solver : Solver := mkSolver 0 ∅ [] ∅ 1 0.

Definition built (r : result Solver * world) : Solver :=
  match r.1 with Val s => s | _ => no_solver end.

Definition scenario_solver : Solver :=
  built (Solver_init scenario 2 initial_world).
Definition scenario_world : world := (Solver_init scenario 2 initial_world).2.

(** ** The evaluator, as the specification words it *)

(** The union of the aisle sets of a batch's member orders. *)
Definition batch_aisles_of (s : Solver) (b : list Order) : gset Aisle :=
  ⋃ ((λ o, default ∅ (order_aisles s !! o)) <$> b).

(** The sum over the batches of the size of that union. *)
Definition total_aisle_visits (s : Solver) (batches : list (list Order))
  : nat :=
  sum_list (size ∘ batch_aisles_of s <$> batches).

(** Every order id of the batching is an order of the solver. *)
Definition known_orders (s : Solver) (batches : list (list Order)) : Prop :=
  Forall (Forall (λ o, is_Some (order_aisles s !! o))) batches.

(** ** The incidence model, as the specification words it *)

(** The set of the aisle fields of an order's item records. *)
Definition aisle_fields (items : list Item) : gset Aisle :=
  list_to_set (aisle <$> items).

(** [o] is a member of [aisles_orders[a]]. *)
Definition in_aisles_orders (w : world) (s : Solver) (a : Aisle) (o : Order)
  : Prop :=
  ∃ l, aisles_orders s !! a = Some l ∧ o ∈ heap w l.

(** [a] is a member of [order_aisles[o]]. *)
Definition in_order_aisles (s : Solver) (o : Order) (a : Aisle) : Prop :=
  ∃ A, order_aisles s !! o = Some A ∧ a ∈ A.


(** ** The overlap-greedy selection, as the specification words it *)

(** The number of new aisles order [o] would add to a batch. *)
Definition new_aisles (s : Solver) (batch_aisles : gset Aisle) (o : Order)
  : nat :=
  size (default ∅ (order_aisles s !! o) ∖ batch_aisles).

(** [o] is the first order of [pool], in scan order, whose number of new
    aisles is minimal: strictly fewer than every order before it, no
    more than any order after it. *)
Definition first_minimal (s : Solver) (batch_aisles : gset Aisle)
    (pool : list Order) (o : Order) : Prop :=
  ∃ pre post, pool = pre ++ o :: post ∧
    (∀ o', o' ∈ pre → new_aisles s batch_aisles o < new_aisles s batch_aisles o') ∧
    (∀ o', o' ∈ post → new_aisles s batch_aisles o ≤ new_aisles s batch_aisles o').

Definition known_order (s : Solver) (o : Order) : Prop :=
  is_Some (order_aisles s !! o).

(** ** The module-level name [solver] *)

Definition set_global (g : option Solver) (w : world) : world :=
  mkWorld (heap w) (next w) (rng w) g (calls w) (stdout w).

(** A second solver object, over one other order, built after the
    scenario's. *)
Definition other_orders : Orderlist := [("p1", [item_in "a1"])].

Definition other_solver : Solver :=
  built (Solver_init other_orders 1 scenario_world).
Definition two_solvers_world : world :=
  (Solver_init other_orders 1 scenario_world).2.


(** ** Batch sizes *)

(** The sizes of [m] batches peeled off a pool of [r] orders, each filled
    to [min(K, remaining)]. *)
Fixpoint batch_sizes (K r m : nat) : list nat :=
  match m with
  | 0 => []
  | S m' => (K `min` r) :: batch_sizes K (r - K `min` r) m'
  end.

(** A pool of [r] orders and [m] batches to fill fit together: the pool
    lasts exactly until the last batch. *)
Definition fits (K r m : nat) : Prop :=
  (m = 0 ∧ r = 0) ∨ (0 < m ∧ (m - 1) * K < r ∧ r ≤ m * K).

(** A batching of the order ids [ids]: every id is in exactly one batch. *)
Definition partition_of (ids : list Order) (batches : list (list Order))
  : Prop :=
  concat batches ≡ₚ ids.




(** Fifteen orders in one aisle, with [K = 15]: one batch is due. *)
Definition crowded : Orderlist :=
  (λ o, (o, [item_in "a1"])) <$>
    ["o01"; "o02"; "o03"; "o04"; "o05"; "o06"; "o07"; "o08"; "o09"; "o10";
     "o11"; "o12"; "o13"; "o14"; "o15"].

Definition crowded_solver : Solver :=
  built (Solver_init crowded 15 initial_world).
Definition crowded_world : world := (Solver_init crowded 15 initial_world).2.

(** The request [r] was logged while [m] ran from [w]. *)
Definition logged {A} (r : request) (m : M A) (w : world) : Prop :=
  ∃ later, calls (m w).2 = later ++ r :: calls w.






(** The engine finds a solution for every request it can satisfy on a
    pool without duplicates. *)
Definition engine_complete (e : Engine) : Prop :=
  ∀ m, NoDup (sb_x m) → sb_size m ≤ length (sb_x m) →
       (∀ o, sb_seed m = Some o → o ∈ sb_x m ∧ 1 ≤ sb_size m) →
       is_Some (optimize_single e m).

(** Every aisle of every order has its list in [aisles_orders]. *)
Definition index_total (s : Solver) : Prop :=
  ∀ o A a, order_aisles s !! o = Some A → a ∈ A →
           is_Some (aisles_orders s !! a).



(** The number of aisles of an order, the key the sorts use. *)
Definition aisle_count (s : Solver) (o : Order) : nat :=
  size (default ∅ (order_aisles s !! o)).

(** A pool ordered by descending number of aisles. *)
Definition by_aisles_desc (s : Solver) (pool : list Order) : Prop :=
  StronglySorted (λ o o', aisle_count s o' ≤ aisle_count s o) pool.

(** [o] has the most aisles among the orders [pool]. *)
Definition largest_of (s : Solver) (pool : list Order) (o : Order) : Prop :=
  ∀ o', o' ∈ pool → aisle_count s o' ≤ aisle_count s o.




(** What the unseeded strategy asks for: [min(14, len(pool))] orders, no
    seed. *)
Definition unseeded_request (r : request) : Prop :=
  req_size r = 14 `min` length (req_pool r) ∧ req_seed r = None.

(** What the seeded strategy asks for: [min(14, len(pool))] orders, the
    first order of a non-empty pool as seed. *)
Definition seeded_request (r : request) : Prop :=
  req_size r = 14 `min` length (req_pool r) ∧
  ∃ o, req_seed r = Some o ∧ head (req_pool r) = Some o.



(** What [MIP_single_batch] returns for the model [m] it hands to the
    engine: [KeyError] for a pool that repeats an order id and for a
    seed that is no [x] variable; the selected orders of the pool, in
    pool order; without a solution reading [x[o].X] raises, unless the
    pool is empty. *)
Definition single_batch_outcome (gurobi : Engine) (m : sb_model)
  : result (list Order) :=
  let read :=
    match optimize_single gurobi m with
    | Some x => Val (filter (λ o, x o) (sb_x m))
    | None => if decide (sb_x m = []) then Val [] else Exn GurobiError
    end in
  if decide (NoDup (sb_x m)) then
    match sb_seed m with
    | Some o => if decide (o ∈ sb_x m) then read else Exn KeyError
    | None => read
    end
  else Exn KeyError.

(** * Reading the order file: [tsv2json] *)

(** Strings are byte strings; the separators [tsv2json] splits on are
    ASCII.  [str.strip] and [int] are built-ins and stay parameters:
    [py_int s] is [None] where [int(s)] raises [ValueError]. *)
Record Text := mkText {
  str_strip : string → string;
  py_int : string → option Z
}.

(** [s.split(c)] for a one-character separator: the pieces between the
    occurrences of [c], as many as occurrences plus one. *)
Fixpoint str_split (c : Ascii.ascii) (s : string) : list string :=
  match s with
  | EmptyString => [EmptyString]
  | String a s' =>
      if Ascii.eqb a c then EmptyString :: str_split c s'
      else match str_split c s' with
           | p :: ps => String a p :: ps
           | [] => [String a EmptyString]
           end
  end.

(** The separators: ['\t'] and ['-']. *)
Definition tab : Ascii.ascii := Ascii.ascii_of_nat 9.
Definition dash : Ascii.ascii := Ascii.ascii_of_nat 45.

(** [l[i]]: a negative index counts from the end. *)
Definition py_index {A} (l : list A) (i : Z) : M A :=
  let j := (if i <? 0 then i + Z.of_nat (length l) else i)%Z in
  if (j <? 0)%Z then raise IndexError
  else of_option IndexError (l !! Z.to_nat j).

(** [d[k] = v] on a dict held as its items in insertion order: the value
    of a key that is present is replaced in place, a new key goes last.
    A dict display [{k1: v1, ...}] sets its items from left to right. *)
Fixpoint dict_set {V} (d : list (string * V)) (k : string) (v : V)
  : list (string * V) :=
  match d with
  | [] => [(k, v)]
  | (k', v') :: d' =>
      if decide (k' = k) then (k', v) :: d' else (k', v') :: dict_set d' k v
  end.

(** A [data_entry] and the dict [json_data]. *)
Abbreviation Entry := (list (string * string)) (only parsing).
Abbreviation Json := (list (Order * list (list (string * string))))
  (only parsing).

(** A [for] loop whose body may [break]. *)
Inductive flow (A : Type) :=
| Next (a : A)
| Break (a : A).
Arguments Next {A} a.
Arguments Break {A} a.

Fixpoint for_each_break {X S} (l : list X) (body : X → S → M (flow S))
    (acc : S) : M S :=
  match l with
  | [] => ret acc
  | x :: l' =>
      do r <- body x acc ;
      match r with
      | Next acc' => for_each_break l' body acc'
      | Break acc' => ret acc'
      end
  end.

(** [if int(location[1]) <= limit: aisle = location[0] + 'a'] and
    [else: aisle = location[0] + 'b']. *)
Definition tsv_section (T : Text) (location : list string) (limit : Z)
  : M string :=
  do l1 <- py_index location 1 ;
  do n1 <- of_option ValueError (py_int T l1) ;
  do l0 <- py_index location 0 ;
  ret (if (n1 <=? limit)%Z then l0 +:+ "a" else l0 +:+ "b").

(** The aisle name of a location [aisle-section-shelf]: the [if] chain
    of the loop body.  [int] is a function of its argument, so the value
    of [int(location[0])] is bound once. *)
Definition tsv_aisle (T : Text) (location : list string) : M string :=
  do l0 <- py_index location 0 ;
  do n0 <- of_option ValueError (py_int T l0) ;
  if ((22 <? n0) || (n0 =? 1))%Z then
    ret (if decide (l0 = "52") then "48" else l0)
  else if ((n0 <? 19) && (1 <? n0))%Z then tsv_section T location 34
  else if decide (l0 = "19") then
    do l1 <- py_index location 1 ;
    do n1 <- of_option ValueError (py_int T l1) ;
    if negb (n1 `mod` 2 =? 0)%Z then tsv_section T location 33
    else tsv_section T location 18
  else if decide (l0 = "22") then tsv_section T location 16
  else tsv_section T location 18.

(** The loop body up to the dict display: [values], [location], the
    aisle and [data_entry]. *)
Definition tsv_entry (T : Text) (header values : list string)
  : M (list (string * string)) :=
  do last <- py_index values (-1) ;
  let location := str_split dash last in
  do aisle <- tsv_aisle T location ;
  do h2 <- py_index header 2 ;
  do v2 <- py_index values 2 ;
  do h3 <- py_index header 3 ;
  do v3 <- py_index values 3 ;
  do l1 <- py_index location 1 ;
  do l2 <- py_index location 2 ;
  ret (dict_set (dict_set (dict_set (dict_set (dict_set [] h2 v2) h3 v3)
                   "aisle" aisle) "section" l1) "shelf" l2).

(** The loop body: the entry joins the list of its order; a new order
    is added unless the dict already holds more than [max_orders]
    orders, in which case the loop ends. *)
Definition tsv_row (T : Text) (max_orders : Z) (header : list string)
    (line : string) (json_data : list (Order * list (list (string * string))))
  : M (flow (list (Order * list (list (string * string))))) :=
  let values := str_split tab (str_strip T line) in
  do data_entry <- tsv_entry T header values ;
  do v1 <- py_index values 1 ;
  match dict_get json_data v1 with
  | Some entries =>
      ret (Next (dict_set json_data v1 (entries ++ [data_entry])))
  | None =>
      if (max_orders <? Z.of_nat (length json_data))%Z
      then ret (Break json_data)
      else ret (Next (dict_set json_data v1 [data_entry]))
  end.

(** [tsv2json] on an open file given as its lines: [readline] takes the
    header (the empty string at the end of the file), the loop reads the
    other lines. *)
Definition tsv2json (T : Text) (input_file : list string) (max_orders : Z)
  : M (list (Order * list (list (string * string)))) :=
  let header := str_split tab (str_strip T (hd "" input_file)) in
  for_each_break (tl input_file) (tsv_row T max_orders header) [].

(** What [Solver.__init__] reads of an entry: [p['aisle']]; an entry
    without the three location keys is no item record. *)
Definition item_of (e : list (string * string)) : option Item :=
  a ← dict_get e "aisle" ;
  s ← dict_get e "section" ;
  h ← dict_get e "shelf" ;
  Some (mkItem a s h).

Definition orderlist_of (json_data : list (Order * list (list (string * string))))
  : option (list (Order * list Item)) :=
  mapM (λ p, items ← mapM item_of p.2 ; Some (p.1, items)) json_data.

(** ** Vocabulary of the reader's properties *)

(** A computation that reads only: its outcome does not depend on the
    world and leaves it as it is, and it ends with a value, with
    [IndexError] or with [ValueError]. *)
Definition outcome_ok {A} (r : result A) : Prop :=
  match r with
  | Val _ => True
  | Exn e => e = IndexError ∨ e = ValueError
  | Fuel => False
  end.

Definition reads_only {A} (m : M A) : Prop :=
  ∃ r, outcome_ok r ∧ ∀ w, m w = (r, w).

(** The row [line] is read as the entry [pe.2] of the order [pe.1]. *)
Definition parsed (T : Text) (header : list string) (line : string)
    (pe : Order * list (string * string)) : Prop :=
  let values := str_split tab (str_strip T line) in
  values !! 1%nat = Some pe.1 ∧
  ∀ w, tsv_entry T header values w = (Val pe.2, w).

(** An entry has the three location keys, and its aisle is not [52]. *)
Definition entry_ok (e : list (string * string)) : Prop :=
  ∃ a, dict_get e "aisle" = Some a ∧ a ≠ "52" ∧
       is_Some (dict_get e "section") ∧ is_Some (dict_get e "shelf").

(** The entries read for the order [o], in the order of the rows. *)
Definition entries_of (o : Order)
    (pes : list (Order * list (string * string)))
  : list (list (string * string)) :=
  (filter (λ pe, pe.1 = o) pes).*2.

(** An instance of the built-ins for plain ASCII text: [strip] removes
    the ASCII white space at both ends, [int] reads an unsigned decimal
    numeral. *)
Definition is_space (c : Ascii.ascii) : bool :=
  bool_decide (Ascii.nat_of_ascii c ∈ [32; 9; 10; 11; 12; 13]).

Fixpoint lstrip (s : string) : string :=
  match s with
  | EmptyString => EmptyString
  | String c s' => if is_space c then lstrip s' else s
  end.

Fixpoint rstrip (s : string) : string :=
  match s with
  | EmptyString => EmptyString
  | String c s' =>
      match rstrip s' with
      | EmptyString => if is_space c then EmptyString else String c EmptyString
      | r => String c r
      end
  end.

Definition digit (c : Ascii.ascii) : option Z :=
  let n := Z.of_N (Ascii.N_of_ascii c) in
  if ((48 <=? n) && (n <=? 57))%Z then Some (n - 48)%Z else None.

Fixpoint digits (acc : Z) (s : string) : option Z :=
  match s with
  | EmptyString => Some acc
  | String c s' => d ← digit c ; digits (10 * acc + d)%Z s'
  end.

Definition decimal (s : string) : option Z :=
  match s with EmptyString => None | _ => digits 0 s end.

Definition plain_text : Text :=
  mkText (λ s, rstrip (lstrip s)) decimal.

Definition tsv_line (fields : list string) : string :=
  String.concat (String tab EmptyString) fields +:+ String (Ascii.ascii_of_nat 10) EmptyString.

(** A file of four rows for three orders; the first order comes back in
    the third row. *)
Definition order_file : list string :=
  [ tsv_line ["line"; "order"; "article"; "quantity"; "location"];
    tsv_line ["1"; "o1"; "a1"; "2"; "52-10-3"];
    tsv_line ["2"; "o2"; "a2"; "1"; "5-40-1"];
    tsv_line ["3"; "o1"; "a3"; "1"; "19-7-2"];
    tsv_line ["4"; "o3"; "a4"; "1"; "22-3-1"] ].

(** The entry [pe.2] joins the list of the order [pe.1]. *)
Definition json_add (json_data : list (Order * list (list (string * string))))
    (pe : Order * list (string * string))
  : list (Order * list (list (string * string))) :=
  dict_set json_data pe.1 (default [] (dict_get json_data pe.1) ++ [pe.2]).

(** The elements of [l] in the order of their first occurrence. *)
Definition first_seen (l : list string) : list string :=
  reverse (remove_dups (reverse l)).

(** What [tsv2json] reads of [order_file] with [max_orders = 1]: the
    row of the third order ends the loop. *)
Definition order_file_json : list (Order * list (list (string * string))) :=
  [ ("o1", [ [("article", "a1"); ("quantity", "2"); ("aisle", "48");
              ("section", "10"); ("shelf", "3")];
             [("article", "a3"); ("quantity", "1"); ("aisle", "19a");
              ("section", "7"); ("shelf", "2")] ]);
    ("o2", [ [("article", "a2"); ("quantity", "1"); ("aisle", "5b");
              ("section", "40"); ("shelf", "1")] ]) ].

(** A file whose header has two columns only. *)
Definition short_header_file : list string :=
  [ tsv_line ["line"; "order"];
    tsv_line ["1"; "o1"; "a1"; "2"; "52-10-3"] ].


(** ** The batches of the overlap-greedy strategy *)

(** The pool [greedy_batches] works on: the order ids sorted by
    descending number of aisles, orders with the same number in their
    original order. *)
Definition sorted_pool (s : Solver) (ids : list Order) : list Order :=
  (sort_desc ((λ o, (aisle_count s o, o)) <$> ids)).*2.

(** [selections s ba pool batch pool']: [batch] lists, in order, the
    selections made from [pool], the batch aisles being [ba] at the
    start.  Every selection is the first minimal order of the pool that
    remains; it leaves the pool and its aisles join the batch aisles.
    [pool'] is what remains at the end. *)
Inductive selections (s : Solver)
  : gset Aisle → list Order → list Order → list Order → Prop :=
| selections_nil ba pool : selections s ba pool [] pool
| selections_cons ba pool o pool' batch pool'' :
    first_minimal s ba pool o →
    list_remove o pool = Some pool' →
    selections s (ba ∪ default ∅ (order_aisles s !! o)) pool' batch pool'' →
    selections s ba pool (o :: batch) pool''.

(** The batches built from [pool]: each one starts from the aisles of
    the head of the pool and takes [min(K, len(pool))] selections. *)
Fixpoint overlap_greedy (s : Solver) (pool : list Order)
    (batches : list (list Order)) : Prop :=
  match batches with
  | [] => True
  | batch :: rest =>
      ∃ o0 pool',
        head pool = Some o0 ∧
        length batch = K s `min` length pool ∧
        selections s (default ∅ (order_aisles s !! o0)) pool batch pool' ∧
        overlap_greedy s pool' rest
  end.


(** ** Reading the solution of the full model *)

(** The loop at the end of [MIP], on the model [m] handed to the
    engine. *)
Definition MIP_read (gurobi : Engine) (s : Solver) (m : full_model)
  : M (list (list Order)) :=
  let sol := optimize_full gurobi m in
  for_range (B s) (λ k batches,
    do ids <- deref (order_ids s) ;
    do batch <- for_each ids (λ o batch,
        match sol with
        | None => raise GurobiError
        | Some x => ret (if x o k then batch ++ [o] else batch)
        end) [] ;
    ret (batches ++ [batch])) [].

(** A computation that leaves the world as it is, whatever its
    outcome. *)
Definition keeps_world {A} (m : M A) : Prop := ∀ w, (m w).2 = w.


(** [location] of a row: the last field, split at the dashes. *)
Definition row_location (T : Text) (line : string) : list string :=
  str_split dash (default "" (last (str_split tab (str_strip T line)))).

(** The entry [e] is named after the location of the row [line]: in hall
    1 and in the halls above 22 the aisle is the first part of the
    location, [52] renamed [48]; in the other halls it is the first part
    with the suffix [a] or [b].  The second and the third part are kept
    as the section and the shelf. *)
Definition entry_named (T : Text) (line : string)
    (e : list (string * string)) : Prop :=
  ∃ l0 l1 l2 n0 a,
    row_location T line !! 0 = Some l0 ∧
    row_location T line !! 1 = Some l1 ∧
    row_location T line !! 2 = Some l2 ∧
    py_int T l0 = Some n0 ∧
    dict_get e "aisle" = Some a ∧
    dict_get e "section" = Some l1 ∧ dict_get e "shelf" = Some l2 ∧
    a ≠ "52" ∧
    if ((22 <? n0) || (n0 =? 1))%Z
    then a = (if decide (l0 = "52") then "48" else l0)
    else a = l0 +:+ "a" ∨ a = l0 +:+ "b".

(** The rows of [order_file], as read. *)
Definition order_file_entries : list (Order * list (string * string)) :=
  [ ("o1", [("article", "a1"); ("quantity", "2"); ("aisle", "48");
            ("section", "10"); ("shelf", "3")]);
    ("o2", [("article", "a2"); ("quantity", "1"); ("aisle", "5b");
            ("section", "40"); ("shelf", "1")]);
    ("o1", [("article", "a3"); ("quantity", "1"); ("aisle", "19a");
            ("section", "7"); ("shelf", "2")]);
    ("o3", [("article", "a4"); ("quantity", "1"); ("aisle", "22a");
            ("section", "3"); ("shelf", "1")]) ].

(** * Reasoning about computations *)

(** ** Equations of the primitives *)

Lemma bind_val {A C} (m : M A) (k : A → M C) w a w1 :
  m w = (Val a, w1) → bind m k w = k a w1.
Proof. unfold bind. by intros ->. Qed.

Lemma bind_exn {A C} (m : M A) (k : A → M C) w e w1 :
  m w = (Exn e, w1) → bind m k w = (Exn e, w1).
Proof. unfold bind. by intros ->. Qed.

Lemma bind_fuel {A C} (m : M A) (k : A → M C) w w1 :
  m w = (Fuel, w1) → bind m k w = (Fuel, w1).
Proof. unfold bind. by intros ->. Qed.

Lemma py_len_eq l w : py_len l w = (Val (length (heap w l)), w).
Proof. reflexivity. Qed.

Lemma py_head_eq l w :
  py_head l w = match heap w l with
                | [] => (Exn IndexError, w)
                | o :: _ => (Val o, w)
                end.
Proof. unfold py_head, bind, deref. by destruct (heap w l). Qed.

Lemma py_remove_eq l o w :
  py_remove l o w =
    match list_remove o (heap w l) with
    | Some v' => (Val (), set_heap (<[l := v']> (heap w)) (next w) w)
    | None => (Exn ValueError, w)
    end.
Proof. unfold py_remove, bind, deref. by destruct (list_remove _ _). Qed.

Lemma py_copy_eq l w :
  py_copy l w =
    (Val (next w), set_heap (<[next w := heap w l]> (heap w)) (S (next w)) w).
Proof. reflexivity. Qed.

Section Effect.
Context (P : loc → Prop) (Q : request → Prop).

Lemma effect_refl w : effect P Q w w.
Proof. split; [lia|]. split; [done|]. by exists []. Qed.

Lemma effect_trans w1 w2 w3 :
  effect P Q w1 w2 → effect P Q w2 w3 → effect P Q w1 w3.
Proof.
  intros (Hn1 & Hh1 & n1 & Hc1 & Hq1) (Hn2 & Hh2 & n2 & Hc2 & Hq2).
  split; [lia|]. split.
  - intros l Hl HP. rewrite Hh2, Hh1; [done..|lia|done].
  - exists (n2 ++ n1). split.
    + by rewrite Hc2, Hc1, app_assoc.
    + by apply Forall_app.
Qed.

(** The rule for a [bind] whose continuation depends on the state the
    first computation leaves. *)
Lemma effect_bind {A C} (m : M A) (k : A → M C) w :
  effect P Q w (m w).2 →
  (∀ a w1, m w = (Val a, w1) → effect P Q w1 (k a w1).2) →
  effect P Q w (bind m k w).2.
Proof.
  intros Hm Hk. unfold bind.
  destruct (m w) as [[a| |] w1] eqn:E; simpl in *; [|done..].
  eapply effect_trans; [exact Hm|]. by apply Hk.
Qed.

Lemma has_effect_ret {A} (a : A) : has_effect P Q (ret a).
Proof. intros w. apply effect_refl. Qed.

Lemma has_effect_raise {A} e : has_effect P Q (@raise A e).
Proof. intros w. apply effect_refl. Qed.

Lemma has_effect_out_of_fuel {A} : has_effect P Q (@out_of_fuel A).
Proof. intros w. apply effect_refl. Qed.

Lemma has_effect_bind {A C} (m : M A) (k : A → M C) :
  has_effect P Q m → (∀ a, has_effect P Q (k a)) →
  has_effect P Q (bind m k).
Proof. intros Hm Hk w. apply effect_bind; [done|]. intros. apply Hk. Qed.

Lemma has_effect_of_option {A} e (o : option A) :
  has_effect P Q (of_option e o).
Proof. destruct o; [apply has_effect_ret | apply has_effect_raise]. Qed.

Lemma has_effect_for_each {A S} (l : list A) (body : A → S → M S) acc :
  (∀ x acc, has_effect P Q (body x acc)) →
  has_effect P Q (for_each l body acc).
Proof.
  intros Hb. revert acc.
  induction l as [|x l IH]; intros acc; simpl.
  - apply has_effect_ret.
  - apply has_effect_bind; [apply Hb | intros; apply IH].
Qed.

Lemma has_effect_for_range {S} n (body : nat → S → M S) acc :
  (∀ x acc, has_effect P Q (body x acc)) →
  has_effect P Q (for_range n body acc).
Proof. apply has_effect_for_each. Qed.

Lemma has_effect_deref l : has_effect P Q (deref l).
Proof. intros w. apply effect_refl. Qed.

Lemma has_effect_py_len l : has_effect P Q (py_len l).
Proof. intros w. apply effect_refl. Qed.

Lemma has_effect_py_head l : has_effect P Q (py_head l).
Proof. intros w. rewrite py_head_eq. destruct (heap w l); apply effect_refl. Qed.

Lemma has_effect_alloc v : has_effect P Q (alloc v).
Proof.
  intros w. split; [simpl; lia|]. split; [|by exists []].
  intros l Hl _. simpl. apply fn_lookup_insert_ne. lia.
Qed.

Lemma has_effect_assign l v : P l → has_effect P Q (assign l v).
Proof.
  intros HP w. split; [simpl; lia|]. split; [|by exists []].
  intros l' _ Hl'. simpl. apply fn_lookup_insert_ne. by intros ->.
Qed.

Lemma has_effect_py_copy l : has_effect P Q (py_copy l).
Proof.
  apply has_effect_bind; [apply has_effect_deref|].
  intros; apply has_effect_alloc.
Qed.

Lemma has_effect_py_remove l o : P l → has_effect P Q (py_remove l o).
Proof.
  intros HP. apply has_effect_bind; [apply has_effect_deref|]. intros v.
  apply has_effect_bind; [apply has_effect_of_option|].
  intros; by apply has_effect_assign.
Qed.

Lemma has_effect_py_sort_desc l key :
  P l → (∀ o, has_effect P Q (key o)) →
  has_effect P Q (py_sort_desc l key).
Proof.
  intros HP Hkey. apply has_effect_bind; [apply has_effect_deref|].
  intros v. apply has_effect_bind.
  - apply has_effect_for_each. intros o acc.
    apply has_effect_bind; [apply Hkey | intros; apply has_effect_ret].
  - intros; by apply has_effect_assign.
Qed.

Lemma has_effect_random_choice l : has_effect P Q (random_choice l).
Proof.
  intros w. unfold random_choice, bind, deref.
  destruct (_ !! _); [|apply effect_refl].
  split; [simpl; lia|]. split; [done|by exists []].
Qed.

Lemma has_effect_log_call r : Q r → has_effect P Q (log_call r).
Proof.
  intros HQ w. split; [simpl; lia|]. split; [done|].
  exists [r]. split; [done|]. by constructor.
Qed.

Lemma has_effect_print line : has_effect P Q (print line).
Proof. intros w. split; [simpl; lia|]. split; [done|by exists []]. Qed.

Lemma has_effect_read_global_solver : has_effect P Q read_global_solver.
Proof.
  intros w. unfold read_global_solver.
  destruct (global_solver w); apply effect_refl.
Qed.

Lemma has_effect_get_order_aisles s o :
  has_effect P Q (get_order_aisles s o).
Proof. apply has_effect_of_option. Qed.

Lemma has_effect_get_aisles_orders s a :
  has_effect P Q (get_aisles_orders s a).
Proof.
  apply has_effect_bind; [apply has_effect_of_option|].
  intros; apply has_effect_deref.
Qed.

Lemma has_effect_num_aisles s o : has_effect P Q (num_aisles s o).
Proof.
  apply has_effect_bind; [apply has_effect_get_order_aisles|].
  intros; apply has_effect_ret.
Qed.
End Effect.

Lemma has_effect_at {A} P Q (m : M A) w :
  has_effect P Q m → effect P Q w (m w).2.
Proof. intros H. apply H. Qed.

Lemma effect_mono (P P' : loc → Prop) (Q Q' : request → Prop) w w' :
  (∀ l, P l → P' l) → (∀ r, Q r → Q' r) →
  effect P Q w w' → effect P' Q' w w'.
Proof.
  intros HP HQ (Hn & Hh & new & Hc & Hnew).
  split; [done|]. split.
  - intros l Hl HP'. apply Hh; [done|]. intros ?. apply HP'. by apply HP.
  - exists new. split; [done|]. eapply Forall_impl; [exact Hnew|done].
Qed.

(** A computation that starts by copying a list and then writes to the
    copy only writes to no list that existed before. *)
Lemma effect_copy_scope {C} (Q : request → Prop) l (k : loc → M C) w :
  (∀ l0, has_effect (eq l0) Q (k l0)) →
  effect (λ _, False) Q w (bind (py_copy l) k w).2.
Proof.
  intros Hk. erewrite bind_val; [|apply py_copy_eq].
  destruct (Hk (next w) (set_heap (<[next w := heap w l]> (heap w))
                                  (S (next w)) w))
    as (Hn & Hh & new & Hc & Hnew); simpl in *.
  split; [lia|]. split; [|by exists new].
  intros l' Hl' _. rewrite Hh; [|lia|lia].
  apply fn_lookup_insert_ne. lia.
Qed.

(** Solving effect goals by the structure of the computation. *)
Ltac intro_binders := repeat match goal with |- ∀ _, _ => intro end.

Ltac effects :=
  repeat (intro_binders;
    lazymatch goal with
    | |- has_effect _ _ (let _ := _ in _) => cbv zeta
    | |- has_effect _ _ (bind _ _) => apply has_effect_bind
    | |- has_effect _ _ (for_each _ _ _) => apply has_effect_for_each
    | |- has_effect _ _ (for_range _ _ _) => apply has_effect_for_range
    | |- has_effect _ _ (ret _) => apply has_effect_ret
    | |- has_effect _ _ (raise _) => apply has_effect_raise
    | |- has_effect _ _ out_of_fuel => apply has_effect_out_of_fuel
    | |- has_effect _ _ (of_option _ _) => apply has_effect_of_option
    | |- has_effect _ _ (deref _) => apply has_effect_deref
    | |- has_effect _ _ (alloc _) => apply has_effect_alloc
    | |- has_effect _ _ (py_len _) => apply has_effect_py_len
    | |- has_effect _ _ (py_head _) => apply has_effect_py_head
    | |- has_effect _ _ (py_copy _) => apply has_effect_py_copy
    | |- has_effect _ _ (py_remove _ _) => apply has_effect_py_remove; try done
    | |- has_effect _ _ (py_sort_desc _ _) =>
        apply has_effect_py_sort_desc; try done
    | |- has_effect _ _ (random_choice _) => apply has_effect_random_choice
    | |- has_effect _ _ (print _) => apply has_effect_print
    | |- has_effect _ _ read_global_solver =>
        apply has_effect_read_global_solver
    | |- has_effect _ _ (get_order_aisles _ _) =>
        apply has_effect_get_order_aisles
    | |- has_effect _ _ (get_aisles_orders _ _) =>
        apply has_effect_get_aisles_orders
    | |- has_effect _ _ (num_aisles _ _) => apply has_effect_num_aisles
    | |- has_effect _ _ (match ?x with _ => _ end) => destruct x
    end); intro_binders.

(** ** Effects of the strategies *)

Lemma greedy_request_feasible r : greedy_request r → feasible_request r.
Proof.
  destruct r as [pool n seed]. unfold greedy_request, feasible_request.
  cbn [req_pool req_size req_seed]. intros [-> Hs]. split.
  - apply Nat.le_min_r.
  - intros o Ho. specialize (Hs o Ho).
    destruct pool as [|o' pool]; simplify_eq/=.
    split; [left | lia].
Qed.

Lemma has_effect_random_batches_fill Q fuel s l batch :
  has_effect (eq l) Q (random_batches_fill fuel s l batch).
Proof.
  revert batch. induction fuel as [|fuel IH]; intros batch; simpl.
  - apply has_effect_out_of_fuel.
  - effects. apply IH.
Qed.

Lemma has_effect_random_batches Q fuel s w :
  effect (λ _, False) Q w (random_batches fuel s w).2.
Proof.
  apply effect_copy_scope. intros l0. effects.
  apply has_effect_random_batches_fill.
Qed.

Lemma has_effect_greedy_scan P Q s ba pool st :
  has_effect P Q (greedy_scan s ba pool st).
Proof.
  revert st. induction pool as [|o pool IH]; intros st; simpl.
  - apply has_effect_ret.
  - effects. apply IH.
Qed.

Lemma has_effect_greedy_batches_fill Q fuel s l batch ba :
  has_effect (eq l) Q (greedy_batches_fill fuel s l batch ba).
Proof.
  revert batch ba. induction fuel as [|fuel IH]; intros batch ba; simpl.
  - apply has_effect_out_of_fuel.
  - effects; [apply has_effect_greedy_scan | apply IH].
Qed.

Lemma has_effect_greedy_batches Q fuel s w :
  effect (λ _, False) Q w (greedy_batches fuel s w).2.
Proof.
  apply effect_copy_scope. intros l0. effects.
  apply has_effect_greedy_batches_fill.
Qed.

Lemma has_effect_check_num_aisles P Q s batches :
  has_effect P Q (check_num_aisles s batches).
Proof. unfold check_num_aisles. effects. Qed.

Section EngineEffects.
Context (gurobi : Engine).

(** [MIP_single_batch] writes to no list and logs its own request. *)
Lemma effect_MIP_single_batch P s l n seed w :
  effect P (eq (mkReq (heap w l) n seed)) w
         (MIP_single_batch gurobi s l n seed w).2.
Proof.
  unfold MIP_single_batch. erewrite bind_val; [|reflexivity].
  apply effect_bind; [by apply has_effect_log_call|].
  intros _ w1 _. apply has_effect_at.
  effects.
Qed.

(** One round of the seeded strategy. *)
Lemma effect_seeded_round s l batches w :
  effect (eq l) greedy_request w
    ((do n <- py_len l ;
      do seed <- py_head l ;
      do batch <- MIP_single_batch gurobi s l (14 `min` n) (Some seed) ;
      let batches := batches ++ [batch] in
      run for_each batch (λ o _, py_remove l o) () ;
      ret batches) w).2.
Proof.
  erewrite bind_val; [|apply py_len_eq].
  apply effect_bind; [apply has_effect_py_head|].
  intros seed w1 Hseed. rewrite py_head_eq in Hseed.
  destruct (heap w l) as [|o pool] eqn:Hpool; simplify_eq.
  apply effect_bind.
  - eapply effect_mono; [| |apply effect_MIP_single_batch]; [done|].
    intros r <-. rewrite Hpool. by split; simpl; [|intros ? [= ->]].
  - intros batch w2 _. apply has_effect_at. effects.
Qed.

(** One round of the unseeded strategy. *)
Lemma effect_unseeded_round s l batches w :
  effect (eq l) greedy_request w
    ((do n <- py_len l ;
      do batch <- MIP_single_batch gurobi s l (14 `min` n) None ;
      let batches := batches ++ [batch] in
      run for_each batch (λ o _, py_remove l o) () ;
      ret batches) w).2.
Proof.
  erewrite bind_val; [|apply py_len_eq].
  apply effect_bind.
  - eapply effect_mono; [| |apply effect_MIP_single_batch]; [done|].
    intros r <-. by split; simpl.
  - intros batch w2 _. apply has_effect_at. effects.
Qed.

Lemma has_effect_greedy_optimal_single_batching_with_seed s w :
  effect (λ _, False) greedy_request w
    (greedy_optimal_single_batching_with_seed gurobi s w).2.
Proof.
  apply effect_copy_scope. intros l0.
  apply has_effect_bind; [effects|]. intros _.
  apply has_effect_for_range. intros b batches w1.
  apply effect_seeded_round.
Qed.

Lemma has_effect_greedy_optimal_single_batching s w :
  effect (λ _, False) greedy_request w
    (greedy_optimal_single_batching gurobi s w).2.
Proof.
  apply effect_copy_scope. intros l0.
  apply has_effect_for_range. intros b batches w1.
  apply effect_unseeded_round.
Qed.

Lemma has_effect_MIP s initial_solution :
  has_effect (λ _, False) greedy_request (MIP gurobi s initial_solution).
Proof.
  unfold MIP, MIP_model, MIP_start, start_values. effects.
  intros w. apply has_effect_greedy_optimal_single_batching.
Qed.
End EngineEffects.

(** * The solver object is read-only for the strategies *)

Lemma effect_fields Q w w' s :
  effect (λ _, False) Q w w' → allocated w s → fields w' s = fields w s.
Proof.
  intros (_ & Hh & _) [Hids Hao]. unfold fields.
  rewrite (Hh (order_ids s)) by tauto.
  do 3 f_equal. apply map_eq. intros a. rewrite !lookup_fmap.
  destruct (aisles_orders s !! a) as [l|] eqn:E; [|done]. simpl.
  f_equal. apply Hh; [|tauto]. by apply (Hao a l).
Qed.

(** C7: no strategy mutates the construction-time state of a solver
    object.  Whatever solver [self] a strategy is called on, and whatever
    the engine answers, the fields [order_ids], [order_aisles],
    [aisles_orders], [K] and [B] of every solver object [obj] that exists
    in the world (in particular [self] and the module-level [solver])
    read the same after the call as before, also when the call ends
    with an exception. *)
Theorem strategies_do_not_mutate_solver (gurobi : Engine) (fuel : nat)
    (self obj : Solver) (initial_solution : bool) (w : world) :
  allocated w obj →
  fields (random_batches fuel self w).2 obj = fields w obj ∧
  fields (greedy_batches fuel self w).2 obj = fields w obj ∧
  fields (greedy_optimal_single_batching gurobi self w).2 obj
    = fields w obj ∧
  fields (greedy_optimal_single_batching_with_seed gurobi self w).2 obj
    = fields w obj ∧
  fields (MIP gurobi self initial_solution w).2 obj = fields w obj.
Proof.
  intros Hobj. repeat split.
  - eapply effect_fields; [apply (has_effect_random_batches (λ _, False))|done].
  - eapply effect_fields; [apply (has_effect_greedy_batches (λ _, False))|done].
  - eapply effect_fields;
      [apply has_effect_greedy_optimal_single_batching|done].
  - eapply effect_fields;
      [apply has_effect_greedy_optimal_single_batching_with_seed|done].
  - eapply effect_fields; [apply has_effect_MIP|done].
Qed.

Lemma strategies_do_not_mutate_solver_witness :
  allocated scenario_world scenario_solver ∧
  fields (random_batches 4 scenario_solver scenario_world).2 scenario_solver
    = fields scenario_world scenario_solver.
Proof.
  assert (H : allocated scenario_world scenario_solver).
  { split; [vm_compute; lia|]. apply map_Forall_to_list. vm_compute.
    repeat constructor. }
  split; [exact H|].
  exact (proj1 (strategies_do_not_mutate_solver first_fit 4 scenario_solver
                  scenario_solver false scenario_world H)).
Defined.

(** * The requests made to the single-batch solver *)

(** C8: neither exact-single-batch greedy strategy constructs an
    infeasible request.  Every call to [MIP_single_batch] that
    [greedy_optimal_single_batching] or
    [greedy_optimal_single_batching_with_seed] makes asks for a batch no
    larger than the pool it passes, and a seed it passes is a member of
    that pool with a requested size of at least one. *)
Theorem greedy_requests_are_feasible (gurobi : Engine) (s : Solver)
    (w : world) :
  (∃ new, calls (greedy_optimal_single_batching gurobi s w).2
            = new ++ calls w ∧ Forall feasible_request new) ∧
  (∃ new, calls (greedy_optimal_single_batching_with_seed gurobi s w).2
            = new ++ calls w ∧ Forall feasible_request new).
Proof.
  split.
  - destruct (has_effect_greedy_optimal_single_batching gurobi s w)
      as (_ & _ & new & Hc & Hnew).
    exists new. split; [done|].
    eapply Forall_impl; [exact Hnew|apply greedy_request_feasible].
  - destruct (has_effect_greedy_optimal_single_batching_with_seed gurobi s w)
      as (_ & _ & new & Hc & Hnew).
    exists new. split; [done|].
    eapply Forall_impl; [exact Hnew|apply greedy_request_feasible].
Qed.

(** * The evaluator *)

Lemma collect_aisles s b acc w :
  Forall (λ o, is_Some (order_aisles s !! o)) b →
  ∃ aisles,
    for_each b (λ o aisles,
        do A <- get_order_aisles s o ;
        ret (aisles ++ elements A)) acc w = (Val aisles, w) ∧
    (list_to_set aisles : gset Aisle) = list_to_set acc ∪ batch_aisles_of s b.
Proof.
  intros Hb. revert acc.
  induction Hb as [|o b [A HA] _ IH]; intros acc; simpl.
  - exists acc. split; [done|]. unfold batch_aisles_of. simpl.
    by rewrite (right_id_L ∅ (∪)).
  - unfold get_order_aisles. rewrite HA. simpl.
    destruct (IH (acc ++ elements A)) as (aisles & Hrun & Hset).
    exists aisles. split; [exact Hrun|].
    rewrite Hset, list_to_set_app_L, list_to_set_elements_L.
    unfold batch_aisles_of. simpl. rewrite HA. simpl.
    by rewrite (assoc_L (∪)).
Qed.

Lemma count_aisles s batches acc w :
  known_orders s batches →
  for_each batches (λ b num_aisles,
      do aisles <- for_each b (λ o aisles,
          do A <- get_order_aisles s o ;
          ret (aisles ++ elements A)) [] ;
      ret (num_aisles ++ [size (list_to_set aisles : gset Aisle)])) acc w
  = (Val (acc ++ (size ∘ batch_aisles_of s <$> batches)), w).
Proof.
  intros Hk. revert acc.
  induction Hk as [|b batches Hb _ IH]; intros acc; simpl.
  - by rewrite app_nil_r.
  - destruct (collect_aisles s b [] w Hb) as (aisles & Hrun & Hset).
    erewrite bind_val; [|by erewrite bind_val; [|exact Hrun]].
    rewrite IH, <- app_assoc. simpl. do 4 f_equal.
    rewrite Hset. simpl. by rewrite (left_id_L ∅ (∪)).
Qed.

(** C5: applied to a batching whose order ids are orders of the solver,
    [check_num_aisles] returns the sum over the batches of the
    cardinality of the union of the aisle sets of the batch's member
    orders.  It prints the per-batch counts and changes nothing else. *)
Theorem check_num_aisles_sum_of_unions (s : Solver)
    (batches : list (list Order)) (w : world) :
  known_orders s batches →
  check_num_aisles s batches w =
    (Val (total_aisle_visits s batches),
     mkWorld (heap w) (next w) (rng w) (global_solver w) (calls w)
             (stdout w ++ [size ∘ batch_aisles_of s <$> batches])).
Proof.
  intros Hk. unfold check_num_aisles.
  erewrite bind_val; [|by apply count_aisles]. reflexivity.
Qed.

Lemma check_num_aisles_sum_of_unions_witness :
  known_orders scenario_solver [["o1"; "o2"]; ["o3"]] ∧
  (check_num_aisles scenario_solver [["o1"; "o2"]; ["o3"]] scenario_world).1
    = Val (total_aisle_visits scenario_solver [["o1"; "o2"]; ["o3"]]) ∧
  total_aisle_visits scenario_solver [["o1"; "o2"]; ["o3"]] = 3.
Proof.
  assert (H : known_orders scenario_solver [["o1"; "o2"]; ["o3"]]).
  { unfold known_orders. apply (bool_decide_unpack _). by vm_compute. }
  split; [exact H|]. split.
  - by rewrite (check_num_aisles_sum_of_unions _ _ scenario_world H).
  - by vm_compute.
Defined.

(** * The incidence model *)

Lemma dict_get_is_Some {V} (d : list (Order * V)) o :
  o ∈ d.*1 ↔ is_Some (dict_get d o).
Proof.
  induction d as [|[k v] d IH]; simpl.
  - split; [by intros ?%elem_of_nil | by intros [? ?]].
  - rewrite elem_of_cons. case_decide as Hk.
    + split; [by eexists | by left].
    + rewrite <- IH. split; [by intros [?|?] | by right].
Qed.

Lemma init_order_aisles (ol : Orderlist) ids acc w :
  (∀ o, o ∈ ids → is_Some (dict_get ol o)) →
  for_each ids (λ o (oa : gmap Order (gset Aisle)),
      do items <- of_option KeyError (dict_get ol o) ;
      ret (<[o := list_to_set (aisle <$> items)]> oa)) acc w
  = (Val (foldl (λ oa o,
            <[o := aisle_fields (default [] (dict_get ol o))]> oa) acc ids),
     w).
Proof.
  revert acc. induction ids as [|o ids IH]; intros acc Hids; [done|].
  destruct (Hids o) as [items Hitems]; [left|].
  cbn [for_each foldl].
  erewrite bind_val; [|by unfold bind; rewrite Hitems].
  rewrite IH by (intros; apply Hids; by right).
  by rewrite Hitems.
Qed.

Lemma lookup_foldl_insert {V} (f : Order → V) ids (acc : gmap Order V) o :
  foldl (λ m k, <[k := f k]> m) acc ids !! o =
    if decide (o ∈ ids) then Some (f o) else acc !! o.
Proof.
  revert acc. induction ids as [|k ids IH]; intros acc; cbn [foldl].
  - rewrite decide_False; [done|apply not_elem_of_nil].
  - rewrite IH. destruct (decide (o ∈ ids)) as [Hin|Hnin].
    + rewrite decide_True; [done|by right].
    + destruct (decide (k = o)) as [->|Hne].
      * rewrite lookup_insert_eq, decide_True; [done|left].
      * rewrite lookup_insert_ne by done.
        rewrite decide_False; [done|]. by intros [->|?]%elem_of_cons.
Qed.

Lemma init_orders_of_aisle (oa : gmap Order (gset Aisle)) a ids acc w :
  (∀ o, o ∈ ids → is_Some (oa !! o)) →
  for_each ids (λ o orders,
      do A <- of_option KeyError (oa !! o) ;
      ret (if decide (a ∈ A) then orders ++ [o] else orders)) acc w
  = (Val (acc ++ filter (λ o, a ∈ default ∅ (oa !! o)) ids), w).
Proof.
  revert acc. induction ids as [|o ids IH]; intros acc Hids.
  - simpl. by rewrite app_nil_r.
  - destruct (Hids o) as [A HA]; [left|].
    cbn [for_each].
    erewrite bind_val; [|by unfold bind; rewrite HA].
    rewrite IH by (intros; apply Hids; by right).
    rewrite filter_cons, HA. simpl.
    destruct (decide (a ∈ A)); [by rewrite <- app_assoc|done].
Qed.

Lemma init_aisles_orders (oa : gmap Order (gset Aisle)) ids all ao w :
  (∀ o, o ∈ ids → is_Some (oa !! o)) →
  ∃ ao' w',
    for_each all (λ a (ao : gmap Aisle loc),
        do orders <- for_each ids (λ o orders,
            do A <- of_option KeyError (oa !! o) ;
            ret (if decide (a ∈ A) then orders ++ [o] else orders)) [] ;
        do l <- alloc orders ;
        ret (<[a := l]> ao)) ao w = (Val ao', w') ∧
    next w ≤ next w' ∧
    (∀ l, l < next w → heap w' l = heap w l) ∧
    calls w' = calls w ∧ global_solver w' = global_solver w ∧
    (∀ a, a ∈ all → ∃ l, ao' !! a = Some l ∧ next w ≤ l < next w' ∧
       heap w' l = filter (λ o, a ∈ default ∅ (oa !! o)) ids) ∧
    (∀ a, a ∉ all → ao' !! a = ao !! a).
Proof.
  intros Hids. revert ao w.
  induction all as [|a all IH]; intros ao w.
  - exists ao, w. repeat split; try done. by intros a ?%elem_of_nil.
  - cbn [for_each].
    erewrite bind_val;
      [|by erewrite bind_val; [|by apply init_orders_of_aisle]].
    set (w1 := set_heap (<[next w := _]> (heap w)) (S (next w)) w).
    destruct (IH (<[a := next w]> ao) w1)
      as (ao' & w' & Hrun & Hn & Hh & Hc & Hg & Hin & Hout).
    exists ao', w'. subst w1; simpl in *.
    split; [exact Hrun|]. split; [lia|]. split; [|split; [done|split; [done|]]].
    { intros l Hl. rewrite Hh by lia. apply fn_lookup_insert_ne. lia. }
    split.
    + intros a' Ha'. destruct (decide (a' ∈ all)) as [Hall|Hall].
      * destruct (Hin a' Hall) as (l & Hl & Hrange & Hheap).
        exists l. split; [done|]. split; [lia|done].
      * apply elem_of_cons in Ha' as [->|?]; [|done].
        exists (next w). rewrite (Hout a Hall), lookup_insert_eq.
        split; [done|]. split; [lia|].
        rewrite Hh by lia. by rewrite fn_lookup_insert.
    + intros a' Ha'. rewrite not_elem_of_cons in Ha'. destruct Ha' as [Hne Hall].
      rewrite (Hout a' Hall). by rewrite lookup_insert_ne.
Qed.

Lemma elem_of_all_aisles (oa : gmap Order (gset Aisle)) a :
  a ∈ elements (⋃ (map_to_list oa).*2 : gset Aisle) ↔
  ∃ o A, oa !! o = Some A ∧ a ∈ A.
Proof.
  rewrite elem_of_elements, elem_of_union_list. split.
  - intros (A & HA & Ha). apply list_elem_of_fmap in HA as ([o A'] & -> & Hin).
    apply elem_of_map_to_list in Hin. by exists o, A'.
  - intros (o & A & Ho & Ha). exists A. split; [|done].
    apply list_elem_of_fmap. exists (o, A). split; [done|].
    by apply elem_of_map_to_list.
Qed.

(** What [Solver.__init__] builds, for a positive batch size. *)
Lemma Solver_init_spec (ol : Orderlist) (max_batch_size : nat) (w : world) :
  max_batch_size ≠ 0 →
  ∃ s w',
    Solver_init ol max_batch_size w = (Val s, w') ∧
    order_ids s = next w ∧ heap w' (order_ids s) = ol.*1 ∧
    K s = max_batch_size ∧ B s = ceil_div (length ol) max_batch_size ∧
    (∀ o, order_aisles s !! o = aisle_fields <$> dict_get ol o) ∧
    (∀ a, a ∈ aisles s ↔ ∃ o A, order_aisles s !! o = Some A ∧ a ∈ A) ∧
    (∀ a, a ∈ aisles s → ∃ l, aisles_orders s !! a = Some l ∧ l < next w' ∧
       heap w' l = filter (λ o, a ∈ default ∅ (order_aisles s !! o)) ol.*1) ∧
    (∀ a, a ∉ aisles s → aisles_orders s !! a = None) ∧
    next w < next w' ∧ (∀ l, l < next w → heap w' l = heap w l) ∧
    calls w' = calls w ∧ global_solver w' = global_solver w.
Proof.
  intros HK. unfold Solver_init.
  set (ids := ol.*1).
  set (oa := foldl (λ (oa : gmap Order (gset Aisle)) o,
            <[o := aisle_fields (default [] (dict_get ol o))]> oa) ∅ ids).
  assert (Hget : ∀ o, o ∈ ids → is_Some (dict_get ol o)).
  { intros o. apply dict_get_is_Some. }
  assert (Hoa : ∀ o, oa !! o = aisle_fields <$> dict_get ol o).
  { intros o. unfold oa.
    rewrite (lookup_foldl_insert
               (λ o, aisle_fields (default [] (dict_get ol o)))).
    destruct (decide (o ∈ ids)) as [Hin|Hnin].
    - destruct (Hget o Hin) as [items ->]. done.
    - destruct (dict_get ol o) eqn:E; [|done].
      exfalso. apply Hnin. apply dict_get_is_Some. by rewrite E. }
  assert (Hknown : ∀ o, o ∈ ids → is_Some (oa !! o)).
  { intros o Ho. rewrite Hoa. destruct (Hget o Ho) as [items ->]. by eexists. }
  erewrite bind_val; [|apply (bind_val _ _ _ _ _ eq_refl)].
  erewrite bind_val; [|by apply init_order_aisles]. fold oa.
  set (w1 := set_heap (<[next w := ids]> (heap w)) (S (next w)) w).
  destruct (init_aisles_orders oa ids
              (elements (⋃ (map_to_list oa).*2 : gset Aisle)) ∅ w1 Hknown)
    as (ao & w' & Hrun & Hn & Hh & Hc & Hg & Hin & Hout).
  erewrite bind_val; [|exact Hrun].
  apply Nat.eqb_neq in HK. rewrite HK.
  eexists _, w'. split; [reflexivity|]. subst w1. simpl in *.
  split; [done|]. split.
  { rewrite Hh by lia. by rewrite fn_lookup_insert. }
  split; [done|]. split; [f_equal; apply length_fmap|]. split; [done|].
  split; [apply elem_of_all_aisles|]. split.
  { intros a Ha. destruct (Hin a Ha) as (l & Hl & Hrange & Hheap).
    exists l. split; [done|]. split; [lia|done]. }
  split.
  { intros a Ha. rewrite (Hout a Ha). apply lookup_empty. }
  split; [lia|]. split; [|done].
  intros l Hl. rewrite Hh by lia. apply fn_lookup_insert_ne. lia.
Qed.

Lemma Solver_init_allocated (ol : Orderlist) K0 w s w' :
  Solver_init ol K0 w = (Val s, w') → K0 ≠ 0 → allocated w' s.
Proof.
  intros Hrun HK.
  destruct (Solver_init_spec ol K0 w HK)
    as (s' & w'' & Hrun' & Hid & _ & _ & _ & _ & _ & Hin & Hout & Hn & _).
  rewrite Hrun in Hrun'. simplify_eq. split; [lia|].
  intros a l Hl. destruct (decide (a ∈ aisles s')) as [Ha|Ha].
  - destruct (Hin a Ha) as (l' & Hl' & Hlt & _). by simplify_eq.
  - by rewrite (Hout a Ha) in Hl.
Qed.

(** C6: the incidence model built at construction is an inverse pair.
    For every aisle [a] and order id [o], [o] is a member of
    [aisles_orders[a]] exactly when [a] is a member of [order_aisles[o]],
    where [order_aisles[o]] is the set of the aisle fields of the item
    records of order [o]. *)
Theorem incidence_model_inverse (orderlist : Orderlist)
    (max_batch_size : nat) (w : world) :
  max_batch_size ≠ 0 →
  ∃ s w',
    Solver_init orderlist max_batch_size w = (Val s, w') ∧
    (∀ o, order_aisles s !! o = aisle_fields <$> dict_get orderlist o) ∧
    (∀ a o, in_aisles_orders w' s a o ↔ in_order_aisles s o a).
Proof.
  intros HK.
  destruct (Solver_init_spec orderlist max_batch_size w HK)
    as (s & w' & Hrun & _ & _ & _ & _ & Hoa & Hall & Hin & Hout & _).
  exists s, w'. split; [done|]. split; [done|].
  intros a o. unfold in_aisles_orders, in_order_aisles. split.
  - intros (l & Hl & Ho).
    destruct (decide (a ∈ aisles s)) as [Ha|Ha];
      [|by rewrite (Hout a Ha) in Hl].
    destruct (Hin a Ha) as (l' & Hl' & _ & Hheap). simplify_eq.
    rewrite Hheap in Ho. apply list_elem_of_filter in Ho as [Hmem _].
    destruct (order_aisles s !! o) as [A|]; [by exists A|].
    by apply elem_of_empty in Hmem.
  - intros (A & HA & Ha).
    assert (Haisle : a ∈ aisles s) by (apply Hall; by exists o, A).
    destruct (Hin a Haisle) as (l & Hl & _ & Hheap).
    exists l. split; [done|]. rewrite Hheap. apply list_elem_of_filter.
    split; [by rewrite HA|].
    apply dict_get_is_Some. rewrite Hoa in HA.
    by destruct (dict_get orderlist o).
Qed.

Lemma incidence_model_inverse_witness :
  2 ≠ 0 ∧
  ∃ s w',
    Solver_init scenario 2 initial_world = (Val s, w') ∧
    (∀ o, order_aisles s !! o = aisle_fields <$> dict_get scenario o) ∧
    (∀ a o, in_aisles_orders w' s a o ↔ in_order_aisles s o a).
Proof.
  split; [lia|]. apply (incidence_model_inverse scenario 2 initial_world). lia.
Defined.

(** * The overlap-greedy selection *)

Lemma greedy_scan_step s ba o A pool st w :
  order_aisles s !! o = Some A →
  greedy_scan s ba (o :: pool) st w =
    let st' := if lt_inf (new_aisles s ba o) (best_order_num st)
               then mkScan (Some o) A (Some (new_aisles s ba o)) else st in
    if new_aisles s ba o =? 0 then (Val st', w)
    else greedy_scan s ba pool st' w.
Proof.
  intros HA. cbn [greedy_scan]. unfold get_order_aisles.
  erewrite bind_val; [|by rewrite HA].
  unfold new_aisles. rewrite HA. simpl. by destruct (_ =? 0).
Qed.

(** The scan continued from a best order [b] that adds at least one new
    aisle: it ends on [b], which no remaining order beats, or on the
    first remaining order that beats everything before it. *)
Lemma greedy_scan_from s ba pool w :
  Forall (known_order s) pool →
  ∀ b B0, order_aisles s !! b = Some B0 → 0 < new_aisles s ba b →
  ∃ o A,
    greedy_scan s ba pool (mkScan (Some b) B0 (Some (new_aisles s ba b))) w
      = (Val (mkScan (Some o) A (Some (new_aisles s ba o))), w) ∧
    order_aisles s !! o = Some A ∧
    ((o = b ∧ ∀ o', o' ∈ pool → new_aisles s ba b ≤ new_aisles s ba o') ∨
     (new_aisles s ba o < new_aisles s ba b ∧ first_minimal s ba pool o)).
Proof.
  induction 1 as [|o1 pool [A1 HA1] _ IH]; intros b B0 HB0 Hpos.
  - exists b, B0. split; [done|]. split; [done|]. left. split; [done|].
    by intros o' ?%elem_of_nil.
  - rewrite (greedy_scan_step _ _ _ _ _ _ _ HA1). cbn [best_order_num lt_inf].
    cbv zeta.
    destruct (new_aisles s ba o1 <? new_aisles s ba b) eqn:Hlt.
    + apply Nat.ltb_lt in Hlt.
      destruct (new_aisles s ba o1 =? 0) eqn:Hz.
      * exists o1, A1. split; [done|]. split; [done|]. right. split; [done|].
        exists [], pool. split; [done|]. split; [by intros o' ?%elem_of_nil|].
        apply Nat.eqb_eq in Hz. intros; lia.
      * apply Nat.eqb_neq in Hz.
        destruct (IH o1 A1 HA1) as (o & A & Hrun & HA & Hcase); [lia|].
        exists o, A. split; [done|]. split; [done|]. right.
        destruct Hcase as [[-> Hmin]|[Hless (pre & post & -> & Hpre & Hpost)]].
        -- split; [done|]. exists [], pool. split; [done|].
           split; [by intros o' ?%elem_of_nil|done].
        -- split; [lia|]. exists (o1 :: pre), post. split; [done|].
           split; [|done]. intros o' [->|Ho']%elem_of_cons; [done|by apply Hpre].
    + apply Nat.ltb_ge in Hlt.
      assert ((new_aisles s ba o1 =? 0) = false) as -> by (apply Nat.eqb_neq; lia).
      destruct (IH b B0 HB0 Hpos) as (o & A & Hrun & HA & Hcase).
      exists o, A. split; [done|]. split; [done|].
      destruct Hcase as [[-> Hmin]|[Hless (pre & post & -> & Hpre & Hpost)]].
      * left. split; [done|].
        intros o' [->|Ho']%elem_of_cons; [done|by apply Hmin].
      * right. split; [done|]. exists (o1 :: pre), post. split; [done|].
        split; [|done].
        intros o' [->|Ho']%elem_of_cons; [lia|by apply Hpre].
Qed.

(** From the initial state the scan ends on the first minimal order. *)
Lemma greedy_scan_first_minimal s ba pool w :
  pool ≠ [] → Forall (known_order s) pool →
  ∃ o A,
    greedy_scan s ba pool (mkScan None ∅ None) w
      = (Val (mkScan (Some o) A (Some (new_aisles s ba o))), w) ∧
    order_aisles s !! o = Some A ∧ first_minimal s ba pool o.
Proof.
  intros Hne Hk. destruct Hk as [|o1 pool [A1 HA1] Hk]; [done|].
  rewrite (greedy_scan_step _ _ _ _ _ _ _ HA1). cbn [best_order_num lt_inf].
  cbv zeta.
  destruct (new_aisles s ba o1 =? 0) eqn:Hz.
  - exists o1, A1. split; [done|]. split; [done|].
    exists [], pool. split; [done|]. split; [by intros o' ?%elem_of_nil|].
    apply Nat.eqb_eq in Hz. intros; lia.
  - apply Nat.eqb_neq in Hz.
    destruct (greedy_scan_from s ba pool w Hk o1 A1 HA1)
      as (o & A & Hrun & HA & Hcase); [lia|].
    exists o, A. split; [done|]. split; [done|].
    destruct Hcase as [[-> Hmin]|[Hless (pre & post & -> & Hpre & Hpost)]].
    + exists [], pool. split; [done|].
      split; [by intros o' ?%elem_of_nil|done].
    + exists (o1 :: pre), post. split; [done|]. split; [|done].
      intros o' [->|Ho']%elem_of_cons; [done|by apply Hpre].
Qed.

(** An order that adds no new aisle ends the scan: what follows it in
    the pool is not examined. *)
Lemma greedy_scan_stops_at_zero s ba pre o A post st w :
  Forall (λ o', known_order s o' ∧ 0 < new_aisles s ba o') pre →
  order_aisles s !! o = Some A → new_aisles s ba o = 0 →
  (∀ n, best_order_num st = Some n → 0 < n) →
  greedy_scan s ba (pre ++ o :: post) st w
    = (Val (mkScan (Some o) A (Some 0)), w).
Proof.
  intros Hpre HA Hz. revert st.
  induction Hpre as [|o1 pre [[A1 HA1] Hpos] _ IH]; intros st Hst.
  - cbn [app]. rewrite (greedy_scan_step _ _ _ _ _ _ _ HA). rewrite Hz.
    cbv zeta. cbn [Nat.eqb].
    destruct (best_order_num st) as [n|] eqn:En; cbn [lt_inf]; [|done].
    specialize (Hst n eq_refl).
    by assert ((0 <? n) = true) as -> by (apply Nat.ltb_lt; lia).
  - cbn [app]. rewrite (greedy_scan_step _ _ _ _ _ _ _ HA1). cbv zeta.
    assert ((new_aisles s ba o1 =? 0) = false) as -> by (apply Nat.eqb_neq; lia).
    apply IH. intros n. destruct (lt_inf _ _); [|by apply Hst].
    cbn [best_order_num]. by intros [= <-].
Qed.

(** * Lists and arithmetic *)

Lemma list_remove_Some x l l' : list_remove x l = Some l' → l ≡ₚ x :: l'.
Proof.
  revert l'. induction l as [|y l IH]; intros l'; simpl; [done|].
  case_decide as Hxy; [by intros [= <-]; subst|].
  destruct (list_remove x l) as [l0|]; simpl; [|done].
  intros [= <-]. rewrite (IH l0 eq_refl). apply Permutation_swap.
Qed.

Lemma list_remove_elem x l : x ∈ l → is_Some (list_remove x l).
Proof.
  induction l as [|y l IH]; [by intros ?%elem_of_nil|]. simpl.
  intros Hin. case_decide as Hxy; [by eexists|].
  apply elem_of_cons in Hin as [->|Hin]; [done|].
  destruct (IH Hin) as [l' ->]. by eexists.
Qed.

Lemma length_concat_sum {A} (ls : list (list A)) :
  length (concat ls) = sum_list (length <$> ls).
Proof.
  induction ls as [|l ls IH]; [done|].
  simpl. rewrite length_app, IH. done.
Qed.

Lemma ceil_div_bounds n k :
  1 ≤ k → (ceil_div n k - 1) * k < n + (if n =? 0 then 1 else 0) ∧
           n ≤ ceil_div n k * k ∧ (n = 0 → ceil_div n k = 0).
Proof.
  intros Hk. unfold ceil_div.
  pose proof (Nat.div_mod_eq n k) as Hdm.
  pose proof (Nat.mod_upper_bound n k ltac:(lia)) as Hub.
  destruct (n `mod` k =? 0) eqn:Hm.
  - apply Nat.eqb_eq in Hm. destruct (n =? 0) eqn:Hn.
    + apply Nat.eqb_eq in Hn. subst n. rewrite Nat.Div0.div_0_l. simpl. lia.
    + apply Nat.eqb_neq in Hn. split; [nia|]. split; [nia|lia].
  - apply Nat.eqb_neq in Hm. destruct (n =? 0) eqn:Hn.
    + apply Nat.eqb_eq in Hn. subst n. by rewrite Nat.Div0.mod_0_l in Hm.
    + split; [nia|]. split; [nia|]. intros ->. by rewrite Nat.Div0.mod_0_l in Hm.
Qed.

Lemma fits_ceil_div n k : 1 ≤ k → fits k n (ceil_div n k).
Proof.
  intros Hk. destruct (ceil_div_bounds n k Hk) as (Hlo & Hhi & Hz).
  unfold fits. destruct (decide (n = 0)) as [->|Hn].
  - left. by rewrite Hz.
  - right. assert ((n =? 0) = false) as Hn' by by apply Nat.eqb_neq.
    rewrite Hn' in Hlo. split; [|split; [lia|done]].
    destruct (ceil_div n k); [lia|lia].
Qed.

Lemma fits_step K r m :
  1 ≤ K → fits K r (S m) → 0 < r ∧ fits K (r - K `min` r) m.
Proof.
  intros HK [[? _]|(_ & Hlo & Hhi)]; [done|]. simpl in *.
  rewrite Nat.sub_0_r in Hlo. split; [lia|].
  destruct m as [|m].
  - left. split; [done|]. lia.
  - right. simpl in *. split; [lia|]. rewrite Nat.sub_0_r.
    assert (K < r) by nia. rewrite Nat.min_l by lia. split; nia.
Qed.

Lemma batch_sizes_fits K r m :
  1 ≤ K → fits K r m →
  length (batch_sizes K r m) = m ∧
  sum_list (batch_sizes K r m) = r ∧
  (∀ i n, batch_sizes K r m !! i = Some n →
     1 ≤ n ≤ K ∧ (i + 1 < m → n = K)).
Proof.
  intros HK. revert r. induction m as [|m IH]; intros r Hfit.
  - destruct Hfit as [[_ ->]|[? _]]; [|lia]. simpl. split; [done|].
    split; [done|]. by intros i n ?.
  - destruct (fits_step K r m HK Hfit) as [Hr Hfit'].
    destruct (IH _ Hfit') as (Hlen & Hsum & Hall). cbn [batch_sizes].
    split; [simpl; by rewrite Hlen|]. split; [simpl; rewrite Hsum; lia|].
    intros [|i] n Hi; simpl in Hi.
    + injection Hi as <-. split; [lia|]. intros Hm.
      destruct Hfit as [[? _]|(_ & Hlo & _)]; [done|]. simpl in Hlo.
      rewrite Nat.sub_0_r in Hlo. apply Nat.min_l. nia.
    + destruct (Hall i n Hi) as [Hrange Hfull]. split; [done|].
      intros ?. apply Hfull. lia.
Qed.

(** * The random baseline *)

Lemma random_choice_elem l w :
  heap w l ≠ [] →
  ∃ o, o ∈ heap w l ∧
    random_choice l w =
      (Val o, mkWorld (heap w) (next w) (λ i, rng w (S i)) (global_solver w)
                      (calls w) (stdout w)).
Proof.
  intros Hne. unfold random_choice, bind, deref.
  destruct (lookup_lt_is_Some_2 (heap w l) (rng w 0 `mod` length (heap w l)))
    as [o Ho].
  { apply Nat.mod_upper_bound. by destruct (heap w l). }
  exists o. rewrite Ho. split; [|done]. by eapply list_elem_of_lookup_2.
Qed.

(** Filling one batch: the loop picks [min(K - len(batch), len(pool))]
    orders and takes them out of the pool. *)
Lemma random_batches_fill_spec fuel s l batch w :
  length (heap w l) < fuel →
  ∃ picked w',
    random_batches_fill fuel s l batch w = (Val (batch ++ picked), w') ∧
    picked ++ heap w' l ≡ₚ heap w l ∧
    length picked = (K s - length batch) `min` length (heap w l).
Proof.
  revert batch w. induction fuel as [|fuel IH]; intros batch w Hfuel; [lia|].
  cbn [random_batches_fill]. erewrite bind_val; [|apply py_len_eq].
  destruct (length batch <? K s `min` (length batch + length (heap w l)))
    eqn:Hcond.
  - apply Nat.ltb_lt in Hcond.
    destruct (random_choice_elem l w) as (o & Ho & Hrun).
    { intros Hnil. rewrite Hnil in Hcond. simpl in Hcond. lia. }
    erewrite bind_val; [|exact Hrun]. cbv zeta.
    destruct (list_remove_elem o _ Ho) as [v' Hv'].
    pose proof (list_remove_Some _ _ _ Hv') as Hperm.
    erewrite bind_val; [|by rewrite py_remove_eq; cbn [heap]; rewrite Hv'].
    set (w2 := set_heap _ _ _).
    assert (Hw2 : heap w2 l = v') by apply fn_lookup_insert.
    assert (Hlen : length (heap w l) = S (length v')) by by rewrite Hperm.
    destruct (IH (batch ++ [o]) w2) as (picked & w' & Hfill & Hp & Hl).
    { rewrite Hw2. lia. }
    exists (o :: picked), w'. split; [by rewrite Hfill, <- app_assoc|].
    rewrite Hw2 in Hp, Hl. split.
    + rewrite Hperm. simpl. by rewrite Hp.
    + simpl. rewrite Hl, length_app. simpl. lia.
  - apply Nat.ltb_ge in Hcond. exists [], w.
    split; [by rewrite app_nil_r|]. split; [done|]. simpl. lia.
Qed.

(** The [B] rounds: the batches have the sizes [batch_sizes] gives, and
    together with what is left of the pool they are the pool. *)
Lemma random_batches_rounds fuel s l (iters : list nat) acc w :
  length (heap w l) < fuel →
  ∃ new w',
    for_each iters (λ _ batches,
        do batch <- random_batches_fill fuel s l [] ;
        ret (batches ++ [batch])) acc w = (Val (acc ++ new), w') ∧
    concat new ++ heap w' l ≡ₚ heap w l ∧
    length <$> new = batch_sizes (K s) (length (heap w l)) (length iters).
Proof.
  revert acc w. induction iters as [|i iters IH]; intros acc w Hfuel.
  - exists [], w. by rewrite app_nil_r.
  - cbn [for_each].
    destruct (random_batches_fill_spec fuel s l [] w Hfuel)
      as (picked & w1 & Hfill & Hp & Hl).
    cbn [app] in Hfill.
    erewrite bind_val; [|by erewrite bind_val; [|exact Hfill]].
    simpl in Hl. rewrite Nat.sub_0_r in Hl.
    assert (Hrest : length (heap w1 l) =
                    length (heap w l) - K s `min` length (heap w l)).
    { pose proof (Permutation_length Hp) as Hpl.
      rewrite length_app in Hpl. lia. }
    destruct (IH (acc ++ [picked]) w1) as (new & w' & Hrun & Hp' & Hs).
    { rewrite Hrest. lia. }
    exists (picked :: new), w'. split; [by rewrite Hrun, <- app_assoc|].
    split.
    + simpl. by rewrite <- Hp, <- Hp', app_assoc.
    + rewrite fmap_cons, Hs, Hl, Hrest. done.
Qed.

(** What [random_batches] returns when the batch count is the one
    computed at construction. *)
Lemma random_batches_spec fuel s w :
  1 ≤ K s → B s = ceil_div (length (heap w (order_ids s))) (K s) →
  length (heap w (order_ids s)) < fuel →
  ∃ batches w',
    random_batches fuel s w = (Val batches, w') ∧
    partition_of (heap w (order_ids s)) batches ∧
    length <$> batches
      = batch_sizes (K s) (length (heap w (order_ids s))) (B s).
Proof.
  intros HK HB Hfuel. unfold random_batches.
  erewrite bind_val; [|apply py_copy_eq].
  set (w1 := set_heap _ _ w).
  assert (Hw1 : heap w1 (next w) = heap w (order_ids s))
    by apply fn_lookup_insert.
  destruct (random_batches_rounds fuel s (next w) (seq 0 (B s)) [] w1)
    as (new & w' & Hrun & Hp & Hs).
  { by rewrite Hw1. }
  exists new, w'. split; [exact Hrun|].
  rewrite Hw1, length_seq in Hs. rewrite Hw1 in Hp. split; [|done].
  pose proof (fits_ceil_div (length (heap w (order_ids s))) (K s) HK) as Hfit.
  rewrite <- HB in Hfit.
  destruct (batch_sizes_fits _ _ _ HK Hfit) as (_ & Hsum & _).
  assert (Hlen : length (concat new) = length (heap w (order_ids s))).
  { rewrite length_concat_sum, Hs. exact Hsum. }
  assert (heap w' (next w) = []) as Hnil.
  { apply length_zero_iff_nil. apply Permutation_length in Hp.
    rewrite length_app in Hp. lia. }
  unfold partition_of. by rewrite <- Hp, Hnil, app_nil_r.
Qed.

(** C10: in [random_batches], whatever the random choices, every batch
    except possibly the last has exactly [K] orders and no batch is
    empty, the batch count being [B = ceil(|orders|/K)].  (The call
    returns with enough fuel for one pass over the pool.) *)
Theorem random_batches_full_but_last (fuel : nat) (s : Solver) (w : world) :
  1 ≤ K s → B s = ceil_div (length (heap w (order_ids s))) (K s) →
  length (heap w (order_ids s)) < fuel →
  ∃ batches w',
    random_batches fuel s w = (Val batches, w') ∧
    length batches = B s ∧
    ∀ i b, batches !! i = Some b →
      b ≠ [] ∧ (i + 1 < B s → length b = K s).
Proof.
  intros HK HB Hfuel.
  destruct (random_batches_spec fuel s w HK HB Hfuel)
    as (batches & w' & Hrun & _ & Hsizes).
  pose proof (fits_ceil_div (length (heap w (order_ids s))) (K s) HK) as Hfit.
  rewrite <- HB in Hfit.
  destruct (batch_sizes_fits _ _ _ HK Hfit) as (Hlen & _ & Hall).
  exists batches, w'. split; [done|]. split.
  - by rewrite <- (length_fmap length), Hsizes.
  - intros i b Hb.
    destruct (Hall i (length b)) as [Hrange Hfull].
    { by rewrite <- Hsizes, list_lookup_fmap, Hb. }
    split; [|done]. intros ->. simpl in Hrange. lia.
Qed.

Lemma random_batches_full_but_last_witness :
  ∃ batches w',
    random_batches 4 scenario_solver scenario_world = (Val batches, w') ∧
    length batches = B scenario_solver ∧
    ∀ i b, batches !! i = Some b →
      b ≠ [] ∧ (i + 1 < B scenario_solver → length b = K scenario_solver).
Proof.
  apply (random_batches_full_but_last 4 scenario_solver scenario_world).
  - vm_compute. lia.
  - by vm_compute.
  - vm_compute. lia.
Defined.

(** * The overlap-greedy strategy *)

Lemma insert_desc_perm p l : insert_desc p l ≡ₚ p :: l.
Proof.
  induction l as [|q l IH]; simpl; [done|].
  destruct (q.1 <=? p.1); [done|]. rewrite IH. apply Permutation_swap.
Qed.

Lemma sort_desc_perm l : sort_desc l ≡ₚ l.
Proof.
  induction l as [|p l IH]; simpl; [done|].
  by rewrite insert_desc_perm, IH.
Qed.

Lemma sort_keys s v acc w :
  Forall (known_order s) v →
  for_each v (λ o acc, do k <- num_aisles s o ; ret (acc ++ [(k, o)])) acc w
  = (Val (acc ++ ((λ o, (size (default ∅ (order_aisles s !! o)), o)) <$> v)),
     w).
Proof.
  intros Hv. revert acc.
  induction Hv as [|o v [A HA] _ IH]; intros acc.
  - simpl. by rewrite app_nil_r.
  - cbn [for_each].
    erewrite bind_val;
      [|by unfold num_aisles, get_order_aisles, bind; rewrite HA].
    rewrite IH, fmap_cons, HA, <- app_assoc. done.
Qed.

Lemma py_sort_desc_spec s l w :
  Forall (known_order s) (heap w l) →
  ∃ v', heap w l ≡ₚ v' ∧
    py_sort_desc l (num_aisles s) w
      = (Val (), set_heap (<[l := v']> (heap w)) (next w) w).
Proof.
  intros Hk. unfold py_sort_desc.
  eexists. split; [|erewrite bind_val; [|reflexivity];
                    erewrite bind_val; [|by apply sort_keys]; reflexivity].
  rewrite sort_desc_perm. cbn [app].
  rewrite <- list_fmap_compose. by rewrite list_fmap_id.
Qed.

(** Filling one batch: each round appends the order the scan selects
    and takes it out of the pool. *)
Lemma greedy_batches_fill_spec fuel s l batch ba w :
  Forall (known_order s) (heap w l) →
  length (heap w l) < fuel →
  ∃ picked w',
    greedy_batches_fill fuel s l batch ba w = (Val (batch ++ picked), w') ∧
    picked ++ heap w' l ≡ₚ heap w l ∧
    length picked = (K s - length batch) `min` length (heap w l).
Proof.
  revert batch ba w.
  induction fuel as [|fuel IH]; intros batch ba w Hk Hfuel; [lia|].
  cbn [greedy_batches_fill]. erewrite bind_val; [|apply py_len_eq].
  destruct (length batch <? K s `min` (length batch + length (heap w l)))
    eqn:Hcond.
  - apply Nat.ltb_lt in Hcond.
    erewrite bind_val; [|reflexivity].
    destruct (greedy_scan_first_minimal s ba (heap w l) w)
      as (o & A & Hscan & HA & pre & post & Hpool & _); [|done|].
    { intros Hnil. rewrite Hnil in Hcond. simpl in Hcond. lia. }
    erewrite bind_val; [|exact Hscan]. cbn [best_order best_order_aisles].
    cbv zeta.
    assert (Ho : o ∈ heap w l).
    { rewrite Hpool. apply elem_of_app. right. left. }
    destruct (list_remove_elem o _ Ho) as [v' Hv'].
    pose proof (list_remove_Some _ _ _ Hv') as Hperm.
    erewrite bind_val; [|by rewrite py_remove_eq, Hv'].
    set (w2 := set_heap _ _ _).
    assert (Hw2 : heap w2 l = v') by apply fn_lookup_insert.
    assert (Hlen : length (heap w l) = S (length v')) by by rewrite Hperm.
    destruct (IH (batch ++ [o]) (ba ∪ A) w2) as (picked & w' & Hfill & Hp & Hl).
    { rewrite Hw2. rewrite Hperm in Hk. by apply Forall_cons in Hk as [_ ?]. }
    { rewrite Hw2. lia. }
    exists (o :: picked), w'. split; [by rewrite Hfill, <- app_assoc|].
    rewrite Hw2 in Hp, Hl. split.
    + rewrite Hperm. simpl. by rewrite Hp.
    + simpl. rewrite Hl, length_app. simpl. lia.
  - apply Nat.ltb_ge in Hcond. exists [], w.
    split; [by rewrite app_nil_r|]. split; [done|]. simpl. lia.
Qed.

Lemma greedy_batches_rounds fuel s l (iters : list nat) acc w :
  1 ≤ K s → fits (K s) (length (heap w l)) (length iters) →
  Forall (known_order s) (heap w l) →
  length (heap w l) < fuel →
  ∃ new w',
    for_each iters (λ _ batches,
        let batch := [] in
        do o0 <- py_head l ;
        do batch_aisles <- get_order_aisles s o0 ;
        do o0 <- py_head l ;
        let batch := batch ++ [o0] in
        do o0 <- py_head l ;
        do batch <- of_option ValueError (list_remove o0 batch) ;
        do batch <- greedy_batches_fill fuel s l batch batch_aisles ;
        ret (batches ++ [batch])) acc w = (Val (acc ++ new), w') ∧
    concat new ++ heap w' l ≡ₚ heap w l ∧
    length <$> new = batch_sizes (K s) (length (heap w l)) (length iters).
Proof.
  intros HK. cbv zeta. revert acc w.
  induction iters as [|i iters IH]; intros acc w Hfit Hk Hfuel.
  - exists [], w. by rewrite app_nil_r.
  - cbn [for_each].
    destruct (fits_step _ _ _ HK Hfit) as [Hpos Hfit'].
    destruct (heap w l) as [|o0 rest] eqn:Hpool; [simpl in Hpos; lia|].
    assert (Hhead : py_head l w = (Val o0, w)) by by rewrite py_head_eq, Hpool.
    pose proof Hk as Hk0. apply Forall_cons in Hk0 as [[A0 HA0] _].
    rewrite <- Hpool in *.
    destruct (greedy_batches_fill_spec fuel s l [] A0 w Hk Hfuel)
      as (picked & w1 & Hfill & Hp & Hl).
    cbn [app] in Hfill.
    erewrite bind_val.
    2:{ erewrite bind_val; [|exact Hhead].
        erewrite bind_val; [|by unfold get_order_aisles; rewrite HA0].
        erewrite bind_val; [|exact Hhead].
        erewrite bind_val; [|exact Hhead].
        erewrite bind_val; [|by cbn; rewrite decide_True].
        erewrite bind_val; [|exact Hfill]. reflexivity. }
    simpl in Hl. rewrite Nat.sub_0_r in Hl.
    assert (Hrest : length (heap w1 l) =
                    length (heap w l) - K s `min` length (heap w l)).
    { pose proof (Permutation_length Hp) as Hpl.
      rewrite length_app in Hpl. lia. }
    destruct (IH (acc ++ [picked]) w1) as (new & w' & Hrun & Hp' & Hs).
    { by rewrite Hrest. }
    { rewrite <- Hp in Hk. by apply Forall_app in Hk as [_ ?]. }
    { rewrite Hrest. lia. }
    exists (picked :: new), w'. split; [by rewrite Hrun, <- app_assoc|].
    split.
    + simpl. by rewrite <- Hp, <- Hp', app_assoc.
    + rewrite fmap_cons, Hs, Hl, Hrest. done.
Qed.

(** What [greedy_batches] returns when the batch count is the one
    computed at construction and every order has its aisle set. *)
Lemma greedy_batches_spec fuel s w :
  1 ≤ K s → B s = ceil_div (length (heap w (order_ids s))) (K s) →
  Forall (known_order s) (heap w (order_ids s)) →
  length (heap w (order_ids s)) < fuel →
  ∃ batches w',
    greedy_batches fuel s w = (Val batches, w') ∧
    partition_of (heap w (order_ids s)) batches ∧
    length <$> batches
      = batch_sizes (K s) (length (heap w (order_ids s))) (B s).
Proof.
  intros HK HB Hk Hfuel. unfold greedy_batches.
  erewrite bind_val; [|apply py_copy_eq].
  set (w1 := set_heap _ _ w).
  assert (Hw1 : heap w1 (next w) = heap w (order_ids s))
    by apply fn_lookup_insert.
  destruct (py_sort_desc_spec s (next w) w1) as (v' & Hperm & Hsort).
  { by rewrite Hw1. }
  erewrite bind_val; [|exact Hsort].
  set (w2 := set_heap _ _ w1).
  assert (Hw2 : heap w2 (next w) = v') by apply fn_lookup_insert.
  rewrite Hw1 in Hperm.
  pose proof (fits_ceil_div (length (heap w (order_ids s))) (K s) HK) as Hfit.
  rewrite <- HB in Hfit.
  destruct (greedy_batches_rounds fuel s (next w) (seq 0 (B s)) [] w2 HK)
    as (new & w' & Hrun & Hp & Hs).
  { by rewrite Hw2, length_seq, <- Hperm. }
  { by rewrite Hw2, <- Hperm. }
  { by rewrite Hw2, <- Hperm. }
  exists new, w'. split; [exact Hrun|].
  rewrite Hw2, length_seq, <- Hperm in Hs. rewrite Hw2, <- Hperm in Hp.
  split; [|done].
  destruct (batch_sizes_fits _ _ _ HK Hfit) as (_ & Hsum & _).
  assert (Hlen : length (concat new) = length (heap w (order_ids s))).
  { rewrite length_concat_sum, Hs. exact Hsum. }
  assert (heap w' (next w) = []) as Hnil.
  { apply length_zero_iff_nil. apply Permutation_length in Hp.
    rewrite length_app in Hp. lia. }
  unfold partition_of. by rewrite <- Hp, Hnil, app_nil_r.
Qed.

(** * The exact-single-batch strategies and the constant 14 *)

Lemma first_fit_sound : engine_sound first_fit.
Proof.
  intros m x. cbn [optimize_single first_fit]. unfold first_fit_single.
  unfold sb_feasible. destruct (sb_seed m) as [seed|];
    (destruct (_ && _) eqn:Hok; [|done]); intros [= <-];
    apply andb_true_iff in Hok as [Hlen Hseed]; apply Nat.eqb_eq in Hlen;
    (split; [exact Hlen|]).
  - by intros o [= <-].
  - by intros o [=].
Qed.

Lemma bind_inv_val {A C} (m : M A) (k : A → M C) w c w' :
  bind m k w = (Val c, w') →
  ∃ a w1, m w = (Val a, w1) ∧ k a w1 = (Val c, w').
Proof.
  unfold bind. destruct (m w) as [[a| |] w1]; [|done..].
  intros Hk. by exists a, w1.
Qed.

(** Reading the solution back: the selected orders of the pool, in pool
    order; without a solution only an empty pool goes through. *)
Lemma read_solution (sol : option (Order → bool)) pool acc w r w' :
  for_each pool (λ o batch,
      match sol with
      | None => raise GurobiError
      | Some x => ret (if x o then batch ++ [o] else batch)
      end) acc w = (Val r, w') →
  match sol with
  | Some x => r = acc ++ filter (λ o, x o) pool
  | None => pool = [] ∧ r = acc
  end.
Proof.
  destruct sol as [x|].
  - revert acc. induction pool as [|o pool IH]; intros acc; cbn [for_each].
    + intros [= <- _]. by rewrite app_nil_r.
    + intros (acc' & w1 & [= <- <-] & Hrest)%bind_inv_val.
      rewrite (IH _ Hrest), filter_cons.
      destruct (x o); simpl; [by rewrite <- app_assoc|done].
  - destruct pool as [|o pool]; cbn [for_each].
    + by intros [= <- _].
    + by intros (acc' & w1 & [=] & _)%bind_inv_val.
Qed.

Section SoundEngine.
Context (gurobi : Engine) (Hsound : engine_sound gurobi).

(** Under the engine contract a batch that [MIP_single_batch] returns
    has the requested size, for every size an unexhausted pool admits. *)
Lemma MIP_single_batch_size s l n seed w batch w' :
  MIP_single_batch gurobi s l n seed w = (Val batch, w') →
  length batch = n ∨ (heap w l = [] ∧ batch = []).
Proof.
  unfold MIP_single_batch.
  intros (pool & w1 & [= <- <-] & H)%bind_inv_val.
  apply bind_inv_val in H as (_ & w2 & _ & H).
  apply bind_inv_val in H as (_ & w3 & _ & H).
  apply bind_inv_val in H as (_ & w4 & _ & H).
  apply bind_inv_val in H as (link & w5 & _ & H).
  apply read_solution in H.
  destruct (optimize_single gurobi _) as [x|] eqn:Hopt.
  - left. subst batch. destruct (Hsound _ _ Hopt) as [Hlen _]. exact Hlen.
  - right. by destruct H.
Qed.

Lemma unseeded_round_value s l batches w r w' :
  (do n <- py_len l ;
   do batch <- MIP_single_batch gurobi s l (14 `min` n) None ;
   let batches := batches ++ [batch] in
   run for_each batch (λ o _, py_remove l o) () ;
   ret batches) w = (Val r, w') →
  ∃ batch, r = batches ++ [batch] ∧
           length batch = 14 `min` length (heap w l).
Proof.
  intros (n & w1 & [= <- <-] & H)%bind_inv_val.
  apply bind_inv_val in H as (batch & w2 & Hbatch & H).
  apply bind_inv_val in H as (_ & w3 & _ & [= <- _]).
  exists batch. split; [done|].
  apply MIP_single_batch_size in Hbatch as [?|[Hnil ->]]; [done|].
  by rewrite Hnil.
Qed.
End SoundEngine.

Lemma logged_log_call r w : logged r (log_call r) w.
Proof. by exists []. Qed.

(** A request logged by the first part of a computation is still in the
    log after the rest, which only adds to it. *)
Lemma logged_bind {A C} P Q r (m : M A) (k : A → M C) w :
  logged r m w → (∀ a, has_effect P Q (k a)) → logged r (bind m k) w.
Proof.
  intros [later Hm] Hk. unfold logged, bind.
  destruct (m w) as [[a| |] w1]; simpl in *; [|by exists later..].
  destruct (Hk a w1) as (_ & _ & new & Hc & _).
  exists (new ++ later). by rewrite Hc, Hm, app_assoc.
Qed.

Lemma logged_after {A C} r (m : M A) (k : A → M C) w a w1 :
  m w = (Val a, w1) → calls w1 = calls w → logged r (k a) w1 →
  logged r (bind m k) w.
Proof.
  intros Hm Hc [later Hk]. exists later.
  by erewrite bind_val, Hk, Hc.
Qed.

Lemma logged_MIP_single_batch gurobi s l n seed w :
  logged (mkReq (heap w l) n seed) (MIP_single_batch gurobi s l n seed) w.
Proof.
  unfold MIP_single_batch.
  eapply logged_after; [reflexivity|done|].
  eapply (logged_bind (λ _, False) (λ _, True)); [apply logged_log_call|].
  intros _. effects.
Qed.

Lemma logged_unseeded_round gurobi s l batches w :
  logged (mkReq (heap w l) (14 `min` length (heap w l)) None)
    (do n <- py_len l ;
     do batch <- MIP_single_batch gurobi s l (14 `min` n) None ;
     let batches := batches ++ [batch] in
     run for_each batch (λ o _, py_remove l o) () ;
     ret batches) w.
Proof.
  eapply logged_after; [apply py_len_eq|done|].
  eapply (logged_bind (eq l) (λ _, True)); [apply logged_MIP_single_batch|].
  intros batch. effects.
Qed.

(** The first batch of [greedy_optimal_single_batching] has
    [min(14, |orders|)] orders, and the batch count is [B]. *)
Lemma unseeded_rounds_value gurobi s l (iters : list nat) acc w r w' :
  engine_sound gurobi →
  for_each iters (λ b batches,
      do n <- py_len l ;
      do batch <- MIP_single_batch gurobi s l (14 `min` n) None ;
      let batches := batches ++ [batch] in
      run for_each batch (λ o _, py_remove l o) () ;
      ret batches) acc w = (Val r, w') →
  ∃ new, r = acc ++ new ∧ length new = length iters ∧
    ∀ b, head new = Some b → length b = 14 `min` length (heap w l).
Proof.
  intros Hsound. revert acc w.
  induction iters as [|i iters IH]; intros acc w; cbn [for_each].
  - intros [= <- _]. exists []. by rewrite app_nil_r.
  - intros (acc1 & w1 & Hround & Hrest)%bind_inv_val.
    apply unseeded_round_value in Hround as (batch & -> & Hlen); [|done].
    apply IH in Hrest as (new & -> & Hnew & _).
    exists (batch :: new). rewrite <- app_assoc. split; [done|].
    split; [simpl; by rewrite Hnew|]. by intros b [= <-].
Qed.

Lemma greedy_optimal_single_batching_value gurobi s w batches :
  engine_sound gurobi →
  (greedy_optimal_single_batching gurobi s w).1 = Val batches →
  length batches = B s ∧
  ∀ b, head batches = Some b →
       length b = 14 `min` length (heap w (order_ids s)).
Proof.
  intros Hsound Hrun.
  destruct (greedy_optimal_single_batching _ _ _) as [r w'] eqn:E.
  simpl in Hrun. subst r. unfold greedy_optimal_single_batching in E.
  apply bind_inv_val in E as (l0 & w1 & [= <- <-] & E).
  apply unseeded_rounds_value in E as (new & -> & Hlen & Hhead); [|done].
  cbn [heap set_heap] in Hhead. rewrite fn_lookup_insert in Hhead.
  rewrite length_seq in Hlen. done.
Qed.

Lemma logged_greedy_optimal_single_batching gurobi s w n :
  B s = S n →
  logged (mkReq (heap w (order_ids s))
                (14 `min` length (heap w (order_ids s))) None)
         (greedy_optimal_single_batching gurobi s) w.
Proof.
  intros HB. unfold greedy_optimal_single_batching.
  eapply logged_after; [apply py_copy_eq|done|].
  rewrite HB. unfold for_range. cbn [seq for_each].
  eapply (logged_bind (eq (next w)) greedy_request).
  - pose proof (logged_unseeded_round gurobi s (next w) []
                  (set_heap (<[next w := heap w (order_ids s)]> (heap w))
                            (S (next w)) w)) as Hlog.
    cbn [heap set_heap] in Hlog. rewrite fn_lookup_insert in Hlog.
    exact Hlog.
  - intros acc. apply has_effect_for_each. intros i acc' w1.
    apply effect_unseeded_round.
Qed.

(** C1, at a failing input.  Fifteen orders and [K = 15]: under the
    engine contract, whatever batching [greedy_optimal_single_batching]
    returns holds 14 of the 15 orders, so it is not a partition of the
    order ids.  The single request asks for [min(14, 15)] orders where
    the batch count [B = 1] was computed from [K = 15]. *)
Theorem greedy_optimal_single_batching_drops_an_order (gurobi : Engine)
    (batches : list (list Order)) :
  engine_sound gurobi →
  (greedy_optimal_single_batching gurobi crowded_solver crowded_world).1
    = Val batches →
  length (heap crowded_world (order_ids crowded_solver)) = 15 ∧
  length (concat batches) = 14 ∧
  ¬ partition_of (heap crowded_world (order_ids crowded_solver)) batches.
Proof.
  intros Hsound Hrun.
  assert (Hids : length (heap crowded_world (order_ids crowded_solver)) = 15)
    by by vm_compute.
  assert (HB : B crowded_solver = 1) by by vm_compute.
  destruct (greedy_optimal_single_batching_value _ _ _ _ Hsound Hrun)
    as [Hlen Hhead].
  rewrite HB in Hlen. rewrite Hids in Hhead.
  destruct batches as [|b [|? ?]]; [done| |done].
  assert (Hcat : length (concat [b]) = 14).
  { simpl. rewrite app_nil_r. by apply Hhead. }
  split; [done|]. split; [done|].
  intros Hp%Permutation_length. rewrite Hcat, Hids in Hp. lia.
Qed.

Lemma greedy_optimal_single_batching_drops_an_order_witness :
  ∃ batches,
    (greedy_optimal_single_batching first_fit crowded_solver
       crowded_world).1 = Val batches ∧
    ¬ partition_of (heap crowded_world (order_ids crowded_solver)) batches.
Proof.
  exists [["o01"; "o02"; "o03"; "o04"; "o05"; "o06"; "o07"; "o08"; "o09";
           "o10"; "o11"; "o12"; "o13"; "o14"]].
  assert (H : (greedy_optimal_single_batching first_fit crowded_solver
                 crowded_world).1
              = Val [["o01"; "o02"; "o03"; "o04"; "o05"; "o06"; "o07"; "o08";
                      "o09"; "o10"; "o11"; "o12"; "o13"; "o14"]])
    by (vm_compute; reflexivity).
  split; [exact H|].
  exact (proj2 (proj2 (greedy_optimal_single_batching_drops_an_order
                         first_fit _ first_fit_sound H))).
Defined.

(** C2, at a failing input.  The scenario's three orders with [K = 2]:
    under the engine contract, whatever batching
    [greedy_optimal_single_batching] returns has a first batch of three
    orders, more than [K].  The request asks for [min(14, 3)] orders
    instead of [min(K, 3)]. *)
Theorem greedy_optimal_single_batching_overfills (gurobi : Engine)
    (batches : list (list Order)) :
  engine_sound gurobi →
  (greedy_optimal_single_batching gurobi scenario_solver scenario_world).1
    = Val batches →
  K scenario_solver = 2 ∧
  ∃ b, batches !! 0 = Some b ∧ length b = 3.
Proof.
  intros Hsound Hrun.
  assert (Hids : length (heap scenario_world (order_ids scenario_solver)) = 3)
    by by vm_compute.
  assert (HB : B scenario_solver = 2) by by vm_compute.
  split; [by vm_compute|].
  destruct (greedy_optimal_single_batching_value _ _ _ _ Hsound Hrun)
    as [Hlen Hhead].
  rewrite HB in Hlen. rewrite Hids in Hhead.
  destruct batches as [|b rest]; [done|].
  exists b. split; [done|]. by apply Hhead.
Qed.

Lemma greedy_optimal_single_batching_overfills_witness :
  ∃ batches,
    (greedy_optimal_single_batching first_fit scenario_solver
       scenario_world).1 = Val batches ∧
    ∃ b, batches !! 0 = Some b ∧ length b = 3.
Proof.
  exists [["o1"; "o2"; "o3"]; []].
  assert (H : (greedy_optimal_single_batching first_fit scenario_solver
                 scenario_world).1 = Val [["o1"; "o2"; "o3"]; []])
    by (vm_compute; reflexivity).
  split; [exact H|].
  exact (proj2 (greedy_optimal_single_batching_overfills
                  first_fit _ first_fit_sound H)).
Defined.

(** C3, at a failing input.  The scenario's three orders with [K = 2]:
    whatever the engine answers, the first request of
    [greedy_optimal_single_batching] asks for a batch of 3 orders, the
    whole pool, where [min(K, |pool|)] is 2.  (Every request of the two
    strategies asks for [min(14, |pool|)], see [greedy_request].) *)
Theorem greedy_optimal_single_batching_requests_14 (gurobi : Engine) :
  K scenario_solver `min` 3 = 2 ∧
  ∃ later,
    calls (greedy_optimal_single_batching gurobi scenario_solver
             scenario_world).2
    = later ++ [mkReq ["o1"; "o2"; "o3"] 3 None].
Proof.
  split; [by vm_compute|].
  assert (Hpool : heap scenario_world (order_ids scenario_solver)
                  = ["o1"; "o2"; "o3"]) by by vm_compute.
  assert (HB : B scenario_solver = 2) by by vm_compute.
  assert (Hcalls : calls scenario_world = []) by by vm_compute.
  destruct (logged_greedy_optimal_single_batching gurobi scenario_solver
              scenario_world 1 HB) as [later Hl].
  exists later. rewrite Hl, Hcalls, Hpool. done.
Qed.

(** The seeded variant on the same input: after the first batch has taken
    the whole pool, the second round reads [order_ids[0]] of an empty
    list. *)
Example seeded_variant_exhausts_pool :
  (greedy_optimal_single_batching_with_seed first_fit scenario_solver
     scenario_world).1 = Exn IndexError.
Proof. by vm_compute. Qed.

(** * The strategies that use [K]

    [random_batches] and [greedy_batches] fill each batch to
    [min(self.K, remaining)]: what they return is a partition of the
    order ids into [B] batches of at most [K] orders. *)

Lemma batch_sizes_capacity (K0 n : nat) (batches : list (list Order)) :
  1 ≤ K0 → length <$> batches = batch_sizes K0 n (ceil_div n K0) →
  length batches = ceil_div n K0 ∧ Forall (λ b, length b ≤ K0) batches.
Proof.
  intros HK Hs.
  destruct (batch_sizes_fits _ _ _ HK (fits_ceil_div n K0 HK))
    as (Hlen & _ & Hall).
  split; [by rewrite <- (length_fmap length), Hs|].
  apply Forall_lookup. intros i b Hb.
  destruct (Hall i (length b)) as [? _]; [|lia].
  by rewrite <- Hs, list_lookup_fmap, Hb.
Qed.

Lemma baselines_partition_within_capacity (fuel : nat) (s : Solver)
    (w : world) :
  1 ≤ K s → B s = ceil_div (length (heap w (order_ids s))) (K s) →
  Forall (known_order s) (heap w (order_ids s)) →
  length (heap w (order_ids s)) < fuel →
  (∃ batches, (random_batches fuel s w).1 = Val batches ∧
     partition_of (heap w (order_ids s)) batches ∧
     length batches = B s ∧ Forall (λ b, length b ≤ K s) batches) ∧
  (∃ batches, (greedy_batches fuel s w).1 = Val batches ∧
     partition_of (heap w (order_ids s)) batches ∧
     length batches = B s ∧ Forall (λ b, length b ≤ K s) batches).
Proof.
  intros HK HB Hk Hfuel. split.
  - destruct (random_batches_spec fuel s w HK HB Hfuel)
      as (batches & w' & Hrun & Hp & Hs).
    exists batches. rewrite Hrun. split; [done|]. split; [done|].
    rewrite HB in Hs |- *. by apply batch_sizes_capacity.
  - destruct (greedy_batches_spec fuel s w HK HB Hk Hfuel)
      as (batches & w' & Hrun & Hp & Hs).
    exists batches. rewrite Hrun. split; [done|]. split; [done|].
    rewrite HB in Hs |- *. by apply batch_sizes_capacity.
Qed.


(** * Further properties of the strategies that use [K] *)

(** [random_batches] returns a partition of the order ids into [B]
    batches of at most [K] orders, whatever the random choices. *)
Theorem random_batches_partition (fuel : nat) (s : Solver) (w : world) :
  1 ≤ K s → B s = ceil_div (length (heap w (order_ids s))) (K s) →
  length (heap w (order_ids s)) < fuel →
  ∃ batches,
    (random_batches fuel s w).1 = Val batches ∧
    partition_of (heap w (order_ids s)) batches ∧
    length batches = B s ∧ Forall (λ b, length b ≤ K s) batches.
Proof.
  intros HK HB Hfuel.
  destruct (random_batches_spec fuel s w HK HB Hfuel)
    as (batches & w' & Hrun & Hp & Hs).
  exists batches. rewrite Hrun. split; [done|]. split; [done|].
  rewrite HB in Hs |- *. by apply batch_sizes_capacity.
Qed.

Lemma random_batches_partition_witness :
  ∃ batches,
    (random_batches 4 scenario_solver scenario_world).1 = Val batches ∧
    partition_of (heap scenario_world (order_ids scenario_solver)) batches ∧
    length batches = B scenario_solver ∧
    Forall (λ b, length b ≤ K scenario_solver) batches.
Proof.
  apply (random_batches_partition 4 scenario_solver scenario_world).
  - vm_compute. lia.
  - by vm_compute.
  - vm_compute. lia.
Defined.

(** [greedy_batches] returns a partition of the order ids into [B]
    batches of at most [K] orders, when every order id has its aisle
    set. *)
Theorem greedy_batches_partition (fuel : nat) (s : Solver) (w : world) :
  1 ≤ K s → B s = ceil_div (length (heap w (order_ids s))) (K s) →
  Forall (known_order s) (heap w (order_ids s)) →
  length (heap w (order_ids s)) < fuel →
  ∃ batches,
    (greedy_batches fuel s w).1 = Val batches ∧
    partition_of (heap w (order_ids s)) batches ∧
    length batches = B s ∧ Forall (λ b, length b ≤ K s) batches.
Proof.
  intros HK HB Hk Hfuel.
  destruct (greedy_batches_spec fuel s w HK HB Hk Hfuel)
    as (batches & w' & Hrun & Hp & Hs).
  exists batches. rewrite Hrun. split; [done|]. split; [done|].
  rewrite HB in Hs |- *. by apply batch_sizes_capacity.
Qed.

Lemma greedy_batches_partition_witness :
  ∃ batches,
    (greedy_batches 4 scenario_solver scenario_world).1 = Val batches ∧
    partition_of (heap scenario_world (order_ids scenario_solver)) batches ∧
    length batches = B scenario_solver ∧
    Forall (λ b, length b ≤ K scenario_solver) batches.
Proof.
  apply (greedy_batches_partition 4 scenario_solver scenario_world).
  - vm_compute. lia.
  - by vm_compute.
  - unfold known_order. apply (bool_decide_unpack _). by vm_compute.
  - vm_compute. lia.
Defined.

(** * Further properties of the evaluator *)

Lemma check_num_aisles_value s batches w :
  known_orders s batches →
  (check_num_aisles s batches w).1 = Val (total_aisle_visits s batches).
Proof.
  intros Hk. unfold check_num_aisles.
  erewrite bind_val; [|by apply count_aisles]. reflexivity.
Qed.

Lemma batch_aisles_of_app s b1 b2 :
  batch_aisles_of s (b1 ++ b2) = batch_aisles_of s b1 ∪ batch_aisles_of s b2.
Proof. unfold batch_aisles_of. by rewrite fmap_app, union_list_app_L. Qed.

Lemma batch_aisles_of_perm s b b' :
  b ≡ₚ b' → batch_aisles_of s b = batch_aisles_of s b'.
Proof.
  induction 1 as [|o b b' _ IH|o1 o2 b|b1 b2 b3 _ IH1 _ IH2].
  - done.
  - unfold batch_aisles_of in *. rewrite !fmap_cons, !union_list_cons.
    by rewrite IH.
  - unfold batch_aisles_of. rewrite !fmap_cons, !union_list_cons.
    rewrite !(assoc_L (∪)). f_equal. apply (comm_L (∪)).
  - by rewrite IH1.
Qed.

Lemma total_aisle_visits_perm s bs bs' :
  bs ≡ₚ bs' ∨ Forall2 (≡ₚ) bs bs' →
  total_aisle_visits s bs = total_aisle_visits s bs'.
Proof.
  unfold total_aisle_visits. intros [Hp|H2].
  - by rewrite Hp.
  - induction H2 as [|b b' bs bs' Hb _ IH]; [done|].
    rewrite !fmap_cons. simpl. rewrite IH. f_equal.
    by rewrite (batch_aisles_of_perm s b b' Hb).
Qed.

Lemma known_orders_perm s bs bs' :
  bs ≡ₚ bs' ∨ Forall2 (≡ₚ) bs bs' →
  known_orders s bs → known_orders s bs'.
Proof.
  unfold known_orders. intros [Hp|H2] Hk.
  - by rewrite <- Hp.
  - induction H2 as [|b b' bs bs' Hb _ IH]; [done|].
    apply Forall_cons in Hk as [Hkb Hk]. constructor; [|by apply IH].
    by rewrite <- Hb.
Qed.

(** The evaluator does not depend on the order of the batches, nor on
    the order of the order ids inside a batch. *)
Theorem check_num_aisles_order_insensitive (s : Solver)
    (batches batches' : list (list Order)) (w : world) :
  known_orders s batches →
  batches ≡ₚ batches' ∨ Forall2 (≡ₚ) batches batches' →
  ∃ total,
    (check_num_aisles s batches w).1 = Val total ∧
    (check_num_aisles s batches' w).1 = Val total.
Proof.
  intros Hk Hp. exists (total_aisle_visits s batches).
  split; [by apply check_num_aisles_value|].
  rewrite (total_aisle_visits_perm s _ _ Hp).
  apply check_num_aisles_value. by eapply known_orders_perm.
Qed.

Lemma check_num_aisles_order_insensitive_witness :
  ∃ total,
    (check_num_aisles scenario_solver [["o1"; "o2"]; ["o3"]]
       scenario_world).1 = Val total ∧
    (check_num_aisles scenario_solver [["o3"]; ["o1"; "o2"]]
       scenario_world).1 = Val total.
Proof.
  apply check_num_aisles_order_insensitive.
  - unfold known_orders. apply (bool_decide_unpack _). by vm_compute.
  - left. apply Permutation_swap.
Defined.

(** Putting two batches together never increases the count, and the
    merged batch counts at least as much as either part. *)
Theorem check_num_aisles_merge (s : Solver) (b1 b2 : list Order)
    (rest : list (list Order)) (w : world) :
  known_orders s (b1 :: b2 :: rest) →
  ∃ merged apart alone,
    (check_num_aisles s ((b1 ++ b2) :: rest) w).1 = Val merged ∧
    (check_num_aisles s (b1 :: b2 :: rest) w).1 = Val apart ∧
    (check_num_aisles s (b1 :: rest) w).1 = Val alone ∧
    alone ≤ merged ≤ apart.
Proof.
  intros Hk. pose proof Hk as Hk'.
  apply Forall_cons in Hk' as [Hk1 Hk']. apply Forall_cons in Hk' as [Hk2 Hkr].
  exists (total_aisle_visits s ((b1 ++ b2) :: rest)),
         (total_aisle_visits s (b1 :: b2 :: rest)),
         (total_aisle_visits s (b1 :: rest)).
  split.
  { apply check_num_aisles_value. constructor; [|done]. by apply Forall_app. }
  split; [by apply check_num_aisles_value|].
  split; [apply check_num_aisles_value; by constructor|].
  unfold total_aisle_visits. rewrite !fmap_cons. simpl.
  rewrite batch_aisles_of_app, size_union_alt.
  pose proof (subseteq_size (batch_aisles_of s b2 ∖ batch_aisles_of s b1)
                (batch_aisles_of s b2)) as Hle.
  assert (batch_aisles_of s b2 ∖ batch_aisles_of s b1 ⊆ batch_aisles_of s b2)
    as Hsub by (by intros a [? _]%elem_of_difference).
  specialize (Hle Hsub). lia.
Qed.

Lemma check_num_aisles_merge_witness :
  ∃ merged apart alone,
    (check_num_aisles scenario_solver [["o1"] ++ ["o2"]; ["o3"]]
       scenario_world).1 = Val merged ∧
    (check_num_aisles scenario_solver [["o1"]; ["o2"]; ["o3"]]
       scenario_world).1 = Val apart ∧
    (check_num_aisles scenario_solver [["o1"]; ["o3"]]
       scenario_world).1 = Val alone ∧
    alone ≤ merged ≤ apart.
Proof.
  apply check_num_aisles_merge.
  unfold known_orders. apply (bool_decide_unpack _). by vm_compute.
Defined.


(** Where every order of every batch touches the one aisle [a] and no
    batch is empty, the count is the number of batches. *)
Theorem check_num_aisles_single_aisle (s : Solver) (a : Aisle)
    (batches : list (list Order)) (w : world) :
  Forall (λ b, b ≠ [] ∧ Forall (λ o, order_aisles s !! o = Some {[a]}) b)
         batches →
  (check_num_aisles s batches w).1 = Val (length batches).
Proof.
  intros Hb.
  assert (Hk : known_orders s batches).
  { eapply Forall_impl; [exact Hb|]. intros b [_ Hb'].
    eapply Forall_impl; [exact Hb'|]. intros o ->. by eexists. }
  rewrite check_num_aisles_value by done. f_equal.
  unfold total_aisle_visits. clear Hk.
  induction Hb as [|b batches [Hne Hb] _ IH]; [done|].
  rewrite fmap_cons. simpl. rewrite IH.
  assert (batch_aisles_of s b = {[a]}) as ->;
    [|by rewrite size_singleton].
  destruct Hb as [|o b Ho Hb]; [done|]. clear Hne.
  unfold batch_aisles_of. rewrite fmap_cons, union_list_cons, Ho. simpl.
  induction Hb as [|o' b Ho' _ IHb].
  - simpl. apply (right_id_L ∅ (∪)).
  - rewrite fmap_cons, union_list_cons, Ho'. simpl.
    rewrite (assoc_L (∪)), (idemp_L (∪)). exact IHb.
Qed.

Lemma check_num_aisles_single_aisle_witness :
  (check_num_aisles other_solver [["p1"]; ["p1"; "p1"]] two_solvers_world).1
    = Val 2.
Proof.
  apply (check_num_aisles_single_aisle other_solver "a1").
  repeat constructor; by vm_compute.
Defined.

Lemma collect_aisles_unknown s b acc w :
  ¬ Forall (λ o, is_Some (order_aisles s !! o)) b →
  for_each b (λ o aisles,
      do A <- get_order_aisles s o ;
      ret (aisles ++ elements A)) acc w = (Exn KeyError, w).
Proof.
  revert acc. induction b as [|o b IH]; intros acc Hb; [by destruct Hb|].
  cbn [for_each]. unfold get_order_aisles.
  destruct (order_aisles s !! o) as [A|] eqn:HA; [|done].
  erewrite bind_val; [|reflexivity]. apply IH.
  intros Hall. apply Hb. constructor; [by eexists|done].
Qed.

Lemma count_aisles_unknown s batches acc w :
  ¬ known_orders s batches →
  for_each batches (λ b num_aisles,
      do aisles <- for_each b (λ o aisles,
          do A <- get_order_aisles s o ;
          ret (aisles ++ elements A)) [] ;
      ret (num_aisles ++ [size (list_to_set aisles : gset Aisle)])) acc w
  = (Exn KeyError, w).
Proof.
  revert acc. induction batches as [|b batches IH]; intros acc Hk.
  - destruct Hk. constructor.
  - cbn [for_each].
    destruct (decide (Forall (λ o, is_Some (order_aisles s !! o)) b))
      as [Hb|Hb].
    + destruct (collect_aisles s b [] w Hb) as (aisles & Hrun & _).
      erewrite bind_val; [|by erewrite bind_val; [|exact Hrun]].
      apply IH. intros Hall. apply Hk. by constructor.
    + erewrite bind_exn; [done|].
      erewrite bind_exn; [done|]. by apply collect_aisles_unknown.
Qed.

(** An order id that is not an order of the solver makes the evaluator
    raise [KeyError]; nothing is printed. *)
Theorem check_num_aisles_unknown_order (s : Solver)
    (batches : list (list Order)) (b : list Order) (o : Order) (w : world) :
  b ∈ batches → o ∈ b → order_aisles s !! o = None →
  check_num_aisles s batches w = (Exn KeyError, w).
Proof.
  intros Hb Ho Hnone. unfold check_num_aisles.
  erewrite bind_exn; [done|]. apply count_aisles_unknown.
  intros Hk. eapply Forall_forall in Hk; [|exact Hb].
  eapply Forall_forall in Hk; [|exact Ho].
  rewrite Hnone in Hk. by destruct Hk.
Qed.

Lemma check_num_aisles_unknown_order_witness :
  check_num_aisles scenario_solver [["o1"]; ["o2"; "o9"]] scenario_world
  = (Exn KeyError, scenario_world).
Proof.
  apply (check_num_aisles_unknown_order _ _ ["o2"; "o9"] "o9").
  - right. left.
  - right. left.
  - by vm_compute.
Defined.


(** * Further properties of the construction *)

Lemma has_effect_Solver_init P Q (ol : Orderlist) K0 :
  has_effect P Q (Solver_init ol K0).
Proof. unfold Solver_init. effects. Qed.

(** The run of [Solver.__init__] up to the division: the object [s] it
    is about to return, with its lists in fresh locations. *)
Lemma Solver_init_run (ol : Orderlist) (max_batch_size : nat) (w : world) :
  ∃ s w',
    Solver_init ol max_batch_size w
      = (if max_batch_size =? 0 then Exn ZeroDivisionError else Val s, w') ∧
    order_ids s = next w ∧ heap w' (order_ids s) = ol.*1 ∧
    K s = max_batch_size ∧ B s = ceil_div (length ol) max_batch_size ∧
    (∀ o, order_aisles s !! o = aisle_fields <$> dict_get ol o) ∧
    NoDup (aisles s) ∧
    (∀ a, a ∈ aisles s ↔ ∃ o A, order_aisles s !! o = Some A ∧ a ∈ A) ∧
    (∀ a, a ∈ aisles s → ∃ l, aisles_orders s !! a = Some l ∧
       next w < l < next w' ∧
       heap w' l = filter (λ o, a ∈ default ∅ (order_aisles s !! o)) ol.*1) ∧
    (∀ a, a ∉ aisles s → aisles_orders s !! a = None) ∧
    next w < next w'.
Proof.
  unfold Solver_init.
  set (ids := ol.*1).
  set (oa := foldl (λ (oa : gmap Order (gset Aisle)) o,
            <[o := aisle_fields (default [] (dict_get ol o))]> oa) ∅ ids).
  assert (Hget : ∀ o, o ∈ ids → is_Some (dict_get ol o)).
  { intros o. apply dict_get_is_Some. }
  assert (Hoa : ∀ o, oa !! o = aisle_fields <$> dict_get ol o).
  { intros o. unfold oa.
    rewrite (lookup_foldl_insert
               (λ o, aisle_fields (default [] (dict_get ol o)))).
    destruct (decide (o ∈ ids)) as [Hin|Hnin].
    - destruct (Hget o Hin) as [items ->]. done.
    - destruct (dict_get ol o) eqn:E; [|done].
      exfalso. apply Hnin. apply dict_get_is_Some. by rewrite E. }
  assert (Hknown : ∀ o, o ∈ ids → is_Some (oa !! o)).
  { intros o Ho. rewrite Hoa. destruct (Hget o Ho) as [items ->]. by eexists. }
  erewrite bind_val; [|apply (bind_val _ _ _ _ _ eq_refl)].
  erewrite bind_val; [|by apply init_order_aisles]. fold oa.
  set (w1 := set_heap (<[next w := ids]> (heap w)) (S (next w)) w).
  destruct (init_aisles_orders oa ids
              (elements (⋃ (map_to_list oa).*2 : gset Aisle)) ∅ w1 Hknown)
    as (ao & w' & Hrun & Hn & Hh & Hc & Hg & Hin & Hout).
  erewrite bind_val; [|exact Hrun].
  exists (mkSolver (next w) oa (elements (⋃ (map_to_list oa).*2 : gset Aisle))
                   ao max_batch_size (ceil_div (length ids) max_batch_size)),
         w'.
  split; [by destruct (max_batch_size =? 0)|]. subst w1. simpl in *.
  split; [done|]. split.
  { rewrite Hh by lia. by rewrite fn_lookup_insert. }
  split; [done|]. split; [f_equal; apply length_fmap|]. split; [done|].
  split; [apply NoDup_elements|].
  split; [apply elem_of_all_aisles|]. split.
  { intros a Ha. destruct (Hin a Ha) as (l & Hl & Hrange & Hheap).
    exists l. split; [done|]. split; [lia|done]. }
  split; [|lia].
  intros a Ha. rewrite (Hout a Ha). apply lookup_empty.
Qed.

(** A batch size of zero: the index is built, then the division raises
    [ZeroDivisionError]; no list that existed is changed. *)
Theorem Solver_init_zero_batch_size (ol : Orderlist) (w : world) :
  (Solver_init ol 0 w).1 = Exn ZeroDivisionError ∧
  ∀ l, l < next w → heap (Solver_init ol 0 w).2 l = heap w l.
Proof.
  split.
  - destruct (Solver_init_run ol 0 w) as (s & w' & -> & _). done.
  - destruct (has_effect_Solver_init (λ _, False) (λ _, False) ol 0 w)
      as (_ & Hh & _).
    intros l Hl. apply Hh; [done|tauto].
Qed.

(** The batch count computed at construction is the least number of
    batches of [K] orders that hold all the orders. *)
Theorem Solver_init_batch_count (ol : Orderlist) (max_batch_size : nat)
    (w : world) :
  1 ≤ max_batch_size →
  ∃ s, (Solver_init ol max_batch_size w).1 = Val s ∧
    K s = max_batch_size ∧
    length ol ≤ B s * K s ∧
    (∀ m, length ol ≤ m * K s → B s ≤ m).
Proof.
  intros HK.
  destruct (Solver_init_run ol max_batch_size w)
    as (s & w' & Hrun & _ & _ & HKs & HB & _).
  exists s. rewrite Hrun.
  assert ((max_batch_size =? 0) = false) as -> by (apply Nat.eqb_neq; lia).
  split; [done|]. split; [done|]. rewrite HKs, HB.
  destruct (ceil_div_bounds (length ol) max_batch_size HK) as (Hlo & Hhi & Hz).
  split; [done|]. intros m Hm.
  destruct (length ol =? 0) eqn:Hn.
  - apply Nat.eqb_eq in Hn. rewrite (Hz Hn). lia.
  - nia.
Qed.

Lemma Solver_init_batch_count_witness :
  ∃ s, (Solver_init scenario 2 initial_world).1 = Val s ∧
    K s = 2 ∧ length scenario ≤ B s * K s ∧
    (∀ m, length scenario ≤ m * K s → B s ≤ m).
Proof. apply Solver_init_batch_count. lia. Defined.

(** The inverse index: its keys are [self.aisles], a list without
    duplicates; the list of an aisle is never empty and holds the orders
    that touch the aisle in the order of [order_ids]. *)
Theorem Solver_init_aisles_orders (ol : Orderlist) (max_batch_size : nat)
    (w : world) :
  max_batch_size ≠ 0 →
  ∃ s w',
    Solver_init ol max_batch_size w = (Val s, w') ∧
    heap w' (order_ids s) = ol.*1 ∧
    NoDup (aisles s) ∧
    (∀ a, is_Some (aisles_orders s !! a) ↔ a ∈ aisles s) ∧
    (∀ a l, aisles_orders s !! a = Some l →
       heap w' l ≠ [] ∧
       heap w' l = filter (λ o, a ∈ default ∅ (order_aisles s !! o)) ol.*1).
Proof.
  intros HK.
  destruct (Solver_init_run ol max_batch_size w)
    as (s & w' & Hrun & _ & Hids & _ & _ & Hoa & Hnd & Hall & Hin & Hout & _).
  apply Nat.eqb_neq in HK. rewrite HK in Hrun.
  exists s, w'. split; [done|]. split; [done|]. split; [done|]. split.
  - intros a. split.
    + intros [l Hl]. destruct (decide (a ∈ aisles s)) as [|Ha]; [done|].
      by rewrite (Hout a Ha) in Hl.
    + intros Ha. destruct (Hin a Ha) as (l & -> & _). by eexists.
  - intros a l Hl.
    destruct (decide (a ∈ aisles s)) as [Ha|Ha];
      [|by rewrite (Hout a Ha) in Hl].
    destruct (Hin a Ha) as (l' & Hl' & _ & Hheap). simplify_eq.
    split; [|done]. rewrite Hheap.
    apply Hall in Ha as (o & A & HA & HaA).
    assert (o ∈ filter (λ o, a ∈ default ∅ (order_aisles s !! o)) ol.*1)
      as Hmem.
    { apply list_elem_of_filter. split; [by rewrite HA|].
      apply dict_get_is_Some. rewrite Hoa in HA.
      by destruct (dict_get ol o). }
    intros Hnil. rewrite Hnil in Hmem. by apply elem_of_nil in Hmem.
Qed.

Lemma Solver_init_aisles_orders_witness :
  ∃ s w',
    Solver_init scenario 2 initial_world = (Val s, w') ∧
    heap w' (order_ids s) = scenario.*1 ∧
    NoDup (aisles s) ∧
    (∀ a, is_Some (aisles_orders s !! a) ↔ a ∈ aisles s) ∧
    (∀ a l, aisles_orders s !! a = Some l →
       heap w' l ≠ [] ∧
       heap w' l
         = filter (λ o, a ∈ default ∅ (order_aisles s !! o)) scenario.*1).
Proof. apply Solver_init_aisles_orders. lia. Defined.

(** Constructing a solver leaves every solver object that exists as it
    is, and the lists of the new object are new: they are above every
    location in use before. *)
Theorem Solver_init_fresh (ol : Orderlist) (max_batch_size : nat)
    (obj : Solver) (w : world) :
  max_batch_size ≠ 0 → allocated w obj →
  ∃ s w',
    Solver_init ol max_batch_size w = (Val s, w') ∧
    fields w' obj = fields w obj ∧ allocated w' obj ∧ allocated w' s ∧
    next w ≤ order_ids s ∧
    map_Forall (λ _ l, next w ≤ l) (aisles_orders s).
Proof.
  intros HK Hobj.
  destruct (Solver_init_run ol max_batch_size w)
    as (s & w' & Hrun & Hid & _ & _ & _ & _ & _ & _ & Hin & Hout & Hn).
  apply Nat.eqb_neq in HK. rewrite HK in Hrun.
  exists s, w'. split; [done|].
  pose proof (has_effect_Solver_init (λ _, False) (λ _, False)
                ol max_batch_size w) as Heff.
  rewrite Hrun in Heff. simpl in Heff.
  split; [by eapply effect_fields|].
  split.
  { destruct Hobj as [Ho Hao]. split; [lia|].
    intros a l Hl. specialize (Hao a l Hl). simpl in Hao. lia. }
  split; [|split; [lia|]].
  - split; [lia|]. intros a l Hl.
    destruct (decide (a ∈ aisles s)) as [Ha|Ha];
      [|by rewrite (Hout a Ha) in Hl].
    destruct (Hin a Ha) as (l' & Hl' & Hrange & _). simplify_eq. simpl. lia.
  - intros a l Hl.
    destruct (decide (a ∈ aisles s)) as [Ha|Ha];
      [|by rewrite (Hout a Ha) in Hl].
    destruct (Hin a Ha) as (l' & Hl' & Hrange & _). simplify_eq. simpl. lia.
Qed.

Lemma Solver_init_fresh_witness :
  ∃ s w',
    Solver_init other_orders 1 scenario_world = (Val s, w') ∧
    fields w' scenario_solver = fields scenario_world scenario_solver ∧
    allocated w' scenario_solver ∧ allocated w' s ∧
    next scenario_world ≤ order_ids s ∧
    map_Forall (λ _ l, next scenario_world ≤ l) (aisles_orders s).
Proof.
  apply Solver_init_fresh; [lia|].
  split; [vm_compute; lia|]. apply map_Forall_to_list. vm_compute.
  repeat constructor.
Defined.


(** * From the order list to a batching *)

Lemma Solver_init_ready (ol : Orderlist) (max_batch_size : nat) (w : world) :
  1 ≤ max_batch_size →
  ∃ s w',
    Solver_init ol max_batch_size w = (Val s, w') ∧
    heap w' (order_ids s) = ol.*1 ∧ K s = max_batch_size ∧
    B s = ceil_div (length (heap w' (order_ids s))) (K s) ∧
    Forall (known_order s) (heap w' (order_ids s)).
Proof.
  intros HK.
  destruct (Solver_init_run ol max_batch_size w)
    as (s & w' & Hrun & _ & Hids & HKs & HB & Hoa & _).
  assert ((max_batch_size =? 0) = false) as Hz by (apply Nat.eqb_neq; lia).
  rewrite Hz in Hrun. exists s, w'. split; [done|]. split; [done|].
  split; [done|]. split; [by rewrite Hids, length_fmap, HKs|].
  rewrite Hids. apply Forall_forall. intros o Ho. unfold known_order.
  rewrite Hoa. apply dict_get_is_Some in Ho as [items ->]. by eexists.
Qed.

(** A solver constructed from an order list with a batch size [K >= 1]:
    [random_batches] returns a partition of the order ids into
    [ceil(n/K)] batches of at most [K] orders, whatever the random
    choices. *)
Theorem constructed_random_batches (ol : Orderlist) (max_batch_size : nat)
    (fuel : nat) (w : world) :
  1 ≤ max_batch_size → length ol < fuel →
  ∃ batches,
    ((do s <- Solver_init ol max_batch_size ; random_batches fuel s) w).1
      = Val batches ∧
    partition_of ol.*1 batches ∧
    length batches = ceil_div (length ol) max_batch_size ∧
    Forall (λ b, length b ≤ max_batch_size) batches.
Proof.
  intros HK Hfuel.
  destruct (Solver_init_ready ol max_batch_size w HK)
    as (s & w' & Hrun & Hids & HKs & HB & _).
  erewrite bind_val; [|exact Hrun].
  destruct (random_batches_spec fuel s w') as (batches & w'' & Hr & Hp & Hs).
  { lia. } { done. } { by rewrite Hids, length_fmap. }
  exists batches. rewrite Hr. split; [done|].
  rewrite Hids in Hp, Hs. rewrite length_fmap in Hs.
  rewrite Hids, length_fmap in HB. rewrite HB, HKs in Hs.
  split; [done|]. by apply batch_sizes_capacity.
Qed.

Lemma constructed_random_batches_witness :
  ∃ batches,
    ((do s <- Solver_init scenario 2 ; random_batches 4 s) initial_world).1
      = Val batches ∧
    partition_of scenario.*1 batches ∧
    length batches = ceil_div (length scenario) 2 ∧
    Forall (λ b, length b ≤ 2) batches.
Proof. apply constructed_random_batches; simpl; lia. Defined.

(** The same for [greedy_batches]. *)
Theorem constructed_greedy_batches (ol : Orderlist) (max_batch_size : nat)
    (fuel : nat) (w : world) :
  1 ≤ max_batch_size → length ol < fuel →
  ∃ batches,
    ((do s <- Solver_init ol max_batch_size ; greedy_batches fuel s) w).1
      = Val batches ∧
    partition_of ol.*1 batches ∧
    length batches = ceil_div (length ol) max_batch_size ∧
    Forall (λ b, length b ≤ max_batch_size) batches.
Proof.
  intros HK Hfuel.
  destruct (Solver_init_ready ol max_batch_size w HK)
    as (s & w' & Hrun & Hids & HKs & HB & Hk).
  erewrite bind_val; [|exact Hrun].
  destruct (greedy_batches_spec fuel s w') as (batches & w'' & Hr & Hp & Hs).
  { lia. } { done. } { done. } { by rewrite Hids, length_fmap. }
  exists batches. rewrite Hr. split; [done|].
  rewrite Hids in Hp, Hs. rewrite length_fmap in Hs.
  rewrite Hids, length_fmap in HB. rewrite HB, HKs in Hs.
  split; [done|]. by apply batch_sizes_capacity.
Qed.

Lemma constructed_greedy_batches_witness :
  ∃ batches,
    ((do s <- Solver_init scenario 2 ; greedy_batches 4 s) initial_world).1
      = Val batches ∧
    partition_of scenario.*1 batches ∧
    length batches = ceil_div (length scenario) 2 ∧
    Forall (λ b, length b ≤ 2) batches.
Proof. apply constructed_greedy_batches; simpl; lia. Defined.


(** * The exact-single-batch strategies with an engine that answers *)

Lemma filter_members_length (chosen pool : list Order) :
  NoDup pool → NoDup chosen → (∀ o, o ∈ chosen → o ∈ pool) →
  length (filter (λ o, bool_decide (o ∈ chosen)) pool) = length chosen.
Proof.
  intros Hpool Hchosen Hsub. apply Permutation_length.
  apply NoDup_Permutation; [by apply NoDup_filter|done|].
  intros o. rewrite list_elem_of_filter, bool_decide_spec.
  split; [by intros [? _]|]. intros Ho. split; [done|by apply Hsub].
Qed.

Lemma filter_ne_length (pool : list Order) o :
  NoDup pool → o ∈ pool →
  S (length (filter (λ o', o' ≠ o) pool)) = length pool.
Proof.
  intros Hnd Ho.
  change (length (o :: filter (λ o', o' ≠ o) pool) = length pool).
  apply Permutation_length. apply NoDup_Permutation; [|done|].
  - constructor; [|by apply NoDup_filter].
    by intros [? _]%list_elem_of_filter.
  - intros o'. rewrite elem_of_cons, list_elem_of_filter.
    destruct (decide (o' = o)) as [->|Hne].
    + split; [done|by left].
    + split; [by intros [?|[_ ?]]|]. intros Ho'. right. done.
Qed.

Lemma NoDup_take_of (l : list Order) n : NoDup l → NoDup (take n l).
Proof. intros Hnd. eapply sublist_NoDup; [exact Hnd|apply sublist_take]. Qed.

Lemma first_fit_complete : engine_complete first_fit.
Proof.
  intros [pool ys seed n link]. cbn [sb_x sb_size sb_seed].
  intros Hnd Hn Hseed. cbn [optimize_single first_fit].
  unfold first_fit_single. cbn [sb_x sb_size sb_seed].
  destruct seed as [o|].
  - destruct (Hseed o eq_refl) as [Ho Hpos].
    pose proof (filter_ne_length pool o Hnd Ho) as Hlen.
    rewrite filter_members_length.
    + cbn [length]. rewrite length_take.
      assert ((S ((n - 1) `min` length (filter (λ o', o' ≠ o) pool)) =? n)
              = true) as -> by (apply Nat.eqb_eq; lia).
      rewrite bool_decide_true by left. by eexists.
    + done.
    + constructor.
      * intros Hin%subseteq_take. by apply list_elem_of_filter in Hin as [? _].
      * apply NoDup_take_of. by apply NoDup_filter.
    + intros o' [->|Ho']%elem_of_cons; [done|].
      apply subseteq_take in Ho'.
      by apply list_elem_of_filter in Ho' as [_ ?].
  - rewrite filter_members_length.
    + rewrite length_take.
      assert ((n `min` length pool =? n) = true) as ->
        by (apply Nat.eqb_eq; lia).
      by eexists.
    + done.
    + by apply NoDup_take_of.
    + intros o'. apply subseteq_take.
Qed.

Lemma batch_sizes_sum k r m :
  sum_list (batch_sizes k r m) = r `min` (m * k) ∧
  length (batch_sizes k r m) = m ∧
  Forall (λ n, n ≤ k) (batch_sizes k r m).
Proof.
  revert r. induction m as [|m IH]; intros r; cbn [batch_sizes].
  - split; [simpl; lia|]. split; [done|constructor].
  - destruct (IH (r - k `min` r)) as (Hsum & Hlen & Hall).
    split; [simpl; rewrite Hsum; lia|]. split; [simpl; by rewrite Hlen|].
    constructor; [lia|done].
Qed.

(** [for o in batch: order_ids.remove(o)] for a batch without duplicates
    taken from the pool. *)
Lemma remove_batch l (batch : list Order) w :
  NoDup batch → (∀ o, o ∈ batch → o ∈ heap w l) →
  ∃ w',
    for_each batch (λ o _, py_remove l o) () w = (Val (), w') ∧
    batch ++ heap w' l ≡ₚ heap w l ∧ calls w' = calls w.
Proof.
  revert w. induction batch as [|o batch IH]; intros w Hnd Hsub.
  - by exists w.
  - apply NoDup_cons in Hnd as [Hno Hnd].
    destruct (list_remove_elem o (heap w l)) as [v' Hv']; [apply Hsub; left|].
    pose proof (list_remove_Some _ _ _ Hv') as Hperm.
    cbn [for_each]. erewrite bind_val; [|by rewrite py_remove_eq, Hv'].
    set (w1 := set_heap _ _ w).
    assert (Hw1 : heap w1 l = v') by apply fn_lookup_insert.
    destruct (IH w1 Hnd) as (w' & Hrun & Hp & Hc).
    { intros o' Ho'. rewrite Hw1.
      assert (o' ∈ o :: v') as [->|?]%elem_of_cons; [|done..].
      rewrite <- Hperm. apply Hsub. by right. }
    exists w'. split; [exact Hrun|]. split; [|done].
    rewrite Hw1 in Hp. simpl. by rewrite Hp, Hperm.
Qed.

Lemma read_solution_some (x : Order → bool) pool acc w :
  for_each pool (λ o batch,
      match Some x with
      | None => raise GurobiError
      | Some x => ret (if x o then batch ++ [o] else batch)
      end) acc w = (Val (acc ++ filter (λ o, x o) pool), w).
Proof.
  revert acc. induction pool as [|o pool IH]; intros acc; cbn [for_each].
  - by rewrite app_nil_r.
  - erewrite bind_val; [|reflexivity]. rewrite IH, filter_cons.
    destruct (x o); simpl; [by rewrite <- app_assoc|done].
Qed.

Lemma get_aisles_orders_eq s a l w :
  aisles_orders s !! a = Some l →
  get_aisles_orders s a w = (Val (heap w l), w).
Proof. intros Hl. unfold get_aisles_orders, bind. by rewrite Hl. Qed.

Lemma build_link s (pool : list Order) (aisles0 : list Aisle) acc w :
  (∀ a, a ∈ aisles0 → is_Some (aisles_orders s !! a)) →
  ∃ link,
    for_each aisles0 (λ a link,
        do os <- get_aisles_orders s a ;
        ret (link ++ (pair a <$> filter (λ o, o ∈ pool) os))) acc w
    = (Val link, w).
Proof.
  revert acc. induction aisles0 as [|a aisles0 IH]; intros acc Hkeys.
  - by exists acc.
  - destruct (Hkeys a) as [l Hl]; [left|]. cbn [for_each].
    erewrite bind_val;
      [|by erewrite bind_val; [|by apply get_aisles_orders_eq]].
    apply IH. intros a' Ha'. apply Hkeys. by right.
Qed.


Section AnsweringEngine.
Context (gurobi : Engine).
Context (Hsound : engine_sound gurobi) (Hcomplete : engine_complete gurobi).

(** A feasible request on a pool without duplicates is answered: the
    batch has the requested size, is taken from the pool without
    duplicates and holds the seed; the pool is not touched. *)
Lemma MIP_single_batch_run s l n seed w :
  index_total s → NoDup (heap w l) → n ≤ length (heap w l) →
  (∀ o, seed = Some o → o ∈ heap w l ∧ 1 ≤ n) →
  ∃ batch w',
    MIP_single_batch gurobi s l n seed w = (Val batch, w') ∧
    heap w' = heap w ∧ next w' = next w ∧
    length batch = n ∧ NoDup batch ∧
    (∀ o, o ∈ batch → o ∈ heap w l) ∧
    (∀ o, seed = Some o → o ∈ batch).
Proof.
  intros Hidx Hnd Hn Hseed. unfold MIP_single_batch.
  erewrite bind_val; [|reflexivity].
  erewrite bind_val; [|reflexivity].
  set (w1 := mkWorld _ _ _ _ _ _). cbv zeta.
  erewrite bind_val; [|by rewrite decide_True].
  erewrite bind_val.
  2:{ destruct seed as [o|]; [|reflexivity].
      destruct (Hseed o eq_refl) as [Ho _]. by rewrite decide_True. }
  match goal with
  | |- context [for_each ?aisles0 _ []] =>
      destruct (build_link s (heap w l) aisles0 [] w1) as [link Hlink]
  end.
  { intros a Ha. apply elem_of_elements, elem_of_union_list in Ha
      as (A & HA & Ha).
    apply list_elem_of_fmap in HA as ([o A'] & -> & Hin).
    apply list_elem_of_filter in Hin as [_ Hin].
    apply elem_of_map_to_list in Hin. by eapply Hidx. }
  erewrite bind_val; [|exact Hlink].
  match goal with
  | |- context [optimize_single gurobi ?m] =>
      destruct (Hcomplete m) as [x Hx]; [done..|];
      destruct (Hsound m x Hx) as [Hlen Hsel]
  end.
  cbn [sb_x sb_size sb_seed] in Hlen, Hsel.
  rewrite Hx, read_solution_some. cbn [app].
  eexists _, w1. split; [reflexivity|]. split; [done|]. split; [done|].
  split; [done|]. split; [by apply NoDup_filter|]. split.
  - by intros o [_ ?]%list_elem_of_filter.
  - intros o ->. apply list_elem_of_filter. split.
    + by rewrite (Hsel o eq_refl).
    + by destruct (Hseed o eq_refl).
Qed.

Lemma unseeded_round_run s l batches w :
  index_total s → NoDup (heap w l) →
  ∃ batch w',
    (do n <- py_len l ;
     do batch <- MIP_single_batch gurobi s l (14 `min` n) None ;
     let batches := batches ++ [batch] in
     run for_each batch (λ o _, py_remove l o) () ;
     ret batches) w = (Val (batches ++ [batch]), w') ∧
    batch ++ heap w' l ≡ₚ heap w l ∧
    length batch = 14 `min` length (heap w l).
Proof.
  intros Hidx Hnd. erewrite bind_val; [|apply py_len_eq].
  destruct (MIP_single_batch_run s l (14 `min` length (heap w l)) None w)
    as (batch & w1 & Hrun & Hheap & _ & Hlen & Hndb & Hsub & _);
    [done|done|lia|done|].
  erewrite bind_val; [|exact Hrun]. cbv zeta.
  destruct (remove_batch l batch w1 Hndb) as (w' & Hrem & Hp & _).
  { by rewrite Hheap. }
  erewrite bind_val; [|exact Hrem].
  exists batch, w'. split; [done|]. by rewrite Hheap in Hp.
Qed.

Lemma unseeded_rounds_run s l (iters : list nat) acc w :
  index_total s → NoDup (heap w l) →
  ∃ new w',
    for_each iters (λ b batches,
        do n <- py_len l ;
        do batch <- MIP_single_batch gurobi s l (14 `min` n) None ;
        let batches := batches ++ [batch] in
        run for_each batch (λ o _, py_remove l o) () ;
        ret batches) acc w = (Val (acc ++ new), w') ∧
    concat new ++ heap w' l ≡ₚ heap w l ∧
    length <$> new = batch_sizes 14 (length (heap w l)) (length iters).
Proof.
  intros Hidx. cbv zeta. revert acc w.
  induction iters as [|i iters IH]; intros acc w Hnd.
  - exists [], w. by rewrite app_nil_r.
  - cbn [for_each].
    destruct (unseeded_round_run s l acc w Hidx Hnd)
      as (batch & w1 & Hround & Hp & Hl).
    erewrite bind_val; [|exact Hround]. cbv beta.
    assert (Hrest : length (heap w1 l) =
                    length (heap w l) - 14 `min` length (heap w l)).
    { pose proof (Permutation_length Hp) as Hpl.
      rewrite length_app in Hpl. lia. }
    destruct (IH (acc ++ [batch]) w1) as (new & w' & Hrun & Hp' & Hs).
    { rewrite <- Hp in Hnd. by apply NoDup_app in Hnd as (_ & _ & ?). }
    exists (batch :: new), w'. split; [by rewrite Hrun, <- app_assoc|].
    split.
    + simpl. by rewrite <- Hp, <- Hp', app_assoc.
    + rewrite fmap_cons, Hs, Hl, Hrest. done.
Qed.

(** With an engine that answers, a batch size of at most 14 and
    distinct order ids, [greedy_optimal_single_batching] returns a
    partition of the order ids into [B] batches of at most 14 orders. *)
Lemma greedy_optimal_single_batching_run s w :
  index_total s → NoDup (heap w (order_ids s)) →
  1 ≤ K s ≤ 14 →
  B s = ceil_div (length (heap w (order_ids s))) (K s) →
  ∃ batches,
    (greedy_optimal_single_batching gurobi s w).1 = Val batches ∧
    partition_of (heap w (order_ids s)) batches ∧
    length batches = B s ∧ Forall (λ b, length b ≤ 14) batches.
Proof.
  intros Hidx Hnd HK HB. unfold greedy_optimal_single_batching.
  erewrite bind_val; [|apply py_copy_eq].
  set (w1 := set_heap _ _ w).
  assert (Hw1 : heap w1 (next w) = heap w (order_ids s))
    by apply fn_lookup_insert.
  destruct (unseeded_rounds_run s (next w) (seq 0 (B s)) [] w1 Hidx)
    as (new & w' & Hrun & Hp & Hs).
  { by rewrite Hw1. }
  exists new. split; [exact (f_equal fst Hrun)|].
  rewrite Hw1, length_seq in Hs. rewrite Hw1 in Hp.
  destruct (batch_sizes_sum 14 (length (heap w (order_ids s))) (B s))
    as (Hsum & Hlen & Hall).
  destruct (ceil_div_bounds (length (heap w (order_ids s))) (K s))
    as (_ & Hhi & _); [lia|]. rewrite <- HB in Hhi.
  assert (heap w' (next w) = []) as Hnil.
  { apply length_zero_iff_nil. apply Permutation_length in Hp.
    rewrite length_app, length_concat_sum, Hs, Hsum in Hp. nia. }
  split; [unfold partition_of; by rewrite <- Hp, Hnil, app_nil_r|].
  split; [by rewrite <- (length_fmap length), Hs|].
  rewrite <- Hs in Hall. by apply Forall_fmap in Hall.
Qed.
End AnsweringEngine.


Lemma Solver_init_ready_index (ol : Orderlist) (max_batch_size : nat)
    (w : world) :
  1 ≤ max_batch_size →
  ∃ s w',
    Solver_init ol max_batch_size w = (Val s, w') ∧
    heap w' (order_ids s) = ol.*1 ∧ K s = max_batch_size ∧
    B s = ceil_div (length (heap w' (order_ids s))) (K s) ∧
    Forall (known_order s) (heap w' (order_ids s)) ∧
    index_total s.
Proof.
  intros HK.
  destruct (Solver_init_run ol max_batch_size w)
    as (s & w' & Hrun & _ & Hids & HKs & HB & Hoa & _ & Hall & Hin & _).
  assert ((max_batch_size =? 0) = false) as Hz by (apply Nat.eqb_neq; lia).
  rewrite Hz in Hrun. exists s, w'. split; [done|]. split; [done|].
  split; [done|]. split; [by rewrite Hids, length_fmap, HKs|]. split.
  - rewrite Hids. apply Forall_forall. intros o Ho. unfold known_order.
    rewrite Hoa. apply dict_get_is_Some in Ho as [items ->]. by eexists.
  - intros o A a HA Ha.
    destruct (Hin a) as (l & -> & _); [|by eexists].
    apply Hall. by exists o, A.
Qed.

(** A solver constructed from an order list with distinct order ids and
    [1 <= K <= 14], with an engine that answers:
    [greedy_optimal_single_batching] returns a partition of the order ids
    into [ceil(n/K)] batches of at most 14 orders. *)
Theorem constructed_greedy_optimal_single_batching (gurobi : Engine)
    (ol : Orderlist) (max_batch_size : nat) (w : world) :
  engine_sound gurobi → engine_complete gurobi →
  NoDup ol.*1 → 1 ≤ max_batch_size ≤ 14 →
  ∃ batches,
    ((do s <- Solver_init ol max_batch_size ;
      greedy_optimal_single_batching gurobi s) w).1 = Val batches ∧
    partition_of ol.*1 batches ∧
    length batches = ceil_div (length ol) max_batch_size ∧
    Forall (λ b, length b ≤ 14) batches.
Proof.
  intros Hsound Hcomplete Hnd HK.
  destruct (Solver_init_ready_index ol max_batch_size w)
    as (s & w' & Hrun & Hids & HKs & HB & _ & Hidx); [lia|].
  erewrite bind_val; [|exact Hrun].
  destruct (greedy_optimal_single_batching_run gurobi Hsound Hcomplete s w')
    as (batches & Hr & Hp & Hlen & Hcap);
    [done|by rewrite Hids|lia|done|].
  exists batches. split; [done|]. rewrite Hids in Hp. split; [done|].
  split; [|done]. by rewrite Hlen, HB, Hids, length_fmap, HKs.
Qed.

Lemma constructed_greedy_optimal_single_batching_witness :
  ∃ batches,
    ((do s <- Solver_init scenario 2 ;
      greedy_optimal_single_batching first_fit s) initial_world).1
      = Val batches ∧
    partition_of scenario.*1 batches ∧
    length batches = ceil_div (length scenario) 2 ∧
    Forall (λ b, length b ≤ 14) batches.
Proof.
  apply constructed_greedy_optimal_single_batching.
  - apply first_fit_sound.
  - apply first_fit_complete.
  - apply (bool_decide_unpack _). by vm_compute.
  - lia.
Defined.


(** * Sorting by the number of aisles *)

Lemma insert_desc_sorted p l :
  StronglySorted (λ p q : nat * Order, q.1 ≤ p.1) l →
  StronglySorted (λ p q : nat * Order, q.1 ≤ p.1) (insert_desc p l).
Proof.
  induction 1 as [|q l Hl IH Hq]; simpl.
  - repeat constructor.
  - destruct (q.1 <=? p.1) eqn:Hle.
    + apply Nat.leb_le in Hle. constructor; [by constructor|].
      constructor; [done|]. eapply Forall_impl; [exact Hq|].
      intros r Hr. simpl in *. lia.
    + apply Nat.leb_gt in Hle. constructor; [done|].
      rewrite insert_desc_perm. constructor; [simpl; lia|done].
Qed.

Lemma sort_desc_sorted l :
  StronglySorted (λ p q : nat * Order, q.1 ≤ p.1) (sort_desc l).
Proof.
  induction l as [|p l IH]; simpl; [constructor|].
  by apply insert_desc_sorted.
Qed.

Lemma keyed_sorted s (ks : list (nat * Order)) :
  Forall (λ p, p.1 = aisle_count s p.2) ks →
  StronglySorted (λ p q : nat * Order, q.1 ≤ p.1) ks →
  by_aisles_desc s ks.*2.
Proof.
  intros Hkeys Hs. unfold by_aisles_desc.
  induction Hs as [|p ks Hs IH Hp]; [constructor|].
  apply Forall_cons in Hkeys as [Hkp Hkeys].
  rewrite fmap_cons. constructor; [by apply IH|].
  apply Forall_fmap. apply Forall_forall. intros q Hq. simpl.
  rewrite Forall_forall in Hp, Hkeys.
  specialize (Hp q Hq). specialize (Hkeys q Hq). simpl in *. lia.
Qed.

(** [order_ids.sort(reverse=True, key=self.num_aisles)] leaves the same
    orders, by descending number of aisles. *)
Lemma py_sort_desc_sorted s l w :
  Forall (known_order s) (heap w l) →
  ∃ v', heap w l ≡ₚ v' ∧ by_aisles_desc s v' ∧
    py_sort_desc l (num_aisles s) w
      = (Val (), set_heap (<[l := v']> (heap w)) (next w) w).
Proof.
  intros Hk. unfold py_sort_desc.
  eexists. split; [|split; [|erewrite bind_val; [|reflexivity];
                    erewrite bind_val; [|by apply sort_keys]; reflexivity]].
  - rewrite sort_desc_perm. cbn [app].
    rewrite <- list_fmap_compose. by rewrite list_fmap_id.
  - apply keyed_sorted; [|apply sort_desc_sorted].
    rewrite sort_desc_perm. cbn [app]. apply Forall_fmap.
    apply Forall_forall. by intros o _.
Qed.

Lemma list_remove_sorted {R : relation Order} x l l' :
  list_remove x l = Some l' → StronglySorted R l → StronglySorted R l'.
Proof.
  intros Hrem Hs. revert l' Hrem.
  induction Hs as [|y l Hs IH Hy]; intros l'; simpl; [done|].
  case_decide as Hxy; [by intros [= <-]|].
  destruct (list_remove x l) as [l0|] eqn:E; simpl; [|done].
  intros [= <-]. constructor; [by apply IH|].
  apply list_remove_Some in E. rewrite E in Hy.
  by apply Forall_cons in Hy as [_ ?].
Qed.

Lemma remove_batch_sorted {R : relation Order} l (batch : list Order)
    w w' :
  for_each batch (λ o _, py_remove l o) () w = (Val (), w') →
  StronglySorted R (heap w l) → StronglySorted R (heap w' l).
Proof.
  revert w. induction batch as [|o batch IH]; intros w; cbn [for_each].
  - by intros [= <-].
  - intros (u & w1 & Hrem & Hrest)%bind_inv_val Hs.
    rewrite py_remove_eq in Hrem.
    destruct (list_remove o (heap w l)) as [v'|] eqn:E; [|done].
    simplify_eq. apply (IH _ Hrest).
    cbn [heap set_heap]. rewrite fn_lookup_insert.
    by eapply list_remove_sorted.
Qed.

Lemma sorted_head_largest s o pool :
  by_aisles_desc s (o :: pool) → largest_of s (o :: pool) o.
Proof.
  intros [_ Hall]%StronglySorted_inv o' [->|Ho']%elem_of_cons; [done|].
  rewrite Forall_forall in Hall. by apply Hall.
Qed.


Section SeededStrategy.
Context (gurobi : Engine).
Context (Hsound : engine_sound gurobi) (Hcomplete : engine_complete gurobi).

Lemma seeded_round_run s l batches o0 rest w :
  index_total s → heap w l = o0 :: rest → NoDup (heap w l) →
  ∃ batch w',
    (do n <- py_len l ;
     do seed <- py_head l ;
     do batch <- MIP_single_batch gurobi s l (14 `min` n) (Some seed) ;
     let batches := batches ++ [batch] in
     run for_each batch (λ o _, py_remove l o) () ;
     ret batches) w = (Val (batches ++ [batch]), w') ∧
    batch ++ heap w' l ≡ₚ heap w l ∧
    length batch = 14 `min` length (heap w l) ∧ o0 ∈ batch ∧
    (∀ R : relation Order,
       StronglySorted R (heap w l) → StronglySorted R (heap w' l)).
Proof.
  intros Hidx Hpool Hnd. erewrite bind_val; [|apply py_len_eq].
  erewrite bind_val; [|by rewrite py_head_eq, Hpool].
  destruct (MIP_single_batch_run gurobi Hsound Hcomplete s l
              (14 `min` length (heap w l)) (Some o0) w)
    as (batch & w1 & Hrun & Hheap & _ & Hlen & Hndb & Hsub & Hseed);
    [done|done|lia| |].
  { intros o [= <-]. rewrite Hpool. split; [left|simpl; lia]. }
  erewrite bind_val; [|exact Hrun]. cbv zeta.
  destruct (remove_batch l batch w1 Hndb) as (w' & Hrem & Hp & _).
  { by rewrite Hheap. }
  erewrite bind_val; [|exact Hrem].
  exists batch, w'. split; [done|]. rewrite Hheap in Hp.
  split; [done|]. split; [done|]. split; [by apply Hseed|].
  intros R HR. eapply remove_batch_sorted; [exact Hrem|]. by rewrite Hheap.
Qed.

(** Rounds that do not outlast the pool. *)
Lemma seeded_rounds_run s l (iters : list nat) acc w :
  index_total s → NoDup (heap w l) → by_aisles_desc s (heap w l) →
  length iters = 0 ∨ 14 * (length iters - 1) < length (heap w l) →
  ∃ new w',
    for_each iters (λ b batches,
        do n <- py_len l ;
        do seed <- py_head l ;
        do batch <- MIP_single_batch gurobi s l (14 `min` n) (Some seed) ;
        let batches := batches ++ [batch] in
        run for_each batch (λ o _, py_remove l o) () ;
        ret batches) acc w = (Val (acc ++ new), w') ∧
    concat new ++ heap w' l ≡ₚ heap w l ∧
    length <$> new = batch_sizes 14 (length (heap w l)) (length iters) ∧
    ∀ i b, new !! i = Some b →
      ∃ o, o ∈ b ∧ largest_of s (concat (drop i new) ++ heap w' l) o.
Proof.
  intros Hidx. cbv zeta. revert acc w.
  induction iters as [|i iters IH]; intros acc w Hnd Hsorted Hlast.
  - exists [], w. rewrite app_nil_r. repeat split; done.
  - cbn [for_each].
    destruct (heap w l) as [|o0 rest] eqn:Hpool.
    { destruct Hlast as [?|Hlast]; simpl in *; [done|lia]. }
    rewrite <- Hpool in *.
    destruct (seeded_round_run s l acc o0 rest w Hidx Hpool Hnd)
      as (batch & w1 & Hround & Hp & Hl & Ho0 & Hkeep).
    erewrite bind_val; [|exact Hround]. cbv beta.
    assert (Hrest : length (heap w1 l) =
                    length (heap w l) - 14 `min` length (heap w l)).
    { pose proof (Permutation_length Hp) as Hpl.
      rewrite length_app in Hpl. lia. }
    destruct (IH (acc ++ [batch]) w1) as (new & w' & Hrun & Hp' & Hs & Hlead).
    { rewrite <- Hp in Hnd. by apply NoDup_app in Hnd as (_ & _ & ?). }
    { by apply Hkeep. }
    { rewrite Hrest. destruct Hlast as [?|Hlast]; [done|].
      destruct iters as [|i' iters]; [by left|right].
      cbn [length] in *. lia. }
    exists (batch :: new), w'. split; [by rewrite Hrun, <- app_assoc|].
    split; [simpl; by rewrite <- Hp, <- Hp', app_assoc|].
    split; [rewrite fmap_cons, Hs, Hl, Hrest; done|].
    intros [|j] b Hb; simpl in Hb.
    + injection Hb as <-. exists o0. split; [done|].
      intros o' Ho'. simpl in Ho'. rewrite <- app_assoc, Hp', Hp in Ho'.
      rewrite Hpool in Hsorted, Ho'.
      by apply (sorted_head_largest s o0 rest).
    + by apply Hlead.
Qed.

(** Rounds that outlast the pool: the round after the pool is empty
    reads [order_ids[0]] and raises [IndexError]. *)
Lemma seeded_rounds_exhaust s l (iters : list nat) acc w :
  index_total s → NoDup (heap w l) →
  1 ≤ length iters → length (heap w l) ≤ 14 * (length iters - 1) →
  (for_each iters (λ b batches,
       do n <- py_len l ;
       do seed <- py_head l ;
       do batch <- MIP_single_batch gurobi s l (14 `min` n) (Some seed) ;
       let batches := batches ++ [batch] in
       run for_each batch (λ o _, py_remove l o) () ;
       ret batches) acc w).1 = Exn IndexError.
Proof.
  intros Hidx. cbv zeta. revert acc w.
  induction iters as [|i iters IH]; intros acc w Hnd Hlen Hshort;
    [simpl in Hlen; lia|].
  cbn [for_each].
  destruct (heap w l) as [|o0 rest] eqn:Hpool.
  - erewrite bind_exn; [done|].
    erewrite bind_val; [|apply py_len_eq].
    erewrite bind_exn; [done|]. by rewrite py_head_eq, Hpool.
  - rewrite <- Hpool in *.
    destruct (seeded_round_run s l acc o0 rest w Hidx Hpool Hnd)
      as (batch & w1 & Hround & Hp & Hl & _).
    erewrite bind_val; [|exact Hround]. cbv beta.
    pose proof (Permutation_length Hp) as Hpl. rewrite length_app in Hpl.
    assert (0 < length (heap w l)) by (rewrite Hpool; simpl; lia).
    apply IH.
    + rewrite <- Hp in Hnd. by apply NoDup_app in Hnd as (_ & _ & ?).
    + destruct iters; cbn [length] in *; lia.
    + destruct iters; cbn [length] in *; lia.
Qed.

Lemma seeded_strategy_run s w :
  index_total s → Forall (known_order s) (heap w (order_ids s)) →
  NoDup (heap w (order_ids s)) →
  B s = 0 ∨ 14 * (B s - 1) < length (heap w (order_ids s)) →
  ∃ batches rest,
    (greedy_optimal_single_batching_with_seed gurobi s w).1 = Val batches ∧
    concat batches ++ rest ≡ₚ heap w (order_ids s) ∧
    length <$> batches
      = batch_sizes 14 (length (heap w (order_ids s))) (B s) ∧
    ∀ i b, batches !! i = Some b →
      ∃ o, o ∈ b ∧ largest_of s (concat (drop i batches) ++ rest) o.
Proof.
  intros Hidx Hk Hnd Hlast. unfold greedy_optimal_single_batching_with_seed.
  erewrite bind_val; [|apply py_copy_eq].
  set (w1 := set_heap _ _ w).
  assert (Hw1 : heap w1 (next w) = heap w (order_ids s))
    by apply fn_lookup_insert.
  destruct (py_sort_desc_sorted s (next w) w1) as (v' & Hperm & Hs & Hsort).
  { by rewrite Hw1. }
  erewrite bind_val; [|exact Hsort].
  set (w2 := set_heap _ _ w1).
  assert (Hw2 : heap w2 (next w) = v') by apply fn_lookup_insert.
  rewrite Hw1 in Hperm.
  destruct (seeded_rounds_run s (next w) (seq 0 (B s)) [] w2 Hidx)
    as (new & w' & Hrun & Hp & Hsz & Hlead).
  { by rewrite Hw2, <- Hperm. }
  { by rewrite Hw2. }
  { by rewrite Hw2, length_seq, <- Hperm. }
  exists new, (heap w' (next w)). split; [exact (f_equal fst Hrun)|].
  rewrite Hw2, <- Hperm in Hp. rewrite Hw2, length_seq, <- Hperm in Hsz.
  done.
Qed.

Lemma seeded_strategy_exhaust s w :
  index_total s → Forall (known_order s) (heap w (order_ids s)) →
  NoDup (heap w (order_ids s)) →
  1 ≤ B s → length (heap w (order_ids s)) ≤ 14 * (B s - 1) →
  (greedy_optimal_single_batching_with_seed gurobi s w).1 = Exn IndexError.
Proof.
  intros Hidx Hk Hnd HB Hshort.
  unfold greedy_optimal_single_batching_with_seed.
  erewrite bind_val; [|apply py_copy_eq].
  set (w1 := set_heap _ _ w).
  assert (Hw1 : heap w1 (next w) = heap w (order_ids s))
    by apply fn_lookup_insert.
  destruct (py_sort_desc_sorted s (next w) w1) as (v' & Hperm & Hs & Hsort).
  { by rewrite Hw1. }
  erewrite bind_val; [|exact Hsort].
  set (w2 := set_heap _ _ w1).
  assert (Hw2 : heap w2 (next w) = v') by apply fn_lookup_insert.
  rewrite Hw1 in Hperm.
  apply (seeded_rounds_exhaust s (next w) (seq 0 (B s)) [] w2 Hidx).
  - by rewrite Hw2, <- Hperm.
  - by rewrite length_seq.
  - by rewrite Hw2, length_seq, <- Hperm.
Qed.
End SeededStrategy.

(** A solver constructed with [K = 14] and distinct order ids, with an
    engine that answers: the seeded strategy returns a partition of the
    order ids into [ceil(n/14)] non-empty batches of at most 14 orders,
    and every batch holds an order with the most aisles among the orders
    of that batch and the later ones. *)
Theorem constructed_seeded_batching (gurobi : Engine) (ol : Orderlist)
    (w : world) :
  engine_sound gurobi → engine_complete gurobi → NoDup ol.*1 →
  ∃ s w' batches,
    Solver_init ol 14 w = (Val s, w') ∧
    (greedy_optimal_single_batching_with_seed gurobi s w').1 = Val batches ∧
    partition_of ol.*1 batches ∧
    length batches = ceil_div (length ol) 14 ∧
    Forall (λ b, 1 ≤ length b ≤ 14) batches ∧
    ∀ i b, batches !! i = Some b →
      ∃ o, o ∈ b ∧ largest_of s (concat (drop i batches)) o.
Proof.
  intros Hsound Hcomplete Hnd.
  destruct (Solver_init_ready_index ol 14 w)
    as (s & w' & Hrun & Hids & HKs & HB & Hk & Hidx); [lia|].
  exists s, w'.
  pose proof (fits_ceil_div (length (heap w' (order_ids s))) (K s)) as Hfit.
  rewrite <- HB, HKs in Hfit. specialize (Hfit ltac:(lia)).
  destruct (batch_sizes_fits 14 _ _ ltac:(lia) Hfit) as (Hlen & Hsum & Hall).
  destruct (seeded_strategy_run gurobi Hsound Hcomplete s w')
    as (batches & rest & Hr & Hp & Hsz & Hlead); [done|done|by rewrite Hids| |].
  { destruct Hfit as [[? _]|(_ & ? & _)]; [by left|right; lia]. }
  exists batches. split; [done|]. split; [done|].
  assert (rest = []) as ->.
  { apply length_zero_iff_nil. apply Permutation_length in Hp.
    rewrite length_app, length_concat_sum, Hsz, Hsum in Hp. lia. }
  rewrite app_nil_r in Hp. split; [by rewrite <- Hids|].
  split; [by rewrite <- (length_fmap length), Hsz, Hlen, HB, HKs, Hids,
             length_fmap|].
  split.
  - apply Forall_lookup. intros i b Hb.
    destruct (Hall i (length b)) as [? _]; [|done].
    by rewrite <- Hsz, list_lookup_fmap, Hb.
  - intros i b Hb. destruct (Hlead i b Hb) as (o & Ho & Hlargest).
    exists o. split; [done|]. by rewrite app_nil_r in Hlargest.
Qed.

Lemma constructed_seeded_batching_witness :
  ∃ s w' batches,
    Solver_init scenario 14 initial_world = (Val s, w') ∧
    (greedy_optimal_single_batching_with_seed first_fit s w').1
      = Val batches ∧
    partition_of scenario.*1 batches ∧
    length batches = ceil_div (length scenario) 14 ∧
    Forall (λ b, 1 ≤ length b ≤ 14) batches ∧
    ∀ i b, batches !! i = Some b →
      ∃ o, o ∈ b ∧ largest_of s (concat (drop i batches)) o.
Proof.
  apply constructed_seeded_batching.
  - apply first_fit_sound.
  - apply first_fit_complete.
  - apply (bool_decide_unpack _). by vm_compute.
Defined.

(** The seeded strategy with a batch size so small that the batch count
    outlasts the pool (the pool is empty after fewer than [B] rounds of
    14): the round after the last order reads [order_ids[0]] of an empty
    list and the call raises [IndexError]. *)
Theorem constructed_seeded_exhausts_pool (gurobi : Engine) (ol : Orderlist)
    (max_batch_size : nat) (w : world) :
  engine_sound gurobi → engine_complete gurobi → NoDup ol.*1 →
  1 ≤ max_batch_size → 1 ≤ length ol →
  length ol ≤ 14 * (ceil_div (length ol) max_batch_size - 1) →
  ((do s <- Solver_init ol max_batch_size ;
    greedy_optimal_single_batching_with_seed gurobi s) w).1
    = Exn IndexError.
Proof.
  intros Hsound Hcomplete Hnd HK Hn Hshort.
  destruct (Solver_init_ready_index ol max_batch_size w HK)
    as (s & w' & Hrun & Hids & HKs & HB & Hk & Hidx).
  erewrite bind_val; [|exact Hrun].
  rewrite Hids, length_fmap, HKs in HB.
  apply (seeded_strategy_exhaust gurobi Hsound Hcomplete s w');
    [done|done|by rewrite Hids| |].
  - rewrite HB. destruct (ceil_div (length ol) max_batch_size); lia.
  - by rewrite Hids, length_fmap, HB.
Qed.

Lemma constructed_seeded_exhausts_pool_witness :
  ((do s <- Solver_init scenario 2 ;
    greedy_optimal_single_batching_with_seed first_fit s) initial_world).1
    = Exn IndexError.
Proof.
  apply constructed_seeded_exhausts_pool.
  - apply first_fit_sound.
  - apply first_fit_complete.
  - apply (bool_decide_unpack _). by vm_compute.
  - lia.
  - simpl. lia.
  - vm_compute. lia.
Defined.


(** * Reading the batching back from the full model *)








(** * The largest order first in [greedy_batches] *)

Lemma greedy_scan_world s ba pool st w :
  (greedy_scan s ba pool st w).2 = w.
Proof.
  revert st. induction pool as [|o pool IH]; intros st; [done|].
  cbn [greedy_scan]. unfold get_order_aisles, bind.
  destruct (order_aisles s !! o) as [A|]; simpl; [|done].
  destruct (_ =? 0); [done|]. apply IH.
Qed.

Lemma greedy_batches_fill_sorted {R : relation Order} fuel s l batch ba
    w r w' :
  greedy_batches_fill fuel s l batch ba w = (Val r, w') →
  StronglySorted R (heap w l) → StronglySorted R (heap w' l).
Proof.
  revert batch ba w. induction fuel as [|fuel IH]; intros batch ba w;
    cbn [greedy_batches_fill]; [done|].
  intros (n & w1 & [= <- <-] & Hrun)%bind_inv_val Hs.
  destruct (_ <? _); [|by injection Hrun as _ <-].
  apply bind_inv_val in Hrun as (pool & w1 & [= <- <-] & Hrun).
  apply bind_inv_val in Hrun as (st & w1 & Hscan & Hrun).
  pose proof (greedy_scan_world s ba (heap w l) (mkScan None ∅ None) w) as Hw.
  rewrite Hscan in Hw. simpl in Hw. subst w1.
  destruct (best_order st) as [o|]; [|done].
  apply bind_inv_val in Hrun as (u & w1 & Hrem & Hrun).
  rewrite py_remove_eq in Hrem.
  destruct (list_remove o (heap w l)) as [v'|] eqn:E; [|done].
  simplify_eq. apply (IH _ _ _ Hrun).
  cbn [heap set_heap]. rewrite fn_lookup_insert.
  by eapply list_remove_sorted.
Qed.

(** One round of [greedy_batches] on a non-empty pool: the batch starts
    with the pool's first order. *)
Lemma greedy_round_run fuel s l batches o0 rest w :
  1 ≤ K s → heap w l = o0 :: rest →
  Forall (known_order s) (heap w l) → length (heap w l) < fuel →
  ∃ picked w',
    (do o0 <- py_head l ;
     do batch_aisles <- get_order_aisles s o0 ;
     do o0 <- py_head l ;
     do o1 <- py_head l ;
     do batch <- of_option ValueError (list_remove o1 ([] ++ [o0])) ;
     do batch <- greedy_batches_fill fuel s l batch batch_aisles ;
     ret (batches ++ [batch])) w
      = (Val (batches ++ [o0 :: picked]), w') ∧
    (o0 :: picked) ++ heap w' l ≡ₚ heap w l ∧
    length (o0 :: picked) = K s `min` length (heap w l) ∧
    (∀ R : relation Order,
       StronglySorted R (heap w l) → StronglySorted R (heap w' l)).
Proof.
  intros HK Hpool Hk Hfuel.
  assert (Hhead : py_head l w = (Val o0, w)) by by rewrite py_head_eq, Hpool.
  pose proof Hk as Hk0. rewrite Hpool in Hk0.
  apply Forall_cons in Hk0 as [[A0 HA0] Hkrest].
  destruct fuel as [|fuel]; [lia|].
  assert (Hzero : new_aisles s A0 o0 = 0).
  { unfold new_aisles. rewrite HA0. simpl.
    by rewrite difference_diag_L, size_empty. }
  assert (Hstep : greedy_batches_fill (S fuel) s l [] A0 w =
            greedy_batches_fill fuel s l ([] ++ [o0]) (A0 ∪ A0)
              (set_heap (<[l := rest]> (heap w)) (next w) w)).
  { cbn [greedy_batches_fill]. erewrite bind_val; [|apply py_len_eq].
    assert ((length (@nil Order) <? K s `min` (length (@nil Order)
               + length (heap w l))) = true) as ->.
    { apply Nat.ltb_lt. rewrite Hpool. simpl. lia. }
    erewrite bind_val; [|reflexivity].
    erewrite bind_val.
    2:{ rewrite Hpool.
        by apply (greedy_scan_stops_at_zero s A0 [] o0 A0 rest). }
    cbn [best_order best_order_aisles]. cbv zeta.
    erewrite bind_val; [done|].
    rewrite py_remove_eq, Hpool. simpl. by rewrite decide_True. }
  set (w1 := set_heap (<[l := rest]> (heap w)) (next w) w) in *.
  assert (Hw1 : heap w1 l = rest) by apply fn_lookup_insert.
  destruct (greedy_batches_fill_spec fuel s l ([] ++ [o0]) (A0 ∪ A0) w1)
    as (picked & w' & Hfill & Hp & Hl).
  { by rewrite Hw1. }
  { rewrite Hw1. rewrite Hpool in Hfuel. simpl in Hfuel. lia. }
  exists picked, w'. split.
  { erewrite bind_val; [|exact Hhead].
    erewrite bind_val; [|by unfold get_order_aisles; rewrite HA0].
    erewrite bind_val; [|exact Hhead].
    erewrite bind_val; [|exact Hhead].
    erewrite bind_val; [|by cbn; rewrite decide_True].
    erewrite bind_val; [|by rewrite Hstep; exact Hfill]. done. }
  rewrite Hw1 in Hp, Hl. split; [by rewrite Hpool; simpl; rewrite Hp|].
  split.
  { simpl. rewrite Hl, Hpool. simpl. lia. }
  intros R HR. eapply greedy_batches_fill_sorted; [exact Hfill|].
  rewrite Hw1. rewrite Hpool in HR. by apply StronglySorted_inv in HR as [? _].
Qed.

Lemma greedy_rounds_led fuel s l (iters : list nat) acc w :
  1 ≤ K s → fits (K s) (length (heap w l)) (length iters) →
  Forall (known_order s) (heap w l) → by_aisles_desc s (heap w l) →
  length (heap w l) < fuel →
  ∃ new w',
    for_each iters (λ _ batches,
        let batch := [] in
        do o0 <- py_head l ;
        do batch_aisles <- get_order_aisles s o0 ;
        do o0 <- py_head l ;
        let batch := batch ++ [o0] in
        do o0 <- py_head l ;
        do batch <- of_option ValueError (list_remove o0 batch) ;
        do batch <- greedy_batches_fill fuel s l batch batch_aisles ;
        ret (batches ++ [batch])) acc w = (Val (acc ++ new), w') ∧
    concat new ++ heap w' l ≡ₚ heap w l ∧
    ∀ i b, new !! i = Some b →
      ∃ o b', b = o :: b' ∧ largest_of s (concat (drop i new) ++ heap w' l) o.
Proof.
  intros HK. cbv zeta. revert acc w.
  induction iters as [|i iters IH]; intros acc w Hfit Hk Hsorted Hfuel.
  - exists [], w. rewrite app_nil_r. split; [done|]. split; [done|].
    by intros i b ?.
  - cbn [for_each].
    destruct (fits_step _ _ _ HK Hfit) as [Hpos Hfit'].
    destruct (heap w l) as [|o0 rest] eqn:Hpool; [simpl in Hpos; lia|].
    rewrite <- Hpool in *.
    destruct (greedy_round_run fuel s l acc o0 rest w HK Hpool Hk Hfuel)
      as (picked & w1 & Hround & Hp & Hl & Hkeep).
    erewrite bind_val; [|exact Hround]. cbv beta.
    assert (Hrest : length (heap w1 l) =
                    length (heap w l) - K s `min` length (heap w l)).
    { pose proof (Permutation_length Hp) as Hpl.
      rewrite length_app in Hpl. lia. }
    destruct (IH (acc ++ [o0 :: picked]) w1)
      as (new & w' & Hrun & Hp' & Hlead).
    { by rewrite Hrest. }
    { rewrite <- Hp in Hk. by apply Forall_app in Hk as [_ ?]. }
    { by apply Hkeep. }
    { rewrite Hrest. lia. }
    exists ((o0 :: picked) :: new), w'.
    split; [by rewrite Hrun, <- app_assoc|].
    split; [cbn [concat]; by rewrite <- Hp, <- Hp', app_assoc|].
    intros [|j] b Hb; simpl in Hb.
    + injection Hb as <-. exists o0, picked. split; [done|].
      intros o' Ho'. cbn [drop concat] in Ho'.
      rewrite <- app_assoc, Hp', Hp in Ho'.
      rewrite Hpool in Hsorted, Ho'.
      by apply (sorted_head_largest s o0 rest).
    + by apply Hlead.
Qed.

(** A solver constructed with [K >= 1]: every batch of [greedy_batches]
    starts with an order that has the most aisles among the orders of
    that batch and the later ones. *)
Theorem constructed_greedy_batches_largest_first (ol : Orderlist)
    (max_batch_size : nat) (fuel : nat) (w : world) :
  1 ≤ max_batch_size → length ol < fuel →
  ∃ s w' batches,
    Solver_init ol max_batch_size w = (Val s, w') ∧
    (greedy_batches fuel s w').1 = Val batches ∧
    ∀ i b, batches !! i = Some b →
      ∃ o b', b = o :: b' ∧ largest_of s (concat (drop i batches)) o.
Proof.
  intros HK Hfuel.
  destruct (Solver_init_ready ol max_batch_size w HK)
    as (s & w' & Hrun & Hids & HKs & HB & Hk).
  exists s, w'. unfold greedy_batches.
  erewrite bind_val; [|apply py_copy_eq].
  set (w1 := set_heap _ _ w').
  assert (Hw1 : heap w1 (next w') = heap w' (order_ids s))
    by apply fn_lookup_insert.
  destruct (py_sort_desc_sorted s (next w') w1) as (v' & Hperm & Hs & Hsort).
  { by rewrite Hw1. }
  erewrite bind_val; [|exact Hsort].
  set (w2 := set_heap _ _ w1).
  assert (Hw2 : heap w2 (next w') = v') by apply fn_lookup_insert.
  rewrite Hw1 in Hperm.
  pose proof (fits_ceil_div (length (heap w' (order_ids s))) (K s)) as Hfit.
  rewrite <- HB in Hfit. specialize (Hfit ltac:(lia)).
  destruct (greedy_rounds_led fuel s (next w') (seq 0 (B s)) [] w2)
    as (new & w'' & Hr & Hp & Hlead).
  { lia. }
  { by rewrite Hw2, length_seq, <- Hperm. }
  { by rewrite Hw2, <- Hperm. }
  { by rewrite Hw2. }
  { by rewrite Hw2, <- Hperm, Hids, length_fmap. }
  exists new. split; [done|]. split; [exact (f_equal fst Hr)|].
  assert (heap w'' (next w') = []) as Hnil.
  { destruct (greedy_batches_spec fuel s w')
      as (batches & w3 & Hrun3 & Hp3 & _);
      [lia|done|done|by rewrite Hids, length_fmap|].
    unfold greedy_batches in Hrun3.
    erewrite bind_val in Hrun3; [|apply py_copy_eq].
    erewrite bind_val in Hrun3; [|exact Hsort].
    assert (new = batches) as <-.
    { pose proof (eq_trans (eq_sym (f_equal fst Hr)) (f_equal fst Hrun3))
        as Heq. simpl in Heq. by injection Heq. }
    apply length_zero_iff_nil. rewrite Hw2, <- Hperm in Hp.
    unfold partition_of in Hp3. apply Permutation_length in Hp.
    rewrite length_app, Hp3 in Hp. lia. }
  intros i b Hb. destruct (Hlead i b Hb) as (o & b' & -> & Hl).
  exists o, b'. split; [done|]. by rewrite Hnil, app_nil_r in Hl.
Qed.

Lemma constructed_greedy_batches_largest_first_witness :
  ∃ s w' batches,
    Solver_init scenario 2 initial_world = (Val s, w') ∧
    (greedy_batches 4 s w').1 = Val batches ∧
    ∀ i b, batches !! i = Some b →
      ∃ o b', b = o :: b' ∧ largest_of s (concat (drop i batches)) o.
Proof. apply constructed_greedy_batches_largest_first; simpl; lia. Defined.


(** * What the exact-single-batch strategies ask for *)

(** Whatever [K] the solver was constructed with and whatever the engine
    answers, every call [greedy_optimal_single_batching] makes to
    [MIP_single_batch] asks for [min(14, len(pool))] orders without a
    seed, and every call [greedy_optimal_single_batching_with_seed] makes
    asks for [min(14, len(pool))] orders with the first order of the
    pool as seed. *)
Theorem exact_strategies_ask_for_fourteen (gurobi : Engine) (s : Solver)
    (w : world) :
  (∃ new, calls (greedy_optimal_single_batching gurobi s w).2
            = new ++ calls w ∧ Forall unseeded_request new) ∧
  (∃ new, calls (greedy_optimal_single_batching_with_seed gurobi s w).2
            = new ++ calls w ∧ Forall seeded_request new).
Proof.
  split.
  - assert (effect (λ _, False) unseeded_request w
              (greedy_optimal_single_batching gurobi s w).2)
      as (_ & _ & Hnew); [|done].
    apply effect_copy_scope. intros l0.
    apply has_effect_for_range. intros b batches w1.
    erewrite bind_val; [|apply py_len_eq].
    apply effect_bind.
    + eapply effect_mono; [| |apply effect_MIP_single_batch]; [done|].
      by intros r <-.
    + intros batch w2 _. apply has_effect_at. effects.
  - assert (effect (λ _, False) seeded_request w
              (greedy_optimal_single_batching_with_seed gurobi s w).2)
      as (_ & _ & Hnew); [|done].
    apply effect_copy_scope. intros l0.
    apply has_effect_bind; [effects|]. intros _.
    apply has_effect_for_range. intros b batches w1.
    erewrite bind_val; [|apply py_len_eq].
    apply effect_bind; [apply has_effect_py_head|].
    intros seed w2 Hseed. rewrite py_head_eq in Hseed.
    destruct (heap w1 l0) as [|o pool] eqn:Hpool; simplify_eq.
    apply effect_bind.
    + eapply effect_mono; [| |apply effect_MIP_single_batch]; [done|].
      intros r <-. rewrite Hpool. split; [done|]. by exists seed.
    + intros batch w3 _. apply has_effect_at. effects.
Qed.


(** * The warm start of the full model, from the solver's own batching *)

Lemma enumerate_lookup {A} (l : list A) n b (x : A) :
  (b, x) ∈ zip (seq n (length l)) l ↔ n ≤ b ∧ l !! (b - n) = Some x.
Proof.
  revert n. induction l as [|y l IH]; intros n; simpl.
  - split; [by intros ?%elem_of_nil|by intros [_ ?]].
  - rewrite elem_of_cons, IH. split.
    + intros [[= -> ->]|[Hn Hl]].
      * split; [lia|]. by rewrite Nat.sub_diag.
      * split; [lia|]. by replace (b - n) with (S (b - S n)) by lia.
    + intros [Hn Hl]. destruct (decide (b = n)) as [->|Hne].
      * left. rewrite Nat.sub_diag in Hl. by injection Hl as ->.
      * right. split; [lia|].
        by replace (b - n) with (S (b - S n)) in Hl by lia.
Qed.

Lemma elem_of_enumerate {A} (l : list A) b (x : A) :
  (b, x) ∈ enumerate l ↔ l !! b = Some x.
Proof.
  unfold enumerate. rewrite enumerate_lookup, Nat.sub_0_r.
  split; [by intros [_ ?]|]. intros ?. split; [lia|done].
Qed.

Lemma elem_of_concat (ls : list (list Order)) o :
  o ∈ concat ls ↔ ∃ b, b ∈ ls ∧ o ∈ b.
Proof.
  induction ls as [|b ls IH]; simpl.
  - split; [by intros ?%elem_of_nil|by intros (b & ?%elem_of_nil & _)].
  - rewrite elem_of_app, IH. split.
    + intros [Ho|(b' & Hb' & Ho)].
      * exists b. split; [left|done].
      * exists b'. split; [by right|done].
    + intros (b' & [->|Hb']%elem_of_cons & Ho); [by left|].
      right. by exists b'.
Qed.

Lemma NoDup_concat_unique (ls : list (list Order)) i j bi bj o :
  NoDup (concat ls) → ls !! i = Some bi → ls !! j = Some bj →
  o ∈ bi → o ∈ bj → i = j.
Proof.
  revert i j. induction ls as [|b ls IH]; intros i j Hnd Hi Hj Hoi Hoj;
    [done|].
  simpl in Hnd. apply NoDup_app in Hnd as (_ & Hdisj & Hnd).
  assert (∀ k bk, ls !! k = Some bk → o ∈ bk → o ∈ concat ls) as Hin.
  { intros k bk Hk Hok. apply elem_of_concat. exists bk. split; [|done].
    by eapply list_elem_of_lookup_2. }
  destruct i as [|i], j as [|j]; simpl in *; simplify_eq.
  - done.
  - exfalso. eapply Hdisj; [exact Hoi|]. by eapply Hin.
  - exfalso. eapply Hdisj; [exact Hoj|]. by eapply Hin.
  - f_equal. by eapply IH.
Qed.

Lemma start_x_batch s b (batch ids : list Order) acc w :
  b < B s →
  for_each ids (λ o xstart,
      if b <? B s
      then ret (xstart ++ [(o, b, bool_decide (o ∈ batch))])
      else raise KeyError) acc w
  = (Val (acc ++ ((λ o, (o, b, bool_decide (o ∈ batch))) <$> ids)), w).
Proof.
  intros Hlt%Nat.ltb_lt. rewrite Hlt. revert acc.
  induction ids as [|o ids IH]; intros acc; cbn [for_each].
  - by rewrite app_nil_r.
  - erewrite bind_val; [|reflexivity].
    rewrite IH, fmap_cons, <- app_assoc. done.
Qed.

(** The start values of [x]: for every batch index and every order, in
    that order. *)
Lemma start_x_values s (bbs : list (nat * list Order)) acc w :
  Forall (λ bb, bb.1 < B s) bbs →
  for_each bbs (λ bb xstart,
      do ids <- deref (order_ids s) ;
      for_each ids (λ o xstart,
        if bb.1 <? B s
        then ret (xstart ++ [(o, bb.1, bool_decide (o ∈ bb.2))])
        else raise KeyError) xstart) acc w
  = (Val (acc ++ flat_map (λ bb,
             (λ o, (o, bb.1, bool_decide (o ∈ bb.2)))
               <$> heap w (order_ids s)) bbs), w).
Proof.
  intros Hb. revert acc. induction Hb as [|bb bbs Hlt _ IH]; intros acc.
  - simpl. by rewrite app_nil_r.
  - cbn [for_each flat_map].
    erewrite bind_val.
    2:{ erewrite bind_val; [|reflexivity]. by apply start_x_batch. }
    rewrite IH, <- app_assoc. done.
Qed.

(** The start values of [y]: the pairs [(b, a)] where an order of batch
    [b] is in the list of aisle [a]. *)
Lemma start_y_values s (bbs : list (nat * list Order)) w :
  Forall (λ bb, bb.1 < B s) bbs →
  (∀ a, a ∈ aisles s → is_Some (aisles_orders s !! a)) →
  ∃ ystart,
    for_each bbs (λ bb ystart,
        for_each (aisles s) (λ a ystart,
          do os <- get_aisles_orders s a ;
          for_each os (λ o ystart,
            if decide (o ∈ bb.2) then
              if bb.1 <? B s then ret (ystart ++ [(bb.1, a)])
              else raise KeyError
            else ret ystart) ystart) ystart) [] w = (Val ystart, w) ∧
    ∀ b a, (b, a) ∈ ystart ↔
      ∃ batch l o, (b, batch) ∈ bbs ∧ a ∈ aisles s ∧
        aisles_orders s !! a = Some l ∧ o ∈ heap w l ∧ o ∈ batch.
Proof.
  intros Hb Hkeys.
  assert (Hinner : ∀ b (batch : list Order) (a : Aisle) (os : list Order)
                     (acc : list (nat * Aisle)), b < B s →
    ∃ ys, for_each os (λ o ystart,
            if decide (o ∈ batch) then
              if b <? B s then ret (ystart ++ [(b, a)])
              else raise KeyError
            else ret ystart) acc w = (Val ys, w) ∧
      ∀ e, e ∈ ys ↔ e ∈ acc ∨ (e = (b, a) ∧ ∃ o, o ∈ os ∧ o ∈ batch)).
  { intros b batch a os acc Hlt%Nat.ltb_lt. rewrite Hlt. revert acc.
    induction os as [|o os IHo]; intros acc; cbn [for_each].
    - exists acc. split; [done|]. intros e. split; [by left|].
      intros [?|(_ & o & Ho & _)]; [done|]. by apply elem_of_nil in Ho.
    - destruct (decide (o ∈ batch)) as [Ho|Ho].
      + erewrite bind_val; [|reflexivity].
        destruct (IHo (acc ++ [(b, a)])) as (ys & Hrun & Hys).
        exists ys. split; [done|]. intros e. rewrite Hys, elem_of_app.
        rewrite list_elem_of_singleton. split.
        * intros [[?| ->]|(-> & o' & Ho' & Hob)]; [by left| |].
          -- right. split; [done|]. exists o. split; [left|done].
          -- right. split; [done|]. exists o'. split; [by right|done].
        * intros [?|(-> & o' & [->|Ho']%elem_of_cons & Hob)].
          -- by left; left.
          -- by left; right.
          -- right. split; [done|]. by exists o'.
      + erewrite bind_val; [|reflexivity].
        destruct (IHo acc) as (ys & Hrun & Hys).
        exists ys. split; [done|]. intros e. rewrite Hys. split.
        * intros [?|(-> & o' & Ho' & Hob)]; [by left|].
          right. split; [done|]. exists o'. split; [by right|done].
        * intros [?|(-> & o' & [->|Ho']%elem_of_cons & Hob)];
            [by left|done|].
          right. split; [done|]. by exists o'. }
  assert (Hmiddle : ∀ b (batch : list Order) (al : list Aisle)
                      (acc : list (nat * Aisle)), b < B s →
    (∀ a, a ∈ al → is_Some (aisles_orders s !! a)) →
    ∃ ys, for_each al (λ a ystart,
            do os <- get_aisles_orders s a ;
            for_each os (λ o ystart,
              if decide (o ∈ batch) then
                if b <? B s then ret (ystart ++ [(b, a)])
                else raise KeyError
              else ret ystart) ystart) acc w = (Val ys, w) ∧
      ∀ e, e ∈ ys ↔ e ∈ acc ∨
        ∃ a l o, e = (b, a) ∧ a ∈ al ∧ aisles_orders s !! a = Some l ∧
                 o ∈ heap w l ∧ o ∈ batch).
  { intros b batch al acc Hlt. revert acc.
    induction al as [|a al IHa]; intros acc Hk; cbn [for_each].
    - exists acc. split; [done|]. intros e. split; [by left|].
      intros [?|(a & l & o & _ & Ha & _)]; [done|].
      by apply elem_of_nil in Ha.
    - destruct (Hk a) as [l Hl]; [left|].
      destruct (Hinner b batch a (heap w l) acc Hlt) as (ys1 & Hrun1 & Hys1).
      erewrite bind_val.
      2:{ erewrite bind_val; [|by apply get_aisles_orders_eq].
          exact Hrun1. }
      destruct (IHa ys1) as (ys & Hrun & Hys).
      { intros a' Ha'. apply Hk. by right. }
      exists ys. split; [done|]. intros e. rewrite Hys, Hys1. split.
      + intros [[?|(-> & o & Ho & Hob)]|(a' & l' & o & -> & Ha' & Hl' & Ho)].
        * by left.
        * right. exists a, l, o. split; [done|]. split; [left|done].
        * right. exists a', l', o. split; [done|]. split; [by right|done].
      + intros [?|(a' & l' & o & -> & [->|Ha']%elem_of_cons & Hl' & Ho & Hob)].
        * by left; left.
        * left. right. simplify_eq. split; [done|]. by exists o.
        * right. by exists a', l', o. }
  assert (Houter : ∀ acc : list (nat * Aisle),
    ∃ ys, for_each bbs (λ bb ystart,
            for_each (aisles s) (λ a ystart,
              do os <- get_aisles_orders s a ;
              for_each os (λ o ystart,
                if decide (o ∈ bb.2) then
                  if bb.1 <? B s then ret (ystart ++ [(bb.1, a)])
                  else raise KeyError
                else ret ystart) ystart) ystart) acc w = (Val ys, w) ∧
      ∀ e, e ∈ ys ↔ e ∈ acc ∨
        ∃ batch a l o, (e.1, batch) ∈ bbs ∧ e.2 = a ∧ a ∈ aisles s ∧
          aisles_orders s !! a = Some l ∧ o ∈ heap w l ∧ o ∈ batch).
  { induction Hb as [|[b batch] bbs Hlt _ IH]; intros acc; cbn [for_each].
    - exists acc. split; [done|]. intros e. split; [by left|].
      intros [?|(batch & a & l & o & Hbb & _)]; [done|].
      by apply elem_of_nil in Hbb.
    - destruct (Hmiddle b batch (aisles s) acc Hlt Hkeys)
        as (ys1 & Hrun1 & Hys1).
      erewrite bind_val; [|exact Hrun1].
      destruct (IH ys1) as (ys & Hrun & Hys).
      exists ys. split; [done|]. intros e. rewrite Hys, Hys1. split.
      + intros [[?|(a & l & o & -> & Ha & Hl & Ho)]
               |(batch' & a & l & o & Hbb & Ha)].
        * by left.
        * right. exists batch, a, l, o. split; [left|done].
        * right. exists batch', a, l, o. split; [by right|done].
      + intros [?|(batch' & a & l & o & [Heq|Hbb]%elem_of_cons & He & Ha)].
        * by left; left.
        * left. right. destruct e as [b' a']. simpl in *. simplify_eq.
          by exists a, l, o.
        * right. by exists batch', a, l, o. }
  destruct (Houter []) as (ys & Hrun & Hys).
  exists ys. split; [done|]. intros b a. rewrite Hys. split.
  - intros [Hnil|(batch & a' & l & o & Hbb & <- & Hrest)];
      [by apply elem_of_nil in Hnil|].
    by exists batch, l, o.
  - intros (batch & l & o & Hbb & Hrest). right. by exists batch, a, l, o.
Qed.

Lemma build_full_link s (bs : list nat) acc w :
  (∀ a, a ∈ aisles s → is_Some (aisles_orders s !! a)) →
  ∃ link,
    for_each bs (λ b link,
        for_each (aisles s) (λ a link,
          do os <- get_aisles_orders s a ;
          ret (link ++ (pair (b, a) <$> os))) link) acc w = (Val link, w) ∧
    ∀ b a o, (b, a, o) ∈ link ↔
      (b, a, o) ∈ acc ∨
      (b ∈ bs ∧ a ∈ aisles s ∧ in_aisles_orders w s a o).
Proof.
  intros Hkeys. revert acc.
  induction bs as [|b bs IH]; intros acc; cbn [for_each].
  { exists acc. split; [done|]. intros b a o. split; [by left|].
    intros [?|[Hb _]]; [done|]. by apply elem_of_nil in Hb. }
  assert (∀ (al : list Aisle) (acc : list (nat * Aisle * Order)),
            (∀ a, a ∈ al → is_Some (aisles_orders s !! a)) →
            ∃ link, for_each al (λ a link,
                do os <- get_aisles_orders s a ;
                ret (link ++ (pair (b, a) <$> os))) acc w = (Val link, w) ∧
              ∀ b' a o, (b', a, o) ∈ link ↔
                (b', a, o) ∈ acc ∨
                (b' = b ∧ a ∈ al ∧ in_aisles_orders w s a o))
    as Hrow.
  { clear. induction al as [|a al IHa]; intros acc Hk; cbn [for_each].
    { exists acc. split; [done|]. intros b' a o. split; [by left|].
      intros [?|(_ & Ha & _)]; [done|]. by apply elem_of_nil in Ha. }
    destruct (Hk a) as [l Hl]; [left|].
    erewrite bind_val;
      [|by erewrite bind_val; [|by apply get_aisles_orders_eq]].
    destruct (IHa (acc ++ (pair (b, a) <$> heap w l)))
      as (link & Hrun & Hmem); [intros a' Ha'; apply Hk; by right|].
    exists link. split; [done|]. intros b' a' o. rewrite Hmem.
    rewrite elem_of_app, list_elem_of_fmap, elem_of_cons.
    unfold in_aisles_orders. split.
    - intros [[?|(o' & [= -> -> ->] & Ho')]|(-> & Ha' & Hin)].
      + by left.
      + right. split; [done|]. split; [by left|]. by exists l.
      + right. split; [done|]. split; [by right|done].
    - intros [?|(-> & [->|Ha'] & l' & Hl' & Ho)].
      + by left; left.
      + left; right. exists o. split; [done|]. congruence.
      + right. split; [done|]. split; [done|]. by exists l'. }
  destruct (Hrow (aisles s) acc Hkeys) as (link1 & Hrun1 & Hmem1).
  erewrite bind_val; [|exact Hrun1].
  destruct (IH link1) as (link & Hrun & Hmem).
  exists link. split; [done|]. intros b' a o.
  rewrite Hmem, Hmem1, elem_of_cons. split.
  - intros [[?|(-> & Ha & Hin)]|(Hb & Ha & Hin)].
    + by left.
    + right. split; [by left|done].
    + right. split; [by right|done].
  - intros [?|([->|Hb] & Ha & Hin)].
    + by left; left.
    + left; right. done.
    + right. done.
Qed.

Lemma start_x_member (ids : list Order) (sbo : list (list Order)) o b :
  (o, b, true) ∈ flat_map (λ bb : nat * list Order,
                   (λ o, (o, bb.1, bool_decide (o ∈ bb.2))) <$> ids)
                 (enumerate sbo)
  ↔ ∃ batch, sbo !! b = Some batch ∧ o ∈ ids ∧ o ∈ batch.
Proof.
  rewrite list_elem_of_In, in_flat_map. split.
  - intros ([b' batch] & Hbb%list_elem_of_In & Hin%list_elem_of_In).
    apply elem_of_enumerate in Hbb.
    apply list_elem_of_fmap in Hin as (o' & [= -> -> Hmem] & Ho').
    exists batch. split; [done|]. split; [done|].
    symmetry in Hmem. by apply bool_decide_eq_true in Hmem.
  - intros (batch & Hb & Ho & Hob). exists (b, batch).
    rewrite <- !list_elem_of_In. split; [by apply elem_of_enumerate|].
    apply list_elem_of_fmap. exists o. split; [|done]. simpl.
    by rewrite bool_decide_true.
Qed.

(** A solver constructed with distinct order ids and [1 <= K <= 14],
    bound to the module-level name [solver], with an engine that answers:
    the start values [MIP(initial_solution=True)] sets are an assignment.
    Every [x[o,b].Start] that is set has [b] in [range(B)]; every order
    has the start value 1 in exactly one batch; a batch has at most 14
    orders at 1; and [y[b,a].Start] is set to 1 exactly where an order
    started in batch [b] touches aisle [a]. *)
Theorem warm_start_is_an_assignment (gurobi : Engine) (ol : Orderlist)
    (max_batch_size : nat) (w : world) :
  engine_sound gurobi → engine_complete gurobi → NoDup ol.*1 →
  1 ≤ max_batch_size ≤ 14 →
  ∃ s w' m,
    Solver_init ol max_batch_size w = (Val s, w') ∧
    (MIP_model gurobi s true (set_global (Some s) w')).1 = Val m ∧
    Forall (λ e, e.1.1 ∈ ol.*1 ∧ e.1.2 < B s) (fm_xstart m) ∧
    (∀ o, o ∈ ol.*1 →
       ∃ b, b < B s ∧ ∀ b', (o, b', true) ∈ fm_xstart m ↔ b' = b) ∧
    (∀ b, length (filter (λ o, (o, b, true) ∈ fm_xstart m) ol.*1) ≤ 14) ∧
    (∀ b a, (b, a) ∈ fm_ystart m ↔
       ∃ o, (o, b, true) ∈ fm_xstart m ∧
            a ∈ default ∅ (order_aisles s !! o)).
Proof.
  intros Hsound Hcomplete Hnd HK.
  destruct (Solver_init_run ol max_batch_size w)
    as (s & w' & Hrun & Hid & Hids & HKs & HB & Hoa & _ & Hall & Hin & Hout
        & Hnext).
  assert ((max_batch_size =? 0) = false) as Hz by (apply Nat.eqb_neq; lia).
  rewrite Hz in Hrun. exists s, w'.
  assert (Hkeys : ∀ a, a ∈ aisles s → is_Some (aisles_orders s !! a)).
  { intros a Ha. destruct (Hin a Ha) as (l & -> & _). by eexists. }
  assert (Hidx : index_total s).
  { intros o A a HA Ha. apply Hkeys, Hall. by exists o, A. }
  set (w0 := set_global (Some s) w').
  assert (Hids0 : heap w0 (order_ids s) = ol.*1) by exact Hids.
  destruct (greedy_optimal_single_batching gurobi s w0) as [r w1] eqn:Hgreedy.
  destruct (greedy_optimal_single_batching_run gurobi Hsound Hcomplete s w0)
    as (sbo & Hr & Hp & Hlen & Hcap); [done| | | |].
  { by rewrite Hids0. }
  { rewrite HKs. lia. }
  { by rewrite Hids0, length_fmap, HKs. }
  rewrite Hgreedy in Hr. simpl in Hr. subst r.
  assert (Hframe : ∀ l, l < next w' → heap w1 l = heap w' l).
  { pose proof (has_effect_greedy_optimal_single_batching gurobi s w0)
      as (_ & Hh & _).
    rewrite Hgreedy in Hh. intros l Hl. apply Hh; [done|tauto]. }
  rewrite Hids0 in Hp. unfold partition_of in Hp.
  assert (Hbbs : Forall (λ bb : nat * list Order, bb.1 < B s) (enumerate sbo)).
  { apply Forall_forall. intros [b batch] Hbb%elem_of_enumerate.
    simpl. rewrite <- Hlen. by eapply lookup_lt_Some. }
  assert (Hids1 : heap w1 (order_ids s) = ol.*1).
  { rewrite Hframe by lia. exact Hids. }
  destruct (start_y_values s (enumerate sbo) w1 Hbbs Hkeys)
    as (ystart & Hy & Hymem).
  destruct (build_full_link s (seq 0 (B s)) [] w1 Hkeys)
    as (link & Hlink & _).
  eexists. split; [done|]. split.
  { unfold MIP_model.
    erewrite bind_val; [|reflexivity].
    erewrite bind_val.
    2:{ unfold MIP_start. erewrite bind_val; [|reflexivity].
        erewrite bind_val; [|exact Hgreedy].
        unfold start_values.
        erewrite bind_val; [|by apply start_x_values].
        erewrite bind_val; [|exact Hy]. reflexivity. }
    unfold for_range. erewrite bind_val; [|exact Hlink]. reflexivity. }
  cbn [fm_xstart fm_ystart fst snd app]. rewrite Hids1.
  assert (Hone : ∀ o b batch b' batch', sbo !! b = Some batch → o ∈ batch →
                   sbo !! b' = Some batch' → o ∈ batch' → b' = b).
  { intros o b batch b' batch' Hb Ho Hb' Ho'.
    eapply (NoDup_concat_unique sbo); [by rewrite Hp|done..]. }
  split; [|split; [|split]].
  - apply Forall_forall. intros [[o b] v] Hin'%list_elem_of_In.
    apply in_flat_map in Hin' as ([b' batch] & Hbb%list_elem_of_In
                                  & Hmem%list_elem_of_In).
    apply list_elem_of_fmap in Hmem as (o' & [= -> -> _] & Ho').
    simpl. split; [done|].
    rewrite Forall_forall in Hbbs. by apply (Hbbs (b', batch)).
  - intros o Ho.
    assert (o ∈ concat sbo) as (batch & Hbatch & Hob)%elem_of_concat
      by by rewrite Hp.
    apply list_elem_of_lookup in Hbatch as [b Hb]. exists b.
    split; [rewrite <- Hlen; by eapply lookup_lt_Some|].
    intros b'. rewrite start_x_member. split.
    + intros (batch' & Hb' & _ & Hob'). by eapply Hone.
    + intros ->. by exists batch.
  - intros b. destruct (sbo !! b) as [batch|] eqn:Hb.
    + rewrite Forall_forall in Hcap.
      etransitivity; [|apply (Hcap batch); by eapply list_elem_of_lookup_2].
      apply submseteq_length, NoDup_submseteq; [by apply NoDup_filter|].
      intros o [Hmem _]%list_elem_of_filter.
      apply start_x_member in Hmem as (batch' & Hb' & _ & Ho). by simplify_eq.
    + destruct (filter _ _) as [|o l] eqn:Hf; [simpl; lia|].
      assert (o ∈ o :: l) as Ho by left. rewrite <- Hf in Ho.
      apply list_elem_of_filter in Ho as [Hmem _].
      apply start_x_member in Hmem as (batch' & Hb' & _). congruence.
  - intros b a. rewrite Hymem. split.
    + intros (batch & l & o & Hbb%elem_of_enumerate & Ha & Hl & Ho & Hob).
      destruct (Hin a Ha) as (l' & Hl' & Hrange & Hheap). simplify_eq.
      rewrite Hframe, Hheap in Ho by lia.
      apply list_elem_of_filter in Ho as [Hmem Ho].
      exists o. split; [|done]. apply start_x_member. by exists batch.
    + intros (o & (batch & Hb & Ho & Hob)%start_x_member & Ha).
      destruct (order_aisles s !! o) as [A|] eqn:HA;
        [|by apply elem_of_empty in Ha].
      assert (a ∈ aisles s) as Haisle by (apply Hall; by exists o, A).
      destruct (Hin a Haisle) as (l & Hl & Hrange & Hheap).
      exists batch, l, o. split; [by apply elem_of_enumerate|].
      split; [done|]. split; [done|]. split; [|done].
      rewrite Hframe, Hheap by lia. apply list_elem_of_filter.
      split; [by rewrite HA|done].
Qed.

Lemma warm_start_is_an_assignment_witness :
  ∃ s w' m,
    Solver_init scenario 2 initial_world = (Val s, w') ∧
    (MIP_model first_fit s true (set_global (Some s) w')).1 = Val m ∧
    Forall (λ e, e.1.1 ∈ scenario.*1 ∧ e.1.2 < B s) (fm_xstart m) ∧
    (∀ o, o ∈ scenario.*1 →
       ∃ b, b < B s ∧ ∀ b', (o, b', true) ∈ fm_xstart m ↔ b' = b) ∧
    (∀ b, length (filter (λ o, (o, b, true) ∈ fm_xstart m) scenario.*1)
            ≤ 14) ∧
    (∀ b a, (b, a) ∈ fm_ystart m ↔
       ∃ o, (o, b, true) ∈ fm_xstart m ∧
            a ∈ default ∅ (order_aisles s !! o)).
Proof.
  apply warm_start_is_an_assignment.
  - apply first_fit_sound.
  - apply first_fit_complete.
  - apply (bool_decide_unpack _). by vm_compute.
  - lia.
Defined.

(** A solver constructed with [K <> 0]: without a warm start, [MIP]
    builds its model without changing any list and without setting a
    start value.  The [x] variables range over the order ids and
    [range(ceil(n/K))], the capacity is [K], the [y] variables range over
    the aisles some order touches, and the model has a linking constraint
    [y[b,a] >= x[o,b]] exactly for the batch indices [b] in [range(B)]
    and the pairs of an order [o] and an aisle [a] of one of its items. *)
Theorem MIP_model_links_orders_to_their_aisles (gurobi : Engine)
    (ol : Orderlist) (max_batch_size : nat) (w : world) :
  max_batch_size ≠ 0 →
  ∃ s w' m,
    Solver_init ol max_batch_size w = (Val s, w') ∧
    MIP_model gurobi s false w' = (Val m, w') ∧
    fm_orders m = ol.*1 ∧
    fm_B m = ceil_div (length ol) max_batch_size ∧
    fm_K m = max_batch_size ∧
    fm_xstart m = [] ∧ fm_ystart m = [] ∧
    (∀ a, a ∈ fm_aisles m ↔
       ∃ o items, dict_get ol o = Some items ∧ a ∈ aisle_fields items) ∧
    (∀ b a o, (b, a, o) ∈ fm_link m ↔
       b < fm_B m ∧
       ∃ items, dict_get ol o = Some items ∧ a ∈ aisle_fields items).
Proof.
  intros HK.
  destruct (Solver_init_run ol max_batch_size w)
    as (s & w' & Hrun & Hid & Hids & HKs & HB & Hoa & _ & Hall & Hin & Hout
        & Hnext).
  assert ((max_batch_size =? 0) = false) as Hz by (by apply Nat.eqb_neq).
  rewrite Hz in Hrun. exists s, w'.
  assert (Hkeys : ∀ a, a ∈ aisles s → is_Some (aisles_orders s !! a)).
  { intros a Ha. destruct (Hin a Ha) as (l & -> & _). by eexists. }
  destruct (build_full_link s (seq 0 (B s)) [] w' Hkeys)
    as (link & Hlink & Hmem).
  eexists. split; [done|]. split.
  { unfold MIP_model.
    erewrite bind_val; [|reflexivity].
    erewrite bind_val; [|reflexivity].
    unfold for_range. erewrite bind_val; [|exact Hlink]. reflexivity. }
  cbn [fm_orders fm_B fm_K fm_xstart fm_ystart fm_aisles fm_link fst snd].
  assert (Htouch : ∀ a o, in_order_aisles s o a ↔
            ∃ items, dict_get ol o = Some items ∧ a ∈ aisle_fields items).
  { intros a o. unfold in_order_aisles. rewrite Hoa. split.
    - intros (A & HA & Ha). destruct (dict_get ol o) as [items|]; [|done].
      exists items. split; [done|]. by simplify_eq/=.
    - intros (items & -> & Ha). by exists (aisle_fields items). }
  split; [done|]. split; [done|]. split; [done|]. split; [done|].
  split; [done|]. split.
  - intros a. rewrite Hall. split.
    + intros (o & A & HA & Ha).
      destruct (proj1 (Htouch a o)) as (items & Hi & Hai); [by exists A|].
      by exists o, items.
    + intros (o & items & Hi & Hai).
      destruct (proj2 (Htouch a o)) as (A & HA & Ha); [by exists items|].
      by exists o, A.
  - intros b a o. rewrite Hmem, <- Htouch, elem_of_seq.
    split.
    + intros [Hnil|(Hb & Ha & l & Hl & Ho)]; [by apply elem_of_nil in Hnil|].
      split; [lia|].
      destruct (Hin a Ha) as (l' & Hl' & _ & Hheap). simplify_eq.
      rewrite Hheap in Ho. apply list_elem_of_filter in Ho as [Hmem' _].
      destruct (order_aisles s !! o) as [A|] eqn:HA; [by exists A|].
      by apply elem_of_empty in Hmem'.
    + intros (Hb & A & HA & Ha). right. split; [lia|].
      assert (Haisle : a ∈ aisles s) by (apply Hall; by exists o, A).
      split; [done|].
      destruct (Hin a Haisle) as (l & Hl & _ & Hheap).
      exists l. split; [done|]. rewrite Hheap. apply list_elem_of_filter.
      split; [by rewrite HA|].
      apply dict_get_is_Some. rewrite Hoa in HA.
      by destruct (dict_get ol o).
Qed.

Lemma MIP_model_links_orders_to_their_aisles_witness :
  ∃ s w' m,
    Solver_init scenario 2 initial_world = (Val s, w') ∧
    MIP_model first_fit s false w' = (Val m, w') ∧
    fm_orders m = scenario.*1 ∧
    fm_B m = ceil_div (length scenario) 2 ∧
    fm_K m = 2 ∧
    fm_xstart m = [] ∧ fm_ystart m = [] ∧
    (∀ a, a ∈ fm_aisles m ↔
       ∃ o items, dict_get scenario o = Some items ∧ a ∈ aisle_fields items) ∧
    (∀ b a o, (b, a, o) ∈ fm_link m ↔
       b < fm_B m ∧
       ∃ items, dict_get scenario o = Some items ∧ a ∈ aisle_fields items).
Proof.
  apply MIP_model_links_orders_to_their_aisles. lia.
Defined.


(** * The model of one batch *)

Lemma build_link_members s (pool : list Order) (aisles0 : list Aisle)
    (acc : list (Aisle * Order)) w :
  (∀ a, a ∈ aisles0 → is_Some (aisles_orders s !! a)) →
  ∃ link,
    for_each aisles0 (λ a link,
        do os <- get_aisles_orders s a ;
        ret (link ++ (pair a <$> filter (λ o, o ∈ pool) os))) acc w
    = (Val link, w) ∧
    ∀ a o, (a, o) ∈ link ↔
      (a, o) ∈ acc ∨ (a ∈ aisles0 ∧ o ∈ pool ∧ in_aisles_orders w s a o).
Proof.
  revert acc. induction aisles0 as [|a aisles0 IH]; intros acc Hkeys;
    cbn [for_each].
  { exists acc. split; [done|]. intros a o. split; [by left|].
    intros [?|(Ha & _)]; [done|]. by apply elem_of_nil in Ha. }
  destruct (Hkeys a) as [l Hl]; [left|].
  erewrite bind_val;
    [|by erewrite bind_val; [|by apply get_aisles_orders_eq]].
  destruct (IH (acc ++ (pair a <$> filter (λ o, o ∈ pool) (heap w l))))
    as (link & Hrun & Hmem); [intros a' Ha'; apply Hkeys; by right|].
  exists link. split; [done|]. intros a' o. rewrite Hmem.
  rewrite elem_of_app, list_elem_of_fmap, elem_of_cons.
  unfold in_aisles_orders. split.
  - intros [[?|(o' & [= -> ->] & [Hpool Ho']%list_elem_of_filter)]
           |(Ha' & Hpool & Hin)].
    + by left.
    + right. split; [by left|]. split; [done|]. by exists l.
    + right. split; [by right|done].
  - intros [?|([->|Ha'] & Hpool & l' & Hl' & Ho)].
    + by left; left.
    + left; right. exists o. split; [done|]. apply list_elem_of_filter.
      split; [done|]. congruence.
    + right. split; [done|]. split; [done|]. by exists l'.
Qed.

(** Without a solution the first order of the pool ends the reading. *)
Lemma read_solution_none (pool : list Order) w :
  for_each pool (λ o batch,
      match @None (Order → bool) with
      | None => raise GurobiError
      | Some x => ret (if x o then batch ++ [o] else batch)
      end) [] w =
    (if decide (pool = []) then Val [] else Exn GurobiError, w).
Proof. by destruct pool. Qed.

(** [MIP_single_batch] on a constructed solver, for any engine, any
    list [l] as the pool, any batch size and any seed.  The call is
    logged and changes no list.  The model has [x] over the pool, [y]
    over the aisles the orders of the pool touch, each once, and a
    constraint [y[a] >= x[o]] exactly for the orders [o] of the pool and
    the aisles [a] of their items.  A pool that repeats an order id
    raises [KeyError], and so does a seed that is not in the pool;
    otherwise the call returns the orders the engine's solution selects,
    in pool order; without a solution it raises, except on the empty
    pool, where it returns the empty batch. *)
Theorem MIP_single_batch_model (gurobi : Engine) (ol : Orderlist)
    (max_batch_size : nat) (w : world) (s : Solver) (w' : world)
    (l : loc) (batch_size : nat) (seed : option Order) :
  Solver_init ol max_batch_size w = (Val s, w') →
  ∃ m,
    sb_x m = heap w' l ∧ sb_seed m = seed ∧ sb_size m = batch_size ∧
    NoDup (sb_y m) ∧
    (∀ a, a ∈ sb_y m ↔
       ∃ o items, o ∈ heap w' l ∧ dict_get ol o = Some items ∧
                  a ∈ aisle_fields items) ∧
    (∀ a o, (a, o) ∈ sb_link m ↔
       o ∈ heap w' l ∧
       ∃ items, dict_get ol o = Some items ∧ a ∈ aisle_fields items) ∧
    MIP_single_batch gurobi s l batch_size seed w' =
      (single_batch_outcome gurobi m,
       (log_call (mkReq (heap w' l) batch_size seed) w').2).
Proof.
  intros Hinit.
  destruct (Solver_init_run ol max_batch_size w)
    as (s0 & w0 & Hrun & _ & Hids & _ & _ & Hoa & _ & Hall & Hin & _).
  rewrite Hinit in Hrun. destruct (max_batch_size =? 0); [done|].
  injection Hrun as <- <-.
  assert (Htouch : ∀ a o, in_order_aisles s o a ↔
            ∃ items, dict_get ol o = Some items ∧ a ∈ aisle_fields items).
  { intros a o. unfold in_order_aisles. rewrite Hoa. split.
    - intros (A & HA & Ha). destruct (dict_get ol o) as [items|]; [|done].
      exists items. split; [done|]. by simplify_eq/=.
    - intros (items & -> & Ha). by exists (aisle_fields items). }
  set (pool := heap w' l).
  set (w1 := (log_call (mkReq pool batch_size seed) w').2).
  set (aisles0 := elements (⋃ (filter (λ p : Order * gset Aisle, p.1 ∈ pool)
                    (map_to_list (order_aisles s))).*2 : gset Aisle)).
  assert (Haisles : ∀ a, a ∈ aisles0 ↔
            ∃ o, o ∈ pool ∧ in_order_aisles s o a).
  { intros a. unfold aisles0. rewrite elem_of_elements, elem_of_union_list.
    split.
    - intros (A & HA & Ha).
      apply list_elem_of_fmap in HA as ([o A'] & -> & Hmem).
      apply list_elem_of_filter in Hmem as [Hpool Hmem].
      apply elem_of_map_to_list in Hmem. exists o. split; [done|].
      by exists A'.
    - intros (o & Hpool & A & HA & Ha). exists A. split; [|done].
      apply list_elem_of_fmap. exists (o, A). split; [done|].
      apply list_elem_of_filter. split; [done|].
      by apply elem_of_map_to_list. }
  destruct (build_link_members s pool aisles0 [] w1)
    as (link & Hlink & Hmem).
  { intros a (o & _ & A & HA & Ha)%Haisles.
    destruct (Hin a) as (la & -> & _); [|by eexists].
    apply Hall. by exists o, A. }
  exists (mkSb pool aisles0 seed batch_size link).
  cbn [sb_x sb_seed sb_size sb_y sb_link].
  split; [done|]. split; [done|]. split; [done|].
  split; [apply NoDup_elements|]. split; [|split].
  - intros a. rewrite Haisles. split.
    + intros (o & Hpool & (items & Hi & Ha)%Htouch). by exists o, items.
    + intros (o & items & Hpool & Hi & Ha). exists o. split; [done|].
      apply Htouch. by exists items.
  - intros a o. rewrite Hmem, <- Htouch. split.
    + intros [Hnil|(Ha & Hpool & la & Hla & Ho)];
        [by apply elem_of_nil in Hnil|].
      split; [done|].
      assert (a ∈ aisles s) as Haisle.
      { apply Haisles in Ha as (o' & _ & A & HA & Ha).
        apply Hall. by exists o', A. }
      destruct (Hin a Haisle) as (la' & Hla' & _ & Hheap). simplify_eq.
      change (heap w1 la) with (heap w' la) in Ho.
      rewrite Hheap in Ho. apply list_elem_of_filter in Ho as [Ho _].
      destruct (order_aisles s !! o) as [A|] eqn:HA; [by exists A|].
      by apply elem_of_empty in Ho.
    + intros (Hpool & A & HA & Ha). right.
      split; [apply Haisles; exists o; split; [done|by exists A]|].
      split; [done|].
      assert (Haisle : a ∈ aisles s) by (apply Hall; by exists o, A).
      destruct (Hin a Haisle) as (la & Hla & _ & Hheap).
      exists la. split; [done|].
      change (heap w1 la) with (heap w' la).
      rewrite Hheap. apply list_elem_of_filter.
      split; [by rewrite HA|].
      apply dict_get_is_Some. rewrite Hoa in HA.
      by destruct (dict_get ol o).
  - unfold MIP_single_batch, single_batch_outcome.
    cbn [sb_x sb_seed].
    erewrite bind_val; [|reflexivity].
    erewrite bind_val; [|reflexivity].
    fold pool. fold w1. cbv zeta. fold aisles0.
    assert (Hread :
      (do link <- for_each aisles0 (λ a link,
           do os <- get_aisles_orders s a ;
           ret (link ++ (pair a <$> filter (λ o, o ∈ pool) os))) [] ;
       for_each pool (λ o batch,
           match optimize_single gurobi
                   (mkSb pool aisles0 seed batch_size link) with
           | None => raise GurobiError
           | Some x => ret (if x o then batch ++ [o] else batch)
           end) []) w1 =
      (match optimize_single gurobi
               (mkSb pool aisles0 seed batch_size link) with
       | Some x => Val (filter (λ o, x o) pool)
       | None => if decide (pool = []) then Val [] else Exn GurobiError
       end, w1)).
    { erewrite bind_val; [|exact Hlink].
      destruct (optimize_single gurobi _) as [x|].
      - by rewrite read_solution_some.
      - apply read_solution_none. }
    destruct (decide (NoDup pool)) as [Hnd|Hnd]; [|by erewrite bind_exn].
    erewrite bind_val; [|reflexivity].
    destruct seed as [o|].
    + destruct (decide (o ∈ pool)) as [Ho|Ho].
      * erewrite bind_val; [|reflexivity]. exact Hread.
      * by erewrite bind_exn.
    + erewrite bind_val; [|reflexivity]. exact Hread.
Qed.

Lemma MIP_single_batch_model_witness :
  ∃ m,
    sb_x m = heap scenario_world 0 ∧ sb_seed m = Some "o2" ∧ sb_size m = 2 ∧
    NoDup (sb_y m) ∧
    (∀ a, a ∈ sb_y m ↔
       ∃ o items, o ∈ heap scenario_world 0 ∧
                  dict_get scenario o = Some items ∧
                  a ∈ aisle_fields items) ∧
    (∀ a o, (a, o) ∈ sb_link m ↔
       o ∈ heap scenario_world 0 ∧
       ∃ items, dict_get scenario o = Some items ∧ a ∈ aisle_fields items) ∧
    MIP_single_batch first_fit scenario_solver 0 2 (Some "o2") scenario_world =
      (single_batch_outcome first_fit m,
       (log_call (mkReq (heap scenario_world 0) 2 (Some "o2"))
          scenario_world).2).
Proof.
  apply (MIP_single_batch_model first_fit scenario 2 initial_world).
  vm_compute. reflexivity.
Defined.

(** * Reading the order file *)

(** ** Dicts as item lists *)

Lemma dict_get_set {V} (d : list (string * V)) k v k' :
  dict_get (dict_set d k v) k' =
    if decide (k = k') then Some v else dict_get d k'.
Proof.
  induction d as [|[k0 v0] d IH]; simpl; [done|].
  destruct (decide (k0 = k)) as [->|Hne]; simpl.
  - by destruct (decide (k = k')).
  - destruct (decide (k0 = k')) as [->|Hne'].
    + by rewrite decide_False by done.
    + exact IH.
Qed.

Lemma dict_get_None {V} (d : list (string * V)) k :
  dict_get d k = None ↔ k ∉ d.*1.
Proof.
  rewrite dict_get_is_Some, eq_None_not_Some. done.
Qed.

Lemma dict_get_elem {V} (d : list (string * V)) k v :
  dict_get d k = Some v → (k, v) ∈ d.
Proof.
  induction d as [|[k0 v0] d IH]; simpl; [done|].
  destruct (decide (k0 = k)) as [->|Hne].
  - intros [= ->]. left.
  - intros Hd. right. by apply IH.
Qed.

Lemma dict_set_keys {V} (d : list (string * V)) k v :
  (dict_set d k v).*1 = if decide (k ∈ d.*1) then d.*1 else d.*1 ++ [k].
Proof.
  induction d as [|[k0 v0] d IH]; cbn [dict_set].
  - rewrite decide_False; [done|]. by intros ?%elem_of_nil.
  - destruct (decide (k0 = k)) as [->|Hne]; rewrite !fmap_cons; cbn [fst].
    + rewrite decide_True; [done|]. left.
    + rewrite IH. destruct (decide (k ∈ d.*1)) as [Hin|Hout].
      * rewrite decide_True; [done|]. by right.
      * rewrite decide_False; [done|].
        intros [?|?]%elem_of_cons; [congruence|done].
Qed.

Lemma dict_set_NoDup {V} (d : list (string * V)) k v :
  NoDup d.*1 → NoDup (dict_set d k v).*1.
Proof.
  intros Hnd. rewrite dict_set_keys. destruct (decide _) as [Hin|Hout];
    [done|].
  apply NoDup_app. split; [done|]. split; [|apply NoDup_singleton].
  intros x Hx ->%list_elem_of_singleton. done.
Qed.

Lemma dict_set_Forall {V} (P : string * V → Prop) (d : list (string * V)) k v :
  Forall P d → P (k, v) → Forall P (dict_set d k v).
Proof.
  intros Hd HP. induction Hd as [|[k0 v0] d H0 Hd IH]; simpl.
  - by constructor.
  - destruct (decide (k0 = k)) as [->|Hne]; by constructor.
Qed.

(** ** Computations that only read *)

Lemma reads_only_ret {A} (a : A) : reads_only (ret a).
Proof. by exists (Val a). Qed.

Lemma reads_only_raise_index {A} : reads_only (raise (A:=A) IndexError).
Proof. exists (Exn IndexError). split; [by left|done]. Qed.

Lemma reads_only_raise_value {A} : reads_only (raise (A:=A) ValueError).
Proof. exists (Exn ValueError). split; [by right|done]. Qed.

Lemma reads_only_bind {A C} (m : M A) (k : A → M C) :
  reads_only m → (∀ a, reads_only (k a)) → reads_only (bind m k).
Proof.
  intros ([a|e|] & Hok & Hm) Hk; [|by exists (Exn e); split;
    [|intros w; unfold bind; rewrite Hm]|done].
  destruct (Hk a) as (r & Hr & Hka). exists r. split; [done|].
  intros w. unfold bind. by rewrite Hm.
Qed.

Lemma reads_only_py_index {A} (l : list A) i : reads_only (py_index l i).
Proof.
  unfold py_index. cbv zeta. destruct (_ <? 0)%Z.
  - apply reads_only_raise_index.
  - destruct (l !! _); [apply reads_only_ret|apply reads_only_raise_index].
Qed.

Lemma reads_only_py_int T s : reads_only (of_option ValueError (py_int T s)).
Proof.
  destruct (py_int T s); [apply reads_only_ret|apply reads_only_raise_value].
Qed.

Lemma reads_only_tsv_section T location limit :
  reads_only (tsv_section T location limit).
Proof.
  unfold tsv_section.
  repeat first
    [ apply reads_only_ret
    | apply reads_only_py_index
    | apply reads_only_py_int
    | apply reads_only_bind; [|intros ?]
    | match goal with
      | |- reads_only (if ?c then _ else _) => destruct c
      end ].
Qed.

Lemma reads_only_tsv_aisle T location : reads_only (tsv_aisle T location).
Proof.
  unfold tsv_aisle.
  repeat first
    [ apply reads_only_tsv_section
    | apply reads_only_ret
    | apply reads_only_py_index
    | apply reads_only_py_int
    | apply reads_only_bind; [|intros ?]
    | match goal with
      | |- reads_only (if ?c then _ else _) => destruct c
      end ].
Qed.

Lemma reads_only_tsv_entry T header values :
  reads_only (tsv_entry T header values).
Proof.
  unfold tsv_entry. cbv zeta.
  repeat first
    [ apply reads_only_tsv_aisle
    | apply reads_only_ret
    | apply reads_only_py_index
    | apply reads_only_bind; [|intros ?] ].
Qed.

Lemma reads_only_tsv_row T max_orders header line json_data :
  reads_only (tsv_row T max_orders header line json_data).
Proof.
  unfold tsv_row. cbv zeta.
  apply reads_only_bind; [apply reads_only_tsv_entry|intros e].
  apply reads_only_bind; [apply reads_only_py_index|intros v1].
  destruct (dict_get _ _); [apply reads_only_ret|].
  destruct (_ <? _)%Z; apply reads_only_ret.
Qed.

Lemma reads_only_for_each_break {X S} (l : list X)
    (body : X → S → M (flow S)) acc :
  (∀ x a, reads_only (body x a)) → reads_only (for_each_break l body acc).
Proof.
  intros Hbody. revert acc.
  induction l as [|x l IH]; intros acc; cbn [for_each_break].
  - apply reads_only_ret.
  - apply reads_only_bind; [apply Hbody|].
    intros [a|a]; [apply IH|apply reads_only_ret].
Qed.

Lemma reads_only_tsv2json T input_file max_orders :
  reads_only (tsv2json T input_file max_orders).
Proof.
  unfold tsv2json. cbv zeta. apply reads_only_for_each_break.
  intros line jd. apply reads_only_tsv_row.
Qed.

Lemma reads_only_val {A} (m : M A) w a w' :
  reads_only m → m w = (Val a, w') → w' = w ∧ ∀ w0, m w0 = (Val a, w0).
Proof.
  intros (r & _ & Hm) Hrun. rewrite Hm in Hrun. injection Hrun as -> ->.
  done.
Qed.

(** ** The rows *)

Lemma py_index_val {A} (l : list A) (i : nat) w x w' :
  py_index l (Z.of_nat i) w = (Val x, w') → l !! i = Some x ∧ w' = w.
Proof.
  unfold py_index. cbv zeta.
  assert ((Z.of_nat i <? 0)%Z = false) as E by (apply Z.ltb_ge; lia).
  rewrite ?E. cbv iota. rewrite ?E, Nat2Z.id.
  unfold of_option, ret, raise. destruct (l !! i); [|done].
  by intros [= -> ->].
Qed.

Lemma append_not_52 (s t : string) :
  t = "a" ∨ t = "b" → s +:+ t ≠ "52".
Proof.
  intros Ht. destruct s as [|c1 [|c2 [|c3 s]]]; destruct Ht as [-> | ->];
    simpl; try discriminate.
  all: intros [= _ Hc]; discriminate.
Qed.

Lemma tsv_section_val T location limit w a w' :
  tsv_section T location limit w = (Val a, w') → a ≠ "52".
Proof.
  unfold tsv_section.
  intros (l1 & w1 & _ & H)%bind_inv_val.
  apply bind_inv_val in H as (n1 & w2 & _ & H).
  apply bind_inv_val in H as (l0 & w3 & _ & [= <- _]).
  destruct (_ <=? _)%Z; apply append_not_52; auto.
Qed.

Lemma tsv_aisle_not_52 T location w a w' :
  tsv_aisle T location w = (Val a, w') → a ≠ "52".
Proof.
  unfold tsv_aisle.
  intros (l0 & w1 & _ & H)%bind_inv_val.
  apply bind_inv_val in H as (n0 & w2 & _ & H).
  destruct (_ || _).
  { injection H as <- _. by destruct (decide (l0 = "52")). }
  destruct (_ && _); [by eapply tsv_section_val|].
  destruct (decide (l0 = "19")).
  { apply bind_inv_val in H as (l1 & w3 & _ & H).
    apply bind_inv_val in H as (n1 & w4 & _ & H).
    destruct (negb _); by eapply tsv_section_val. }
  destruct (decide (l0 = "22")); by eapply tsv_section_val.
Qed.

Lemma tsv_entry_ok T header values w e w' :
  tsv_entry T header values w = (Val e, w') → entry_ok e.
Proof.
  unfold tsv_entry. cbv zeta.
  intros (last & w1 & _ & H)%bind_inv_val.
  apply bind_inv_val in H as (a & w2 & Ha%tsv_aisle_not_52 & H).
  apply bind_inv_val in H as (h2 & w3 & _ & H).
  apply bind_inv_val in H as (v2 & w4 & _ & H).
  apply bind_inv_val in H as (h3 & w5 & _ & H).
  apply bind_inv_val in H as (v3 & w6 & _ & H).
  apply bind_inv_val in H as (l1 & w7 & _ & H).
  apply bind_inv_val in H as (l2 & w8 & _ & [= <- _]).
  exists a. rewrite !dict_get_set.
  split; [done|]. split; [done|]. split; by eexists.
Qed.

(** One row: the entry is read; it joins its order, or the loop ends on
    a new order when the dict already holds more than [max_orders]. *)
Lemma tsv_row_val T max_orders header line json_data w r w' :
  tsv_row T max_orders header line json_data w = (Val r, w') →
  w' = w ∧
  ∃ pe, parsed T header line pe ∧ entry_ok pe.2 ∧
    ((r = Next (json_add json_data pe) ∧
      (pe.1 ∈ json_data.*1 ∨
       (Z.of_nat (length json_data) ≤ max_orders)%Z)) ∨
     (r = Break json_data ∧ (pe.1 ∉ json_data.*1) ∧
      (max_orders < Z.of_nat (length json_data))%Z)).
Proof.
  intros Hrun.
  destruct (reads_only_val _ _ _ _
              (reads_only_tsv_row T max_orders header line json_data) Hrun)
    as [-> _].
  split; [done|]. revert Hrun. unfold tsv_row. cbv zeta.
  intros (e & w1 & He & H)%bind_inv_val.
  destruct (reads_only_val _ _ _ _ (reads_only_tsv_entry _ _ _) He)
    as [-> Hall].
  apply bind_inv_val in H as (v1 & w2 & [Hv1 ->]%(py_index_val _ 1) & H).
  exists (v1, e). split; [by split|]. split; [by eapply tsv_entry_ok|].
  unfold json_add. cbn [fst snd].
  destruct (dict_get json_data v1) as [es|] eqn:Hget.
  - injection H as <-. left. split; [done|]. left.
    apply dict_get_is_Some. by rewrite Hget.
  - apply dict_get_None in Hget.
    destruct (max_orders <? _)%Z eqn:Hlt; injection H as <-.
    + right. split; [done|]. split; [done|]. by apply Z.ltb_lt.
    + left. split; [done|]. right. by apply Z.ltb_ge.
Qed.

Lemma json_add_keys jd (pe : Order * list (string * string)) :
  (json_add jd pe).*1 = if decide (pe.1 ∈ jd.*1) then jd.*1 else jd.*1 ++ [pe.1].
Proof. apply dict_set_keys. Qed.

Lemma json_add_get jd (pe : Order * list (string * string)) o :
  default [] (dict_get (json_add jd pe) o) =
    default [] (dict_get jd o) ++ (if decide (pe.1 = o) then [pe.2] else []).
Proof.
  unfold json_add. rewrite dict_get_set.
  destruct (decide (pe.1 = o)) as [->|]; [done|]. by rewrite app_nil_r.
Qed.

(** The loop, from any dict: it reads a prefix of the rows; it stops
    before the end only at a row of a new order, with more than
    [max_orders] orders in the dict. *)
Lemma tsv_rows_val T max_orders header rows jd0 w jd w' :
  for_each_break rows (tsv_row T max_orders header) jd0 w = (Val jd, w') →
  w' = w ∧
  ∃ read rest pes,
    rows = read ++ rest ∧ Forall2 (parsed T header) read pes ∧
    Forall (λ pe, entry_ok pe.2) pes ∧
    jd = foldl json_add jd0 pes ∧
    (Z.of_nat (length jd)
       ≤ Z.of_nat (length jd0) `max` (max_orders + 1))%Z ∧
    (rest = [] ∨
     (max_orders < Z.of_nat (length jd))%Z ∧
     ∃ line rest' pe, rest = line :: rest' ∧ parsed T header line pe ∧
                      pe.1 ∉ jd.*1).
Proof.
  revert jd0 w. induction rows as [|line rows IH]; intros jd0 w;
    cbn [for_each_break].
  - intros [= <- <-]. split; [done|]. exists [], [], [].
    split; [done|]. split; [constructor|]. split; [constructor|].
    split; [done|]. split; [lia|]. by left.
  - intros (r & w1 & Hrow & H)%bind_inv_val.
    apply tsv_row_val in Hrow
      as (-> & pe & Hpe & Hok & [(-> & Hcase)|(-> & Hnew & Hfull)]).
    + apply IH in H
        as (-> & read & rest & pes & -> & Hread & Hoks & -> & Hlen & Hrest).
      split; [done|]. exists (line :: read), rest, (pe :: pes).
      split; [done|]. split; [by constructor|]. split; [by constructor|].
      split; [done|]. split; [|done].
      assert (length (json_add jd0 pe) = length jd0 ∨
              length (json_add jd0 pe) = S (length jd0) ∧
              (Z.of_nat (length jd0) ≤ max_orders)%Z) as Hadd.
      { rewrite <- (length_fmap fst (json_add jd0 pe)),
          <- (length_fmap fst jd0), json_add_keys.
        destruct (decide (pe.1 ∈ jd0.*1)) as [Hin|Hout]; [by left|].
        right. rewrite length_app. simpl. split; [lia|].
        destruct Hcase as [Hin|Hle]; [by destruct Hout|].
        by rewrite length_fmap. }
      lia.
    + injection H as <- <-. split; [done|]. exists [], (line :: rows), [].
      split; [done|]. split; [constructor|]. split; [constructor|].
      split; [done|]. split; [lia|]. right. split; [done|].
      by exists line, rows, pe.
Qed.

(** What the dict holds after the entries [pes] have joined it. *)
Lemma json_fold_keys jd0 (pes : list (Order * list (string * string))) o :
  o ∈ (foldl json_add jd0 pes).*1 ↔ o ∈ jd0.*1 ∨ o ∈ pes.*1.
Proof.
  revert jd0. induction pes as [|pe pes IH]; intros jd0; cbn [foldl].
  - rewrite fmap_nil. split; [by left|]. intros [?|H]; [done|].
    by apply elem_of_nil in H.
  - rewrite IH, json_add_keys, fmap_cons, elem_of_cons.
    destruct (decide (pe.1 ∈ jd0.*1)) as [Hin|Hout].
    + split; [tauto|]. intros [?|[->|?]]; tauto.
    + rewrite elem_of_app, list_elem_of_singleton. tauto.
Qed.

Lemma json_fold_NoDup jd0 (pes : list (Order * list (string * string))) :
  NoDup jd0.*1 → NoDup (foldl json_add jd0 pes).*1.
Proof.
  revert jd0. induction pes as [|pe pes IH]; intros jd0 Hnd; cbn [foldl];
    [done|].
  apply IH. by apply dict_set_NoDup.
Qed.

Lemma json_fold_get jd0 (pes : list (Order * list (string * string))) o :
  default [] (dict_get (foldl json_add jd0 pes) o) =
    default [] (dict_get jd0 o) ++ entries_of o pes.
Proof.
  revert jd0. induction pes as [|pe pes IH]; intros jd0; cbn [foldl].
  - unfold entries_of. by rewrite filter_nil, fmap_nil, app_nil_r.
  - rewrite IH, json_add_get, <- app_assoc. f_equal.
    unfold entries_of. rewrite filter_cons.
    by destruct (decide (pe.1 = o)).
Qed.

Lemma json_fold_Forall (P : Order * list (list (string * string)) → Prop)
    (Q : list (string * string) → Prop) jd0
    (pes : list (Order * list (string * string))) :
  (∀ o es e, Q e → (es = [] ∨ P (o, es)) → P (o, es ++ [e])) →
  Forall P jd0 → Forall (λ pe, Q pe.2) pes →
  Forall P (foldl json_add jd0 pes).
Proof.
  intros HP. revert jd0.
  induction pes as [|pe pes IH]; intros jd0 H0 Hpes; cbn [foldl]; [done|].
  apply Forall_cons in Hpes as [Hpe Hpes].
  apply IH; [|done]. unfold json_add. apply dict_set_Forall; [done|].
  apply HP; [done|].
  destruct (dict_get jd0 pe.1) as [es|] eqn:Hget; [|by left].
  right. rewrite Forall_forall in H0. by apply H0, dict_get_elem.
Qed.

Lemma json_fold_first_seen (pes : list (Order * list (string * string))) :
  (foldl json_add [] pes).*1 = first_seen pes.*1.
Proof.
  unfold first_seen. induction pes as [|pe pes IH] using rev_ind; [done|].
  rewrite foldl_app. cbn [foldl]. rewrite json_add_keys, IH.
  rewrite fmap_app, reverse_app. cbn [fmap list_fmap reverse rev_append app].
  change (rev_append [] [pe.1]) with [pe.1]. cbn [app remove_dups].
  destruct (decide_rel elem_of pe.1 (reverse pes.*1)) as [Hin|Hout].
  - rewrite decide_True; [done|].
    by rewrite elem_of_reverse, elem_of_remove_dups.
  - rewrite decide_False; [by rewrite reverse_cons|].
    by rewrite elem_of_reverse, elem_of_remove_dups.
Qed.

(** A dict with distinct keys is the list of its keys, each with the
    value [dict_get] finds. *)
Lemma dict_items {V} (d : list (string * V)) (f : string → V) :
  NoDup d.*1 → (∀ k v, dict_get d k = Some v → f k = v) →
  d = (λ k, (k, f k)) <$> d.*1.
Proof.
  induction d as [|[k v] d IH]; [done|].
  rewrite fmap_cons. cbn [fst]. intros [Hk Hnd]%NoDup_cons Hf.
  rewrite fmap_cons. f_equal.
  - f_equal. symmetry. apply Hf. simpl. by rewrite decide_True.
  - apply IH; [done|]. intros k' v' Hget. apply Hf. simpl.
    rewrite decide_False; [done|]. intros ->. apply Hk.
    apply dict_get_is_Some. by rewrite Hget.
Qed.

Lemma tsv2json_val T input_file max_orders w jd w' :
  tsv2json T input_file max_orders w = (Val jd, w') →
  w' = w ∧
  ∃ read rest pes,
    tl input_file = read ++ rest ∧
    Forall2 (parsed T (str_split tab (str_strip T (hd "" input_file))))
            read pes ∧
    Forall (λ pe, entry_ok pe.2) pes ∧
    jd = foldl json_add [] pes ∧
    (Z.of_nat (length jd) ≤ 0 `max` (max_orders + 1))%Z ∧
    (rest = [] ∨
     (max_orders < Z.of_nat (length jd))%Z ∧
     ∃ line rest' pe, rest = line :: rest' ∧
       parsed T (str_split tab (str_strip T (hd "" input_file))) line pe ∧
       pe.1 ∉ jd.*1).
Proof. unfold tsv2json. cbv zeta. apply tsv_rows_val. Qed.

Lemma parsed_header T header line pe :
  parsed T header line pe → 4 ≤ length header.
Proof.
  intros [_ Hrun]. specialize (Hrun initial_world). revert Hrun.
  unfold tsv_entry. cbv zeta.
  intros (last & w1 & _ & H)%bind_inv_val.
  apply bind_inv_val in H as (a & w2 & _ & H).
  apply bind_inv_val in H as (h2 & w3 & _ & H).
  apply bind_inv_val in H as (v2 & w4 & _ & H).
  apply bind_inv_val in H as (h3 & w5 & [Hh3 _]%(py_index_val _ 3) & _).
  apply lookup_lt_Some in Hh3. lia.
Qed.

(** ** The properties of the reader *)

(** [tsv2json] reads a prefix of the rows.  The dict it returns lists
    the orders of that prefix by first occurrence, each with the entries
    of its rows in file order, contiguous or not.  It stops before the
    end of the file only at a row that parses and belongs to a new
    order, with exactly [max(0, max_orders + 1)] orders in the dict: the
    rows after that one are not read, those of known orders included. *)
Theorem tsv2json_groups_the_rows_read (T : Text) (input_file : list string)
    (max_orders : Z) (w : world) jd w' :
  tsv2json T input_file max_orders w = (Val jd, w') →
  ∃ read rest pes,
    tl input_file = read ++ rest ∧
    Forall2 (parsed T (str_split tab (str_strip T (hd "" input_file))))
            read pes ∧
    jd = (λ o, (o, entries_of o pes)) <$> first_seen pes.*1 ∧
    (rest = [] ∨
     Z.of_nat (length jd) = (0 `max` (max_orders + 1))%Z ∧
     ∃ line rest' pe, rest = line :: rest' ∧
       parsed T (str_split tab (str_strip T (hd "" input_file))) line pe ∧
       pe.1 ∉ jd.*1).
Proof.
  intros (_ & read & rest & pes & Hrows & Hread & _ & Hjd & Hlen & Hrest)
           %tsv2json_val.
  exists read, rest, pes. split; [done|]. split; [done|]. split.
  - rewrite <- json_fold_first_seen, <- Hjd. apply dict_items.
    + rewrite Hjd. apply json_fold_NoDup, NoDup_nil_2.
    + intros o es Hget.
      pose proof (json_fold_get [] pes o) as Hfold.
      rewrite <- Hjd, Hget in Hfold. done.
  - destruct Hrest as [->|[Hfull Hline]]; [by left|].
    right. split; [lia|done].
Qed.

Lemma tsv2json_groups_the_rows_read_witness :
  ∃ read rest pes,
    tl order_file = read ++ rest ∧
    Forall2 (parsed plain_text
               (str_split tab (str_strip plain_text (hd "" order_file))))
            read pes ∧
    order_file_json = (λ o, (o, entries_of o pes)) <$> first_seen pes.*1 ∧
    (rest = [] ∨
     Z.of_nat (length order_file_json) = (0 `max` (1 + 1))%Z ∧
     ∃ line rest' pe, rest = line :: rest' ∧
       parsed plain_text
         (str_split tab (str_strip plain_text (hd "" order_file))) line pe ∧
       pe.1 ∉ order_file_json.*1).
Proof.
  apply (tsv2json_groups_the_rows_read plain_text order_file 1 initial_world
           order_file_json initial_world).
  vm_compute. reflexivity.
Defined.

(** With a header of fewer than four columns and at least one row,
    [tsv2json] raises [IndexError] or [ValueError] at the first row,
    whatever [max_orders] is. *)
Theorem tsv2json_short_header (T : Text) (input_file : list string)
    (max_orders : Z) (w : world) :
  length (str_split tab (str_strip T (hd "" input_file))) < 4 →
  tl input_file ≠ [] →
  ∃ e, tsv2json T input_file max_orders w = (Exn e, w) ∧
       (e = IndexError ∨ e = ValueError).
Proof.
  intros Hshort Hrows.
  destruct (reads_only_tsv2json T input_file max_orders)
    as ([jd|e|] & Hok & Hrun); [|by exists e|done].
  exfalso.
  destruct (tsv2json_val _ _ _ _ _ _ (Hrun w))
    as (_ & read & rest & pes & Hsplit & Hread & _ & _ & _ & Hrest).
  destruct Hread as [|line pe read pes Hpe _].
  - destruct Hrest as [->|(_ & line & rest' & pe & _ & Hpe & _)];
      [done|].
    apply parsed_header in Hpe. lia.
  - apply parsed_header in Hpe. lia.
Qed.

Lemma tsv2json_short_header_witness :
  ∃ e, tsv2json plain_text short_header_file 102 initial_world
         = (Exn e, initial_world) ∧
       (e = IndexError ∨ e = ValueError).
Proof.
  apply tsv2json_short_header.
  - vm_compute. lia.
  - done.
Defined.

(** ** From the reader to the solver *)

Lemma item_of_ok (e : list (string * string)) :
  entry_ok e → ∃ it, item_of e = Some it ∧ aisle it ≠ "52".
Proof.
  intros (a & Ha & Hne & [s Hs] & [h Hh]). exists (mkItem a s h).
  unfold item_of. rewrite Ha, Hs, Hh. done.
Qed.

Lemma items_of_ok (es : list (list (string * string))) :
  Forall entry_ok es →
  ∃ items, mapM item_of es = Some items ∧ length items = length es ∧
           Forall (λ it, aisle it ≠ "52") items.
Proof.
  induction 1 as [|e es He _ (items & Hitems & Hlen & Hall)].
  - by exists [].
  - destruct (item_of_ok e He) as (it & Hit & Hne).
    exists (it :: items). cbn [mapM]. rewrite Hit, Hitems.
    split; [done|]. split; [by rewrite !length_cons, Hlen|by constructor].
Qed.

Lemma orderlist_of_ok (jd : list (Order * list (list (string * string)))) :
  Forall (λ p, p.2 ≠ [] ∧ Forall entry_ok p.2) jd →
  ∃ ol, orderlist_of jd = Some ol ∧ ol.*1 = jd.*1 ∧
        Forall (λ q, q.2 ≠ [] ∧ Forall (λ it, aisle it ≠ "52") q.2) ol.
Proof.
  unfold orderlist_of.
  induction 1 as [|[o es] jd [Hne Hes] _ (ol & Hol & Hkeys & Hall)].
  - by exists [].
  - destruct (items_of_ok es Hes) as (items & Hitems & Hlen & Hok).
    exists ((o, items) :: ol). cbn [mapM snd fst]. rewrite Hitems, Hol.
    split; [done|]. split; [by rewrite !fmap_cons, Hkeys|].
    constructor; [|done]. split; [|done].
    cbn [snd] in *. intros ->. by destruct es.
Qed.

Lemma ceil_div_mono n m k : 1 ≤ k → n ≤ m → ceil_div n k ≤ ceil_div m k.
Proof.
  intros Hk Hnm.
  destruct (ceil_div_bounds n k Hk) as (Hlo & _ & Hz).
  destruct (ceil_div_bounds m k Hk) as (_ & Hhi & _).
  destruct (decide (n = 0)) as [->|Hn]; [rewrite Hz by done; lia|].
  assert ((n =? 0) = false) as E by (by apply Nat.eqb_neq).
  rewrite E in Hlo. nia.
Qed.

(** [Solver(tsv2json(file, max_orders), K)] with [max_orders >= 0] and
    [K <> 0]: what the reader returns is an order list the constructor
    accepts.  Every entry has an aisle, the order ids are distinct, the
    solver has at most [ceil((max_orders + 1) / K)] batches, every order
    touches at least one aisle and no aisle of the solver is [52]. *)
Theorem tsv2json_feeds_Solver (T : Text) (input_file : list string)
    (max_orders : Z) (max_batch_size : nat) (w : world) jd w' :
  tsv2json T input_file max_orders w = (Val jd, w') →
  (0 ≤ max_orders)%Z → max_batch_size ≠ 0 →
  ∃ ol s w'',
    orderlist_of jd = Some ol ∧ NoDup ol.*1 ∧
    Solver_init ol max_batch_size w' = (Val s, w'') ∧
    heap w'' (order_ids s) = jd.*1 ∧
    B s ≤ ceil_div (Z.to_nat max_orders + 1) max_batch_size ∧
    ("52" ∉ aisles s) ∧
    ∀ o, o ∈ jd.*1 → ∃ A, order_aisles s !! o = Some A ∧ A ≠ ∅.
Proof.
  intros Hrun Hmax HK.
  pose proof Hrun
    as (_ & _ & _ & _ & _ & _ & _ & _ & Hlen & _)%tsv2json_val.
  assert (Hwf : NoDup jd.*1 ∧
                Forall (λ p, p.2 ≠ [] ∧ Forall entry_ok p.2) jd).
  { apply tsv2json_val in Hrun
      as (_ & read & rest & pes & _ & _ & Hok & -> & _).
    split; [apply json_fold_NoDup, NoDup_nil_2|].
    apply (json_fold_Forall _ entry_ok); [|constructor|done].
    intros o es e He [->|[Hne Hes]].
    - split; [done|]. by constructor.
    - split; [by destruct es|]. apply Forall_app. split; [done|].
      by constructor. }
  destruct Hwf as [Hnd Hwf].
  destruct (orderlist_of_ok jd Hwf) as (ol & Hol & Hkeys & Hitems).
  destruct (Solver_init_run ol max_batch_size w')
    as (s & w'' & Hinit & _ & Hids & _ & HB & Hoa & _ & Hall & _).
  assert ((max_batch_size =? 0) = false) as Hz by (by apply Nat.eqb_neq).
  rewrite Hz in Hinit. exists ol, s, w''.
  rewrite Forall_forall in Hitems.
  split; [done|]. split; [by rewrite Hkeys|]. split; [done|].
  split; [by rewrite Hids|]. split; [|split].
  - rewrite HB. apply ceil_div_mono; [lia|].
    rewrite <- (length_fmap fst ol), Hkeys, length_fmap. lia.
  - intros (o & A & HA & Ha)%Hall. rewrite Hoa in HA.
    destruct (dict_get ol o) as [items|] eqn:Hget; [|done].
    injection HA as <-. unfold aisle_fields in Ha.
    apply elem_of_list_to_set, list_elem_of_fmap in Ha as (it & Hit & Hin).
    destruct (Hitems (o, items)) as [_ Hok]; [by apply dict_get_elem|].
    rewrite Forall_forall in Hok. by apply (Hok it).
  - intros o Ho. rewrite <- Hkeys in Ho.
    apply dict_get_is_Some in Ho as [items Hget].
    exists (aisle_fields items). rewrite Hoa, Hget. split; [done|].
    destruct (Hitems (o, items)) as [Hne _]; [by apply dict_get_elem|].
    destruct items as [|it items]; [done|].
    unfold aisle_fields. rewrite fmap_cons. cbn [list_to_set].
    intros Hempty. apply (not_elem_of_empty (C:=gset Aisle) (aisle it)).
    rewrite <- Hempty. apply elem_of_union_l, elem_of_singleton. done.
Qed.

Lemma tsv2json_feeds_Solver_witness :
  ∃ ol s w'',
    orderlist_of order_file_json = Some ol ∧ NoDup ol.*1 ∧
    Solver_init ol 2 initial_world = (Val s, w'') ∧
    heap w'' (order_ids s) = order_file_json.*1 ∧
    B s ≤ ceil_div (Z.to_nat 1 + 1) 2 ∧
    ("52" ∉ aisles s) ∧
    ∀ o, o ∈ order_file_json.*1 → ∃ A, order_aisles s !! o = Some A ∧ A ≠ ∅.
Proof.
  apply (tsv2json_feeds_Solver plain_text order_file 1 2 initial_world).
  - vm_compute. reflexivity.
  - lia.
  - lia.
Defined.


(** * The batches of the overlap-greedy strategy *)

Lemma py_sort_desc_pool s l w :
  Forall (known_order s) (heap w l) →
  py_sort_desc l (num_aisles s) w
    = (Val (), set_heap (<[l := sorted_pool s (heap w l)]> (heap w))
                        (next w) w).
Proof.
  intros Hk. unfold py_sort_desc.
  erewrite bind_val; [|reflexivity].
  erewrite bind_val; [|by apply sort_keys]. reflexivity.
Qed.

(** Filling one batch: the orders appended are the selections made from
    the pool, which keeps the others. *)
Lemma greedy_batches_fill_selects fuel s l batch ba w :
  Forall (known_order s) (heap w l) →
  length (heap w l) < fuel →
  ∃ picked w',
    greedy_batches_fill fuel s l batch ba w = (Val (batch ++ picked), w') ∧
    selections s ba (heap w l) picked (heap w' l) ∧
    Forall (known_order s) (heap w' l) ∧
    length (heap w' l) + length picked = length (heap w l) ∧
    length picked = (K s - length batch) `min` length (heap w l).
Proof.
  revert batch ba w.
  induction fuel as [|fuel IH]; intros batch ba w Hk Hfuel; [lia|].
  cbn [greedy_batches_fill]. erewrite bind_val; [|apply py_len_eq].
  destruct (length batch <? K s `min` (length batch + length (heap w l)))
    eqn:Hcond.
  - apply Nat.ltb_lt in Hcond.
    erewrite bind_val; [|reflexivity].
    destruct (greedy_scan_first_minimal s ba (heap w l) w)
      as (o & A & Hscan & HA & Hfirst); [|done|].
    { intros Hnil. rewrite Hnil in Hcond. simpl in Hcond. lia. }
    erewrite bind_val; [|exact Hscan]. cbn [best_order best_order_aisles].
    cbv zeta.
    assert (Ho : o ∈ heap w l).
    { destruct Hfirst as (pre & post & -> & _).
      apply elem_of_app. right. left. }
    destruct (list_remove_elem o _ Ho) as [v' Hv'].
    pose proof (list_remove_Some _ _ _ Hv') as Hperm.
    erewrite bind_val; [|by rewrite py_remove_eq, Hv'].
    set (w2 := set_heap _ _ _).
    assert (Hw2 : heap w2 l = v') by apply fn_lookup_insert.
    assert (Hlen : length (heap w l) = S (length v')) by by rewrite Hperm.
    destruct (IH (batch ++ [o]) (ba ∪ A) w2)
      as (picked & w' & Hfill & Hsel & Hk' & Hrest & Hl).
    { rewrite Hw2. rewrite Hperm in Hk. by apply Forall_cons in Hk as [_ ?]. }
    { rewrite Hw2. lia. }
    exists (o :: picked), w'. split; [by rewrite Hfill, <- app_assoc|].
    rewrite Hw2 in Hsel, Hrest, Hl. split; [|split; [done|split]].
    + eapply selections_cons; [done..|]. by rewrite HA.
    + simpl. lia.
    + simpl. rewrite Hl, length_app. simpl. lia.
  - apply Nat.ltb_ge in Hcond. exists [], w.
    split; [by rewrite app_nil_r|]. split; [constructor|].
    split; [done|]. simpl. split; lia.
Qed.

Lemma greedy_rounds_select fuel s l (iters : list nat) acc w :
  1 ≤ K s → fits (K s) (length (heap w l)) (length iters) →
  Forall (known_order s) (heap w l) →
  length (heap w l) < fuel →
  ∃ new w',
    for_each iters (λ _ batches,
        let batch := [] in
        do o0 <- py_head l ;
        do batch_aisles <- get_order_aisles s o0 ;
        do o0 <- py_head l ;
        let batch := batch ++ [o0] in
        do o0 <- py_head l ;
        do batch <- of_option ValueError (list_remove o0 batch) ;
        do batch <- greedy_batches_fill fuel s l batch batch_aisles ;
        ret (batches ++ [batch])) acc w = (Val (acc ++ new), w') ∧
    length new = length iters ∧
    overlap_greedy s (heap w l) new.
Proof.
  intros HK. cbv zeta. revert acc w.
  induction iters as [|i iters IH]; intros acc w Hfit Hk Hfuel.
  - exists [], w. by rewrite app_nil_r.
  - cbn [for_each].
    destruct (fits_step _ _ _ HK Hfit) as [Hpos Hfit'].
    destruct (heap w l) as [|o0 rest] eqn:Hpool; [simpl in Hpos; lia|].
    assert (Hhead : py_head l w = (Val o0, w)) by by rewrite py_head_eq, Hpool.
    pose proof Hk as Hk0. apply Forall_cons in Hk0 as [[A0 HA0] _].
    rewrite <- Hpool in *.
    destruct (greedy_batches_fill_selects fuel s l [] A0 w Hk Hfuel)
      as (picked & w1 & Hfill & Hsel & Hk1 & Hrest & Hl).
    cbn [app] in Hfill.
    erewrite bind_val.
    2:{ erewrite bind_val; [|exact Hhead].
        erewrite bind_val; [|by unfold get_order_aisles; rewrite HA0].
        erewrite bind_val; [|exact Hhead].
        erewrite bind_val; [|exact Hhead].
        erewrite bind_val; [|by cbn; rewrite decide_True].
        erewrite bind_val; [|exact Hfill]. reflexivity. }
    simpl in Hl. rewrite Nat.sub_0_r in Hl.
    destruct (IH (acc ++ [picked]) w1) as (new & w' & Hrun & Hlen & Hog).
    { replace (length (heap w1 l))
        with (length (heap w l) - K s `min` length (heap w l)) by lia.
      done. }
    { done. }
    { lia. }
    exists (picked :: new), w'. split; [by rewrite Hrun, <- app_assoc|].
    split; [by rewrite !length_cons, Hlen|].
    cbn [overlap_greedy]. exists o0, (heap w1 l).
    rewrite Hpool at 1. split; [done|]. split; [done|].
    split; [by rewrite HA0|done].
Qed.

(** C4: in [greedy_batches], every selection step takes the first order
    of the remaining pool, in scan order, whose number of new aisles
    [|order_aisles(o) \ batch_aisles|] is minimal.  For a constructed
    solver the batches returned are built that way from the order ids
    sorted by descending number of aisles: each batch starts from the
    aisles of the head of the pool and holds [min(K, len(pool))]
    successive selections, each leaving the pool.  In the scan an order
    with no new aisle ends it at once, whatever follows it in the pool.
    On the scenario [{o1:{a1,a2}, o2:{a2}, o3:{a3}}] with [K = 2] the
    strategy returns [[o1,o2]] and [[o3]], which the evaluator counts as
    3. *)
Theorem overlap_greedy_selection (ol : Orderlist) (max_batch_size : nat)
    (fuel : nat) (w : world) :
  1 ≤ max_batch_size → length ol < fuel →
  (∃ s w' batches,
     Solver_init ol max_batch_size w = (Val s, w') ∧
     (greedy_batches fuel s w').1 = Val batches ∧
     length batches = ceil_div (length ol) max_batch_size ∧
     sorted_pool s ol.*1 ≡ₚ ol.*1 ∧
     by_aisles_desc s (sorted_pool s ol.*1) ∧
     overlap_greedy s (sorted_pool s ol.*1) batches) ∧
  (∀ s batch_aisles pre o A post w0,
     Forall (λ o', known_order s o' ∧ 0 < new_aisles s batch_aisles o') pre →
     order_aisles s !! o = Some A → new_aisles s batch_aisles o = 0 →
     greedy_scan s batch_aisles (pre ++ o :: post) (mkScan None ∅ None) w0
       = (Val (mkScan (Some o) A (Some 0)), w0)) ∧
  (greedy_batches 4 scenario_solver scenario_world).1
    = Val [["o1"; "o2"]; ["o3"]] ∧
  ((do batches <- greedy_batches 4 scenario_solver ;
    check_num_aisles scenario_solver batches) scenario_world).1 = Val 3.
Proof.
  intros HK Hfuel. split; [|split; [|split; by vm_compute]].
  - destruct (Solver_init_ready ol max_batch_size w HK)
      as (s & w' & Hrun & Hids & HKs & HB & Hk).
    set (w1 := set_heap (<[next w' := heap w' (order_ids s)]> (heap w'))
                        (S (next w')) w').
    assert (Hw1 : heap w1 (next w') = heap w' (order_ids s))
      by apply fn_lookup_insert.
    set (w2 := set_heap (<[next w' := sorted_pool s (heap w1 (next w'))]>
                           (heap w1)) (next w1) w1).
    assert (Hw2 : heap w2 (next w') = sorted_pool s ol.*1).
    { unfold w2. cbn [heap set_heap]. rewrite fn_lookup_insert.
      by rewrite Hw1, Hids. }
    assert (Hperm : sorted_pool s ol.*1 ≡ₚ ol.*1).
    { unfold sorted_pool. rewrite sort_desc_perm. cbn [app].
      rewrite <- list_fmap_compose. by rewrite list_fmap_id. }
    pose proof (fits_ceil_div (length (heap w' (order_ids s))) (K s)) as Hfit.
    rewrite <- HB in Hfit.
    destruct (greedy_rounds_select fuel s (next w') (seq 0 (B s)) [] w2)
      as (new & w'' & Hr & Hlen & Hog).
    { lia. }
    { rewrite Hw2, Hperm, length_seq, <- Hids. apply Hfit. lia. }
    { rewrite Hw2, Hperm, <- Hids. done. }
    { rewrite Hw2, Hperm, length_fmap. done. }
    exists s, w', new. split; [done|]. split; [|split; [|split; [|split]]].
    + unfold greedy_batches.
      erewrite bind_val; [|apply py_copy_eq].
      erewrite bind_val;
        [|apply (py_sort_desc_pool s (next w') w1); by rewrite Hw1].
      exact (f_equal fst Hr).
    + by rewrite Hlen, length_seq, HB, Hids, length_fmap, HKs.
    + done.
    + apply keyed_sorted; [|apply sort_desc_sorted].
      rewrite sort_desc_perm. apply Forall_fmap.
      apply Forall_forall. by intros o _.
    + by rewrite Hw2 in Hog.
  - intros s ba pre o A post w0 Hpre HA Hz.
    by apply greedy_scan_stops_at_zero.
Qed.

Lemma overlap_greedy_selection_witness :
  ∃ s w' batches,
    Solver_init scenario 2 initial_world = (Val s, w') ∧
    (greedy_batches 4 s w').1 = Val batches ∧
    length batches = ceil_div (length scenario) 2 ∧
    sorted_pool s scenario.*1 ≡ₚ scenario.*1 ∧
    by_aisles_desc s (sorted_pool s scenario.*1) ∧
    overlap_greedy s (sorted_pool s scenario.*1) batches.
Proof.
  refine (proj1 (overlap_greedy_selection scenario 2 4 initial_world _ _)).
  - lia.
  - simpl. lia.
Defined.


(** * The warm start is computed by the module-level solver *)

Lemma keeps_world_ret {A} (a : A) : keeps_world (ret a).
Proof. done. Qed.

Lemma keeps_world_raise {A} e : keeps_world (raise (A:=A) e).
Proof. done. Qed.

Lemma keeps_world_bind {A C} (m : M A) (k : A → M C) :
  keeps_world m → (∀ a, keeps_world (k a)) → keeps_world (bind m k).
Proof.
  intros Hm Hk w. unfold bind. specialize (Hm w).
  destruct (m w) as [[a|e|] w1]; simpl in Hm; subst w1; [apply Hk|done..].
Qed.

Lemma keeps_world_for_each {X S} (l : list X) (body : X → S → M S) acc :
  (∀ x a, keeps_world (body x a)) → keeps_world (for_each l body acc).
Proof.
  intros Hbody. revert acc. induction l as [|x l IH]; intros acc;
    cbn [for_each]; [done|].
  apply keeps_world_bind; [apply Hbody|apply IH].
Qed.

Lemma keeps_world_get_aisles_orders s a :
  keeps_world (get_aisles_orders s a).
Proof.
  intros w. unfold get_aisles_orders, bind.
  by destruct (aisles_orders s !! a).
Qed.

Lemma keeps_world_start_values s sbo : keeps_world (start_values s sbo).
Proof.
  unfold start_values.
  apply keeps_world_bind; [|intros xstart; apply keeps_world_bind; [|done]].
  - apply keeps_world_for_each. intros bb xs.
    apply keeps_world_bind; [done|]. intros ids.
    apply keeps_world_for_each. intros o xs'. by destruct (_ <? _).
  - apply keeps_world_for_each. intros bb ys.
    apply keeps_world_for_each. intros a ys'.
    apply keeps_world_bind; [apply keeps_world_get_aisles_orders|].
    intros os. apply keeps_world_for_each. intros o ys''.
    destruct (decide _); [|done]. by destruct (_ <? _).
Qed.

Lemma keeps_world_full_link s (bs : list nat) acc :
  keeps_world
    (for_each bs (λ b link,
       for_each (aisles s) (λ a link,
         do os <- get_aisles_orders s a ;
         ret (link ++ (pair (b, a) <$> os))) link) acc).
Proof.
  apply keeps_world_for_each. intros b link.
  apply keeps_world_for_each. intros a link'.
  apply keeps_world_bind; [apply keeps_world_get_aisles_orders|done].
Qed.

Lemma keeps_world_MIP_read gurobi s m : keeps_world (MIP_read gurobi s m).
Proof.
  unfold MIP_read, for_range. cbv zeta.
  apply keeps_world_for_each. intros k batches.
  apply keeps_world_bind; [done|]. intros ids.
  apply keeps_world_bind; [|done].
  apply keeps_world_for_each. intros o batch.
  by destruct (optimize_full gurobi m).
Qed.

(** With the module-level name bound to [g], [MIP] is the batching of
    [g] followed by the rest of [MIP] on [self]. *)
Lemma MIP_with_global gurobi self g w :
  MIP gurobi self true (set_global (Some g) w) =
    (do sbo <- greedy_optimal_single_batching gurobi g ;
     do start <- start_values self sbo ;
     do link <- for_range (B self) (λ b link,
         for_each (aisles self) (λ a link,
           do os <- get_aisles_orders self a ;
           ret (link ++ (pair (b, a) <$> os))) link) [] ;
     MIP_read gurobi self
       (mkFull (heap w (order_ids self)) (B self) (aisles self) (K self)
               link start.1 start.2)) (set_global (Some g) w).
Proof.
  unfold MIP, MIP_model, MIP_start, MIP_read, bind, read_global_solver,
    deref. cbn [global_solver set_global heap].
  destruct (greedy_optimal_single_batching gurobi g _) as [[sbo|e|] w1];
    [|done..].
  destruct (start_values self sbo w1) as [[start|e|] w2]; [|done..].
  by destruct (for_range _ _ _ w2) as [[link|e|] w3].
Qed.

Lemma start_x_overflow s (bbs : list (nat * list Order)) acc w :
  heap w (order_ids s) ≠ [] → Exists (λ bb, B s ≤ bb.1) bbs →
  for_each bbs (λ bb xstart,
      do ids <- deref (order_ids s) ;
      for_each ids (λ o xstart,
        if bb.1 <? B s
        then ret (xstart ++ [(o, bb.1, bool_decide (o ∈ bb.2))])
        else raise KeyError) xstart) acc w
  = (Exn KeyError, w).
Proof.
  intros Hids Hex. revert acc.
  induction bbs as [|bb bbs IH]; intros acc; [by apply Exists_nil in Hex|].
  cbn [for_each]. destruct (decide (bb.1 < B s)) as [Hlt|Hge].
  - erewrite bind_val.
    2:{ erewrite bind_val; [|reflexivity]. by apply start_x_batch. }
    apply IH. apply Exists_cons in Hex as [Hbb|Hex]; [lia|done].
  - apply bind_exn. erewrite bind_val; [|reflexivity].
    destruct (heap w (order_ids s)) as [|o ids]; [done|].
    cbn [for_each]. apply bind_exn.
    assert ((bb.1 <? B s) = false) as -> by (apply Nat.ltb_ge; lia).
    done.
Qed.

(** C9: with [initial_solution=True], [MIP] computes the warm-start
    batching by calling [greedy_optimal_single_batching] on the
    module-level name [solver], not on the receiving instance.  Where
    that name is unbound the call raises [NameError].  Where it is bound
    to a solver [g]: what [MIP] does to the world (the pool copied, the
    requests made) is what the strategy does on [g]; an exception of the
    strategy on [g] is the outcome of [MIP]; and when the strategy
    returns, the model [MIP] hands to the engine starts [x[o,b]] at 1
    exactly for the orders [o] of [self] in batch [b] of [g]'s batching,
    and [y[b,a]] where such an order is in the list of aisle [a] --
    unless [g]'s batching has more batches than [self.B], where setting
    the start value raises [KeyError].  On the scenario's solver, with
    the name bound to a solver over another order, every [x] start value
    is 0, while with the name bound to the scenario's solver itself the
    first batch's start values are 1. *)
Theorem MIP_warm_start_uses_global_solver (gurobi : Engine) (self : Solver)
    (w : world) :
  MIP gurobi self true (set_global None w)
    = (Exn NameError, set_global None w) ∧
  (∀ g,
     (MIP gurobi self true (set_global (Some g) w)).2
       = (greedy_optimal_single_batching gurobi g (set_global (Some g) w)).2 ∧
     (∀ e,
        (greedy_optimal_single_batching gurobi g (set_global (Some g) w)).1
          = Exn e →
        (MIP gurobi self true (set_global (Some g) w)).1 = Exn e) ∧
     (∀ sbo w1,
        greedy_optimal_single_batching gurobi g (set_global (Some g) w)
          = (Val sbo, w1) →
        (length sbo ≤ B self →
         (∀ a, a ∈ aisles self → is_Some (aisles_orders self !! a)) →
         ∃ m,
           MIP_model gurobi self true (set_global (Some g) w) = (Val m, w1) ∧
           fm_xstart m =
             flat_map (λ bb, (λ o, (o, bb.1, bool_decide (o ∈ bb.2)))
                               <$> heap w1 (order_ids self))
                      (enumerate sbo) ∧
           (∀ b a, (b, a) ∈ fm_ystart m ↔
              ∃ batch o, sbo !! b = Some batch ∧ o ∈ batch ∧
                         a ∈ aisles self ∧ in_aisles_orders w1 self a o) ∧
           MIP gurobi self true (set_global (Some g) w)
             = MIP_read gurobi self m w1) ∧
        (B self < length sbo → heap w1 (order_ids self) ≠ [] →
         MIP gurobi self true (set_global (Some g) w)
           = (Exn KeyError, w1)))) ∧
  (fm_xstart <$>
     (MIP_model first_fit scenario_solver true
        (set_global (Some other_solver) two_solvers_world)).1)
    = Val [("o1", 0, false); ("o2", 0, false); ("o3", 0, false)] ∧
  (fm_xstart <$>
     (MIP_model first_fit scenario_solver true
        (set_global (Some scenario_solver) two_solvers_world)).1)
    = Val [("o1", 0, true); ("o2", 0, true); ("o3", 0, true);
           ("o1", 1, false); ("o2", 1, false); ("o3", 1, false)].
Proof.
  split; [reflexivity|]. split; [|split; by vm_compute].
  intros g. split; [|split].
  - rewrite MIP_with_global. unfold bind at 1.
    destruct (greedy_optimal_single_batching gurobi g _) as [[sbo|e|] w1];
      [|done..].
    cbn [snd]. apply keeps_world_bind; [apply keeps_world_start_values|].
    intros start. apply keeps_world_bind; [apply keeps_world_full_link|].
    intros link. apply keeps_world_MIP_read.
  - intros e He. rewrite MIP_with_global. unfold bind at 1.
    destruct (greedy_optimal_single_batching gurobi g _) as [[sbo|e'|] w1];
      simpl in He; [done| |done].
    by injection He as ->.
  - intros sbo w1 Hg. split.
    + intros Hlen Hkeys.
      assert (Hbbs : Forall (λ bb : nat * list Order, bb.1 < B self)
                            (enumerate sbo)).
      { apply Forall_forall. intros [b batch] Hbb%elem_of_enumerate.
        simpl. apply lookup_lt_Some in Hbb. lia. }
      destruct (start_y_values self (enumerate sbo) w1 Hbbs Hkeys)
        as (ystart & Hy & Hymem).
      destruct (build_full_link self (seq 0 (B self)) [] w1 Hkeys)
        as (link & Hlink & _).
      assert (Hmodel :
        MIP_model gurobi self true (set_global (Some g) w) =
          (Val (mkFull (heap w (order_ids self)) (B self) (aisles self)
                  (K self) link
                  (flat_map (λ bb, (λ o, (o, bb.1, bool_decide (o ∈ bb.2)))
                                     <$> heap w1 (order_ids self))
                            (enumerate sbo))
                  ystart), w1)).
      { unfold MIP_model.
        erewrite bind_val; [|reflexivity].
        erewrite bind_val.
        2:{ unfold MIP_start. erewrite bind_val; [|reflexivity].
            erewrite bind_val; [|exact Hg].
            unfold start_values.
            erewrite bind_val; [|by apply start_x_values].
            erewrite bind_val; [|exact Hy]. reflexivity. }
        unfold for_range. erewrite bind_val; [|exact Hlink]. reflexivity. }
      eexists. split; [exact Hmodel|]. cbn [fm_xstart fm_ystart].
      split; [done|]. split.
      * intros b a. rewrite Hymem. unfold in_aisles_orders. split.
        -- intros (batch & l & o & Hbb%elem_of_enumerate & Ha & Hl & Ho & Hob).
           exists batch, o. split; [done|]. split; [done|]. split; [done|].
           by exists l.
        -- intros (batch & o & Hb & Hob & Ha & l & Hl & Ho).
           exists batch, l, o. split; [by apply elem_of_enumerate|]. done.
      * unfold MIP. erewrite bind_val; [|exact Hmodel]. reflexivity.
    + intros Hlt Hne. rewrite MIP_with_global.
      erewrite bind_val; [|exact Hg]. apply bind_exn.
      unfold start_values. apply bind_exn. apply start_x_overflow; [done|].
      destruct (lookup_lt_is_Some_2 sbo (B self) Hlt) as [batch Hb].
      apply Exists_exists. exists (B self, batch).
      split; [by apply elem_of_enumerate|done].
Qed.

Lemma MIP_warm_start_uses_global_solver_witness :
  ∃ m,
    MIP_model first_fit scenario_solver true
      (set_global (Some other_solver) two_solvers_world)
      = (Val m, (greedy_optimal_single_batching first_fit other_solver
                   (set_global (Some other_solver) two_solvers_world)).2) ∧
    fm_xstart m =
      flat_map (λ bb, (λ o, (o, bb.1, bool_decide (o ∈ bb.2)))
                  <$> heap (greedy_optimal_single_batching first_fit
                              other_solver
                              (set_global (Some other_solver)
                                 two_solvers_world)).2
                        (order_ids scenario_solver))
               (enumerate [["p1"]]) ∧
    (∀ b a, (b, a) ∈ fm_ystart m ↔
       ∃ batch o, [["p1"]] !! b = Some batch ∧ o ∈ batch ∧
                  a ∈ aisles scenario_solver ∧
                  in_aisles_orders
                    (greedy_optimal_single_batching first_fit other_solver
                       (set_global (Some other_solver) two_solvers_world)).2
                    scenario_solver a o) ∧
    MIP first_fit scenario_solver true
      (set_global (Some other_solver) two_solvers_world)
      = MIP_read first_fit scenario_solver m
          (greedy_optimal_single_batching first_fit other_solver
             (set_global (Some other_solver) two_solvers_world)).2.
Proof.
  refine (proj1 (proj2 (proj2 (proj1 (proj2
            (MIP_warm_start_uses_global_solver first_fit scenario_solver
               two_solvers_world)) other_solver)) [["p1"]] _ _) _ _).
  - vm_compute. reflexivity.
  - vm_compute. lia.
  - apply Forall_forall. apply (bool_decide_unpack _). by vm_compute.
Defined.

(** * The reader: how many orders, and how the aisles are named *)

Lemma py_index_run {A} (l : list A) (i : nat) x w :
  l !! i = Some x → py_index l (Z.of_nat i) w = (Val x, w).
Proof.
  intros Hl. unfold py_index. cbv zeta.
  assert ((Z.of_nat i <? 0)%Z = false) as E by (apply Z.ltb_ge; lia).
  rewrite ?E. cbv iota. rewrite ?E, Nat2Z.id, Hl. done.
Qed.

Lemma py_int_val T s w n w' :
  of_option ValueError (py_int T s) w = (Val n, w') → py_int T s = Some n.
Proof. destruct (py_int T s); [by intros [= -> _]|done]. Qed.

Lemma tsv_section_named T location limit w a w' :
  tsv_section T location limit w = (Val a, w') →
  ∃ l0 l1, location !! 0 = Some l0 ∧ location !! 1 = Some l1 ∧
           (a = l0 +:+ "a" ∨ a = l0 +:+ "b").
Proof.
  unfold tsv_section.
  intros (l1 & w1 & [Hl1 _]%(py_index_val _ 1) & H)%bind_inv_val.
  apply bind_inv_val in H as (n1 & w2 & _ & H).
  apply bind_inv_val in H as (l0 & w3 & [Hl0 _]%(py_index_val _ 0)
                              & [= <- _]).
  exists l0, l1. split; [done|]. split; [done|].
  destruct (_ <=? _)%Z; auto.
Qed.

Lemma tsv_aisle_named T location w a w' :
  tsv_aisle T location w = (Val a, w') →
  ∃ l0 n0, location !! 0 = Some l0 ∧ py_int T l0 = Some n0 ∧
    if ((22 <? n0) || (n0 =? 1))%Z
    then a = (if decide (l0 = "52") then "48" else l0)
    else a = l0 +:+ "a" ∨ a = l0 +:+ "b".
Proof.
  unfold tsv_aisle.
  intros (l0 & w1 & [Hl0 _]%(py_index_val _ 0) & H)%bind_inv_val.
  apply bind_inv_val in H as (n0 & w2 & Hn0%py_int_val & H).
  exists l0, n0. split; [done|]. split; [done|].
  assert (Hsec : ∀ limit w3,
            tsv_section T location limit w3 = (Val a, w') →
            a = l0 +:+ "a" ∨ a = l0 +:+ "b").
  { intros limit w3 (l0' & l1 & Hl0' & _ & Ha)%tsv_section_named.
    by simplify_eq. }
  destruct (_ || _); [by injection H as <- _|].
  destruct (_ && _); [by eapply Hsec|].
  destruct (decide (l0 = "19")).
  { apply bind_inv_val in H as (l1 & w3 & _ & H).
    apply bind_inv_val in H as (n1 & w4 & _ & H).
    destruct (negb _); by eapply Hsec. }
  destruct (decide (l0 = "22")); by eapply Hsec.
Qed.

Lemma py_index_last {A} (l : list A) w x w' :
  py_index l (-1) w = (Val x, w') → last l = Some x.
Proof.
  unfold py_index. cbv zeta. cbn [Z.ltb Z.compare].
  destruct (_ <? 0)%Z eqn:E; [done|]. apply Z.ltb_ge in E.
  rewrite last_lookup.
  replace (Z.to_nat (-1 + Z.of_nat (length l))) with (pred (length l))
    by lia.
  unfold of_option, ret, raise. destruct (l !! _); [|done].
  by intros [= -> _].
Qed.

Lemma tsv_entry_named T header values w e w' :
  tsv_entry T header values w = (Val e, w') →
  ∃ l0 l1 l2 n0 a,
    str_split dash (default "" (last values)) !! 0 = Some l0 ∧
    str_split dash (default "" (last values)) !! 1 = Some l1 ∧
    str_split dash (default "" (last values)) !! 2 = Some l2 ∧
    py_int T l0 = Some n0 ∧
    dict_get e "aisle" = Some a ∧
    dict_get e "section" = Some l1 ∧ dict_get e "shelf" = Some l2 ∧
    a ≠ "52" ∧
    if ((22 <? n0) || (n0 =? 1))%Z
    then a = (if decide (l0 = "52") then "48" else l0)
    else a = l0 +:+ "a" ∨ a = l0 +:+ "b".
Proof.
  unfold tsv_entry. cbv zeta.
  intros (lastv & w1 & Hlast%py_index_last & H)%bind_inv_val.
  rewrite Hlast. cbn [default].
  apply bind_inv_val in H as (a & w2 & Ha & H).
  pose proof (tsv_aisle_not_52 _ _ _ _ _ Ha) as Hne.
  apply tsv_aisle_named in Ha as (l0 & n0 & Hl0 & Hn0 & Hrule).
  apply bind_inv_val in H as (h2 & w3 & _ & H).
  apply bind_inv_val in H as (v2 & w4 & _ & H).
  apply bind_inv_val in H as (h3 & w5 & _ & H).
  apply bind_inv_val in H as (v3 & w6 & _ & H).
  apply bind_inv_val in H as (l1 & w7 & [Hl1 _]%(py_index_val _ 1) & H).
  apply bind_inv_val in H as (l2 & w8 & [Hl2 _]%(py_index_val _ 2)
                              & [= <- _]).
  exists l0, l1, l2, n0, a. rewrite !dict_get_set. done.
Qed.

Lemma parsed_named T header line pe :
  parsed T header line pe → entry_named T line pe.2.
Proof.
  intros [_ Hrun]. by eapply (tsv_entry_named _ _ _ initial_world).
Qed.

Lemma parsed_intro T header line o e w w' :
  str_split tab (str_strip T line) !! 1 = Some o →
  tsv_entry T header (str_split tab (str_strip T line)) w = (Val e, w') →
  parsed T header line (o, e).
Proof.
  intros Ho Hrun. split; [done|].
  by destruct (reads_only_val _ _ _ _ (reads_only_tsv_entry _ _ _) Hrun).
Qed.

(** One row that parses: its entry joins the dict, unless its order is
    new and the dict holds more than [max_orders] orders. *)
Lemma tsv_row_run T max_orders header line pe jd w :
  parsed T header line pe →
  tsv_row T max_orders header line jd w =
    (Val (if decide (pe.1 ∈ jd.*1) then Next (json_add jd pe)
          else if (max_orders <? Z.of_nat (length jd))%Z then Break jd
               else Next (json_add jd pe)), w).
Proof.
  intros [Ho Hrun]. unfold tsv_row. cbv zeta.
  erewrite bind_val; [|apply Hrun].
  erewrite bind_val; [|by apply (py_index_run _ 1)].
  unfold json_add. destruct (decide (pe.1 ∈ jd.*1)) as [Hin|Hout].
  - apply dict_get_is_Some in Hin as [es Hes]. by rewrite Hes.
  - apply dict_get_None in Hout. rewrite Hout.
    by destruct (_ <? _)%Z.
Qed.

Lemma size_keys_le (ks l : list string) :
  NoDup ks → length ks ≤ size (list_to_set (ks ++ l) : gset string).
Proof.
  intros Hnd. rewrite <- (size_list_to_set (C:=gset string) ks) by done.
  apply subseteq_size. rewrite list_to_set_app. set_solver.
Qed.

Lemma size_same_elements (l1 l2 : list string) :
  (∀ o, o ∈ l1 ↔ o ∈ l2) →
  size (list_to_set l1 : gset string) = size (list_to_set l2 : gset string).
Proof.
  intros H. apply set_size_proper. intros o.
  rewrite !elem_of_list_to_set. apply H.
Qed.

Lemma json_add_elem jd (pe : Order * list (string * string)) o :
  o ∈ (json_add jd pe).*1 ↔ o ∈ jd.*1 ∨ o = pe.1.
Proof.
  rewrite json_add_keys. destruct (decide (pe.1 ∈ jd.*1)) as [Hin|Hout].
  - split; [by left|]. by intros [?| ->].
  - by rewrite elem_of_app, list_elem_of_singleton.
Qed.

(** The number of orders after the loop, when every row parses: the
    distinct orders of the dict and of the rows, up to
    [max_orders + 1]. *)
Lemma tsv_rows_count T max_orders header rows pes jd0 w :
  Forall2 (parsed T header) rows pes → NoDup jd0.*1 →
  ∃ jd,
    for_each_break rows (tsv_row T max_orders header) jd0 w = (Val jd, w) ∧
    length jd =
      length jd0 `max`
        (size (list_to_set (jd0.*1 ++ pes.*1) : gset Order)
           `min` Z.to_nat (max_orders + 1)).
Proof.
  intros Hrows. revert jd0.
  induction Hrows as [|line pe rows pes Hpe _ IH]; intros jd0 Hnd;
    cbn [for_each_break].
  - exists jd0. split; [done|]. rewrite fmap_nil, app_nil_r.
    rewrite size_list_to_set by done. rewrite length_fmap. lia.
  - erewrite bind_val; [|by apply tsv_row_run].
    pose proof (size_keys_le jd0.*1 ((pe :: pes).*1) Hnd) as Hsize.
    rewrite length_fmap in Hsize.
    assert (Hsame :
      size (list_to_set ((json_add jd0 pe).*1 ++ pes.*1) : gset Order)
      = size (list_to_set (jd0.*1 ++ (pe :: pes).*1) : gset Order)).
    { apply size_same_elements. intros o. rewrite fmap_cons.
      rewrite !elem_of_app, elem_of_cons, json_add_elem. tauto. }
    pose proof (size_keys_le (json_add jd0 pe).*1 pes.*1
                  ltac:(by apply dict_set_NoDup)) as Hsize'.
    rewrite length_fmap, Hsame in Hsize'.
    assert (Hadd : length (json_add jd0 pe) =
                   if decide (pe.1 ∈ jd0.*1) then length jd0
                   else S (length jd0)).
    { rewrite <- (length_fmap fst (json_add jd0 pe)), json_add_keys.
      destruct (decide (pe.1 ∈ jd0.*1)); [by rewrite length_fmap|].
      rewrite length_app, length_fmap. simpl. lia. }
    destruct (decide (pe.1 ∈ jd0.*1)) as [Hin|Hout].
    + destruct (IH (json_add jd0 pe)) as (jd & Hrun & Hlen).
      { by apply dict_set_NoDup. }
      exists jd. split; [done|]. rewrite Hlen, Hadd, Hsame. done.
    + destruct (max_orders <? Z.of_nat (length jd0))%Z eqn:Hfull.
      * apply Z.ltb_lt in Hfull. exists jd0. split; [done|]. lia.
      * apply Z.ltb_ge in Hfull.
        destruct (IH (json_add jd0 pe)) as (jd & Hrun & Hlen).
        { by apply dict_set_NoDup. }
        exists jd. split; [done|]. rewrite Hlen, Hadd, Hsame.
        rewrite Hadd in Hsize'. lia.
Qed.

(** [tsv2json] returns at most [max_orders + 1] orders, and that many
    are reached: when every row parses it returns as many orders as the
    file has, up to [max_orders + 1], not [max_orders].  A new order is
    refused only when the dict holds more than [max_orders] of them;
    with a negative [max_orders] the dict stays empty. *)
Theorem tsv2json_keeps_one_order_more (T : Text) (input_file : list string)
    (max_orders : Z) (w : world) :
  (∀ jd w',
     tsv2json T input_file max_orders w = (Val jd, w') →
     (Z.of_nat (length jd) ≤ 0 `max` (max_orders + 1))%Z) ∧
  (∀ pes,
     Forall2 (parsed T (str_split tab (str_strip T (hd "" input_file))))
             (tl input_file) pes →
     ∃ jd,
       tsv2json T input_file max_orders w = (Val jd, w) ∧
       length jd = size (list_to_set pes.*1 : gset Order)
                     `min` Z.to_nat (max_orders + 1)).
Proof.
  split.
  - intros jd w'
      (_ & read & rest & pes & _ & _ & _ & _ & Hlen & _)%tsv2json_val.
    exact Hlen.
  - intros pes Hrows. unfold tsv2json. cbv zeta.
    destruct (tsv_rows_count T max_orders _ _ _ [] w Hrows)
      as (jd & Hrun & Hlen); [apply NoDup_nil_2|].
    exists jd. split; [done|]. rewrite Hlen. cbn [length fmap list_fmap app].
    lia.
Qed.

Lemma tsv2json_keeps_one_order_more_witness :
  ∃ jd,
    tsv2json plain_text order_file 1 initial_world = (Val jd, initial_world) ∧
    length jd = size (list_to_set order_file_entries.*1 : gset Order)
                  `min` Z.to_nat (1 + 1).
Proof.
  apply (proj2 (tsv2json_keeps_one_order_more plain_text order_file 1
                  initial_world)).
  repeat first
    [ apply Forall2_nil_2
    | apply Forall2_cons_2;
      [eapply (parsed_intro _ _ _ _ _ initial_world);
       vm_compute; reflexivity|] ].
Defined.

(** What [tsv2json] returns is a dict of non-empty entry lists, with
    distinct order ids.  Every entry comes from a row of the file and is
    named after the location [l0-l1-l2] of that row: it has the keys
    [aisle], [section] and [shelf], whatever the header names the two
    other columns; the section is [l1] and the shelf [l2]; for
    [int(l0) > 22] or [int(l0) == 1] the aisle is [l0] itself, [52]
    renamed [48]; otherwise it is [l0] with the suffix [a] or [b]; no
    entry has the aisle [52].  The call changes nothing. *)
Theorem tsv2json_entries (T : Text) (input_file : list string)
    (max_orders : Z) (w : world) jd w' :
  tsv2json T input_file max_orders w = (Val jd, w') →
  w' = w ∧ NoDup jd.*1 ∧
  Forall (λ p, p.2 ≠ [] ∧
               Forall (λ e, ∃ line, line ∈ tl input_file ∧
                                    entry_named T line e) p.2) jd.
Proof.
  intros (-> & read & rest & pes & Hrows & Hread & _ & -> & _)%tsv2json_val.
  split; [done|]. split; [apply json_fold_NoDup, NoDup_nil_2|].
  apply (json_fold_Forall _
           (λ e, ∃ line, line ∈ tl input_file ∧ entry_named T line e));
    [|constructor|].
  - intros o es e He [->|[Hne Hes]].
    + split; [done|]. by constructor.
    + split; [by destruct es|]. apply Forall_app. split; [done|].
      by constructor.
  - assert (Hsub : ∀ line, line ∈ read → line ∈ tl input_file).
    { intros line Hl. rewrite Hrows. apply elem_of_app. by left. }
    clear Hrows. induction Hread as [|line pe read pes Hpe _ IH];
      constructor.
    + exists line. split; [apply Hsub; left|by eapply parsed_named].
    + apply IH. intros line' Hl. apply Hsub. by right.
Qed.

Lemma tsv2json_entries_witness :
  initial_world = initial_world ∧ NoDup order_file_json.*1 ∧
  Forall (λ p, p.2 ≠ [] ∧
               Forall (λ e, ∃ line, line ∈ tl order_file ∧
                                    entry_named plain_text line e) p.2)
         order_file_json.
Proof.
  apply (tsv2json_entries plain_text order_file 1 initial_world).
  vm_compute. reflexivity.
Defined.
